(** * SPOT: the proximity-and-affinity engine of the map view

    A shallow embedding of the pure part of the [MVP_SPOT] component
    (the TypeScript module with [distanceMeters], [vibeScore],
    [visibleSpots] and [markerStyle]) and the properties its
    specification states about it.

    Conventions of the embedding:
    - a JavaScript string is the list of its UTF-16 code units;
      [a[i]] is [nth_error], where [None] stands for [undefined];
    - a JavaScript number that only ever holds a small integer (a score,
      a char code, a hue) is a [Z], with [None] for [NaN] where the
      source can produce it;
    - a JavaScript number that holds a measurement (coordinates,
      distance, opacity, radius) is a binary64 [float];
    - the component's [useState] cells are the fields of [State], and
      the closures over them take the state explicitly;
    - the toast, the timer ref and the timeouts the component has
      pending in the window are the fields of [Page], and the handlers
      are functions from pages to pages. *)

From Stdlib Require Import ZArith NArith List String Ascii Bool Lia.
From Stdlib Require Import Permutation Sorted DecimalString DecimalPos DecimalZ.
From Stdlib Require Import Floats.
Import ListNotations.

#[local] Set Warnings "-inexact-float".

Local Open Scope Z_scope.

(** ** JavaScript strings *)

Module JsString.

Definition t := list N.

Definition of_string (s : string) : t :=
  map N_of_ascii (list_ascii_of_string s).

(** [a[i]]: the one-unit string at index [i], or [undefined]. *)
Definition index (a : t) (i : nat) : option N := nth_error a i.

(** [x === y] on the results of two index expressions. *)
Definition strict_eq (x y : option N) : bool :=
  match x, y with
  | Some c, Some d => N.eqb c d
  | None, None => true
  | _, _ => false
  end.

(** [a.charCodeAt(i)]: the code unit, or [NaN] out of range. *)
Definition charCodeAt (a : t) (i : nat) : option Z :=
  option_map Z.of_N (nth_error a i).

(** The decimal rendering of an integral number, and of [NaN]. *)
Definition of_number (n : option Z) : t :=
  match n with
  | Some z => of_string (NilZero.string_of_int (Z.to_int z))
  | None => of_string "NaN"
  end.

End JsString.

Definition jsstring : Type := JsString.t.

(** Integral numbers with [NaN]: the two operators [markerStyle] uses. *)
Definition num_add (x y : option Z) : option Z :=
  match x, y with
  | Some a, Some b => Some (a + b)
  | _, _ => None
  end.

(** [x % m] for a positive literal [m]; the remainder takes the sign
    of the dividend. *)
Definition num_rem (x : option Z) (m : Z) : option Z :=
  option_map (fun a => Z.rem a m) x.

(** ** The data of the module *)

Inductive Mode := wide | near | mode_3m.

Record Spot := mkSpot {
  id : jsstring;
  lat : float;
  lng : float;
  mbti : jsstring
}.

Definition MBTIS : list jsstring :=
  map JsString.of_string
    ["INTJ"; "INTP"; "ENTJ"; "ENTP";
     "INFJ"; "INFP"; "ENFJ"; "ENFP";
     "ISTJ"; "ISFJ"; "ESTJ"; "ESFJ";
     "ISTP"; "ISFP"; "ESTP"; "ESFP"]%string.

(** ** [vibeScore] *)

(** The loop runs [i] over 0, 1, 2, 3 and adds 1 to [s] at each index
    where [a[i] === b[i]]. *)
Definition vibeScore (a b : jsstring) : Z :=
  fold_left
    (fun s i =>
       if JsString.strict_eq (JsString.index a i) (JsString.index b i)
       then s + 1 else s)
    (seq 0 4) 0.

(** ** Arrays *)

Module Array.

Section Sort.
Context {A : Type}.
Variable cmp : A -> A -> Z.

(** [Array.prototype.sort] is stable: an element moves behind
    another only when the comparator puts it strictly after. *)
Fixpoint insert (x : A) (l : list A) : list A :=
  match l with
  | [] => [x]
  | y :: l' => if cmp x y <=? 0 then x :: l else y :: insert x l'
  end.

Fixpoint sort (l : list A) : list A :=
  match l with
  | [] => []
  | x :: l' => insert x (sort l')
  end.
End Sort.

(** [l.slice(0, n)] *)
Definition slice0 {A} (n : nat) (l : list A) : list A := firstn n l.

End Array.

(** ** The component state and [visibleSpots] *)

Record LatLng := mkLatLng { me_lat : float; me_lng : float }.

Record State := mkState {
  mode : Mode;
  myMbti : jsstring;
  me : LatLng;
  spots : list Spot
}.

Record Scored := mkScored { s : Spot; score : Z }.

Definition Mode_eqb (m n : Mode) : bool :=
  match m, n with
  | wide, wide | near, near | mode_3m, mode_3m => true
  | _, _ => false
  end.

Definition visibleSpots (st : State) : list Spot :=
  if Mode_eqb (mode st) wide then spots st
  else
    let scored :=
      Array.sort (fun a b => score b - score a)
        (map (fun s => mkScored s (vibeScore (myMbti st) (mbti s))) (spots st)) in
    let filtered := map s (filter (fun x => 3 <=? score x) scored) in
    let filtered :=
      if (List.length filtered <? 10)%nat
      then map s (filter (fun x => 2 <=? score x) scored)
      else filtered in
    if Mode_eqb (mode st) mode_3m then Array.slice0 5 filtered
    else Array.slice0 18 filtered.

(** ** [Math] on binary64 numbers *)

Definition is_pos_zero (x : float) : bool :=
  match classify x with PZero => true | _ => false end.

Definition is_neg_zero (x : float) : bool :=
  match classify x with NZero => true | _ => false end.

(** [Math.max(...args)]: [NaN] if an argument is [NaN]; otherwise the
    largest, starting from [-Infinity], with [+0] above [-0]. *)
Definition Math_max (args : list float) : float :=
  if existsb is_nan args then nan
  else
    fold_left
      (fun highest number =>
         if (is_pos_zero number && is_neg_zero highest) || (highest <? number)%float
         then number else highest)
      args neg_infinity.

(** [Math.min(...args)]: the mirror image, starting from [+Infinity],
    with [-0] below [+0]. *)
Definition Math_min (args : list float) : float :=
  if existsb is_nan args then nan
  else
    fold_left
      (fun lowest number =>
         if (is_neg_zero number && is_pos_zero lowest) || (number <? lowest)%float
         then number else lowest)
      args infinity.

Definition Math_PI : float := 0x1.921fb54442d18p+1%float.

Definition clamp (n a b : float) : float := Math_max [a; Math_min [b; n]].

(** ** [distanceMeters]

    [Math.sin], [Math.cos], [Math.asin] and [**] are
    implementation-approximated in ECMAScript: the language fixes no
    binary64 result for them, so they are parameters of the embedding.
    [Math.sqrt] is correctly rounded. *)

Section Distance.

Variables Math_sin Math_cos Math_asin : float -> float.
Variable Math_pow : float -> float -> float.

Local Open Scope float_scope.

Definition distanceMeters (aLat aLng bLat bLng : float) : float :=
  let R := 6371000 in
  let toRad d := (d * Math_PI) / 180 in
  let dLat := toRad (bLat - aLat) in
  let dLng := toRad (bLng - aLng) in
  let lat1 := toRad aLat in
  let lat2 := toRad bLat in
  let x :=
    Math_pow (Math_sin (dLat / 2)) 2 +
    Math_cos lat1 * Math_cos lat2 * Math_pow (Math_sin (dLng / 2)) 2 in
  2 * R * Math_asin (sqrt x).

(** ** [markerStyle] *)

Definition maxD (m : Mode) : float :=
  if Mode_eqb m wide then 2000 else 600.

(** The local [t] of [markerStyle], from the mode and the distance. *)
Definition fade (m : Mode) (d : float) : float :=
  1 - clamp (d / maxD m) 0 1.

(** The local [hue] of [markerStyle]. *)
Definition hue (mbti : jsstring) : option Z :=
  num_rem
    (num_add (JsString.charCodeAt mbti 0) (JsString.charCodeAt mbti 3))
    360.

Definition hsl (hue : option Z) : jsstring :=
  JsString.of_string "hsl(" ++ JsString.of_number hue
    ++ JsString.of_string ", 82%, 62%)".

Record MarkerStyle := mkMarkerStyle {
  opacity : float;
  radius : float;
  color : jsstring;
  d : float
}.

Definition markerStyle (st : State) (s : Spot) : MarkerStyle :=
  let d := distanceMeters (me_lat (me st)) (me_lng (me st)) (lat s) (lng s) in
  let t := fade (mode st) d in
  let opacity := 0.10 + t * 0.80 in
  let radius := 5 + t * 10 in
  let color := hsl (hue (mbti s)) in
  mkMarkerStyle opacity radius color d.

End Distance.

Arguments markerStyle Math_sin Math_cos Math_asin Math_pow st s : assert.

(** ** [generateSpots]

    [Math.random] is a source of numbers: [Math_random k] is the value
    of its [k]-th call, and the functions that draw from it take the
    number of calls made so far and return it advanced.  The rendering
    [x.toString(16)] of a fraction is implementation-approximated in
    ECMAScript and is a parameter. *)

(** [Math.floor(x)] as the integer it denotes; [None] when the result is
    [NaN] or infinite. *)
Definition Math_floor (x : float) : option Z :=
  match Prim2SF x with
  | S754_zero _ => Some 0
  | S754_finite sg m e =>
      let z := if sg then Zneg m else Zpos m in
      Some (if 0 <=? e then z * 2 ^ e else z / 2 ^ (- e))
  | _ => None
  end.

(** [l[i]] for a number [i]: the element at index [i], [undefined] when
    [i] is not an index of [l]. *)
Definition Array_get {A : Type} (l : list A) (i : option Z) : option A :=
  match i with
  | Some z => if 0 <=? z then nth_error l (Z.to_nat z) else None
  | None => None
  end.

(** [ToLength(x)]: the number [x] truncated towards zero, [0] for [NaN]
    and for everything below 1, and at most 2^53 - 1. *)
Definition ToLength (x : float) : Z :=
  match Prim2SF x with
  | S754_finite false m e =>
      Z.min (if 0 <=? e then Zpos m * 2 ^ e else Zpos m / 2 ^ (- e))
            (2 ^ 53 - 1)
  | S754_infinity false => 2 ^ 53 - 1
  | _ => 0
  end.

(** The completion of a call that may throw a [RangeError]. *)
Inductive Completion (A : Type) : Type :=
| Returned (a : A)
| RangeError.

Arguments Returned {A} a.
Arguments RangeError {A}.

(** A spot as [generateSpots] builds it: [mbti] is what the lookup in
    [MBTIS] gave. *)
Record RawSpot := mkRawSpot {
  raw_id : jsstring;
  raw_lat : float;
  raw_lng : float;
  raw_mbti : option jsstring
}.

Section Generation.

Variable Math_random : nat -> float.
Variable toString16 : float -> jsstring.

Local Open Scope float_scope.

Definition rand (min max : float) (k : nat) : float * nat :=
  (min + Math_random k * (max - min), S k).

(** The body of the [map] callback at index [i]. *)
Definition generateSpot (lat lng : float) (i : nat) (k : nat)
  : RawSpot * nat :=
  let spread := 0.007 in
  let id :=
    (JsString.of_string "spot_" ++ JsString.of_number (Some (Z.of_nat i))
       ++ JsString.of_string "_" ++ skipn 2 (toString16 (Math_random k)))%list in
  let '(dlat, k1) := rand (- spread) spread (S k) in
  let '(dlng, k2) := rand (- spread) spread k1 in
  let mbti := Array_get MBTIS (Math_floor (Math_random k2 * 16)) in
  (mkRawSpot id (lat + dlat) (lng + dlng) mbti, S k2).

(** The callback applied to the indices [i], [i+1], ..., [i+n-1]. *)
Fixpoint generateFrom (lat lng : float) (i n : nat) (k : nat)
  : list RawSpot * nat :=
  match n with
  | O => ([], k)
  | S n' =>
      let '(sp, k1) := generateSpot lat lng i k in
      let '(rest, k2) := generateFrom lat lng (S i) n' k1 in
      (sp :: rest, k2)
  end.

(** [Array.from({ length: count })] reads the length [ToLength(count)]
    and constructs an array of that length, which throws a [RangeError]
    when it is 2^32 or more; it then fills every slot, so that [map]
    calls the callback at the indices 0, 1, ... in order. *)
Definition generateSpots (lat lng : float) (count : float) (k : nat)
  : Completion (list RawSpot * nat) :=
  let len := ToLength count in
  if (len <? 2 ^ 32)%Z
  then Returned (generateFrom lat lng 0 (Z.to_nat len) k)
  else RangeError.

End Generation.

(** A raw spot whose tag is defined is a [Spot]. *)
Definition spot_of_raw (r : RawSpot) : option Spot :=
  option_map (mkSpot (raw_id r) (raw_lat r) (raw_lng r)) (raw_mbti r).

(** ** The toast and its timer

    The page part of the component: the [toast] cell, the [timer] ref
    and the timeouts the component has pending in the window.  Every
    timeout the component sets runs the same callback, which hides the
    toast, so a pending timeout is its handle and its delay.  The
    literals are given by their UTF-16 code units. *)

Record ToastState := mkToast {
  toast_show : bool;
  toast_title : jsstring;
  toast_sub : option jsstring
}.

Record Timeout := mkTimeout { handle : Z; delay : Z }.

Record Page := mkPage {
  view : State;
  toast : ToastState;
  timer_current : option Z;
  timeouts : list Timeout;
  vibrations : list (list Z)
}.

(** [window.clearTimeout(h)]: the timeout of handle [h] is dropped, and
    nothing happens when there is none. *)
Definition clearTimeout (h : Z) (l : list Timeout) : list Timeout :=
  filter (fun t => negb (handle t =? h)) l.

(** [if (timer.current) window.clearTimeout(timer.current)], as the
    pending timeouts it leaves: [null] and [0] are falsy. *)
Definition clear_current (current : option Z) (l : list Timeout)
  : list Timeout :=
  match current with
  | Some h => if h =? 0 then l else clearTimeout h l
  | None => l
  end.

(** The initial values of the [useState] cells and of the ref. *)
Definition initial_toast : ToastState :=
  mkToast true
    [51648; 44552; 32; 51060; 32; 44540; 52376; 50640; 8230]%N
    (Some [45208; 46993; 32; 48708; 49847; 54620; 32; 77; 66; 84; 73;
           44032; 32; 51080; 51012; 44620; 63]%N).

Definition initial_page (tag0 : jsstring) (generated : list Spot) : Page :=
  mkPage
    (mkState wide tag0 (mkLatLng 37.5665 126.9780) generated)
    initial_toast None [] [].

Section Timers.

(** The handle [window.setTimeout] returns, given the pending timeouts,
    and whether [navigator.vibrate] exists. *)
Variable setTimeout_handle : list Timeout -> Z.
Variable navigator_vibrate : bool.

(** [ms] is [None] when the caller leaves the third argument out. *)
Definition showToast (title : jsstring) (sub : option jsstring)
    (ms : option Z) (p : Page) : Page :=
  let ms := match ms with Some v => v | None => 1500 end in
  let pending := clear_current (timer_current p) (timeouts p) in
  let h := setTimeout_handle pending in
  mkPage (view p) (mkToast true title sub) (Some h)
    (mkTimeout h ms :: pending) (vibrations p).

(** The callback of the timeout: [setToast((t) => ({ ...t, show: false }))]. *)
Definition hide (p : Page) : Page :=
  mkPage (view p)
    (mkToast false (toast_title (toast p)) (toast_sub (toast p)))
    (timer_current p) (timeouts p) (vibrations p).

Definition setMode (next : Mode) (p : Page) : Page :=
  mkPage
    (mkState next (myMbti (view p)) (me (view p)) (spots (view p)))
    (toast p) (timer_current p) (timeouts p) (vibrations p).

Definition vibrate (pattern : list Z) (p : Page) : Page :=
  mkPage (view p) (toast p) (timer_current p) (timeouts p)
    (pattern :: vibrations p).

Definition changeMode (next : Mode) (p : Page) : Page :=
  let p := setMode next p in
  let p :=
    if Mode_eqb next wide
    then showToast
           [50724; 45720; 51032; 32; 55120; 47492; 51060; 32; 48372; 50668;
            46]%N
           (Some [50612; 46356; 47196; 32; 47784; 50688; 45716; 51648; 46]%N)
           None p
    else p in
  let p :=
    if Mode_eqb next near
    then showToast
           [44032; 44620; 50892; 51656; 49688; 47197; 32; 46608; 47159;
            54644; 51256; 46]%N
           (Some [48708; 49847; 54620; 32; 51901; 51060; 32; 47676; 51200;
                  32; 48372; 50668; 46]%N)
           None p
    else p in
  if Mode_eqb next mode_3m
  then
    let p :=
      showToast
        [51; 109; 32; 50504; 46; 32; 51060; 32; 44264; 47785; 32; 50612;
         46360; 44032; 50640; 46]%N
        (Some [51648; 44552; 44; 32; 47560; 51452; 52832; 32; 49688; 46020;
               46]%N)
        None p in
    if navigator_vibrate then vibrate [40; 30; 40] p else p
  else p.

(** The cleanup of the effect that owns the timer. *)
Definition cleanup (p : Page) : Page :=
  mkPage (view p) (toast p) (timer_current p)
    (clear_current (timer_current p) (timeouts p)) (vibrations p).

End Timers.

(** The two toasts of the geolocation effect: no geolocation at all, and
    the error callback, where [denied] is
    [err.code === err.PERMISSION_DENIED]. *)
Definition geolocation_missing (p : Page) : Page :=
  mkPage (view p)
    (mkToast true
       [50948; 52824; 32; 44592; 45733; 51012; 32; 49324; 50857; 54624; 32;
        49688; 32; 50630; 50612; 50836; 46]%N
       (Some [48652; 46972; 50864; 51200; 50640; 49436; 32; 50948; 52824;
              32; 44428; 54620; 51012; 32; 54869; 51064; 54644; 51480;
              46]%N))
    (timer_current p) (timeouts p) (vibrations p).

Definition geolocation_failed (denied : bool) (p : Page) : Page :=
  mkPage (view p)
    (mkToast true
       [50948; 52824; 47484; 32; 47803; 32; 44032; 51256; 50772; 50612;
        46]%N
       (Some (if denied
              then [50948; 52824; 32; 44428; 54620; 51012; 32; 54728; 50857;
                    54644; 51480; 46]%N
              else [45348; 53944; 50892; 53356; 47; 44428; 54620; 32; 49345;
                    53468; 47484; 32; 54869; 51064; 54644; 51480; 46]%N)))
    (timer_current p) (timeouts p) (vibrations p).

(** The success callback, with the spots [generateSpots(lat, lng, 40)]
    built. *)
Definition geolocation_found (lat lng : float) (generated : list Spot)
    (p : Page) : Page :=
  mkPage
    (mkState (mode (view p)) (myMbti (view p)) (mkLatLng lat lng) generated)
    (toast p) (timer_current p) (timeouts p) (vibrations p).

(** * Vocabulary of the properties

    The definitions below are not part of the component: they name what
    the theorems speak about. *)

(** ** Ranking *)

(** The comparator of [visibleSpots], by the key it sorts on. *)
Definition by_key {A : Type} (key : A -> Z) (a b : A) : Z := key b - key a.

(** Descending order on a key. *)
Definition desc {A : Type} (key : A -> Z) (a b : A) : Prop := key b <= key a.

Definition affinity (viewer : jsstring) (sp : Spot) : Z :=
  vibeScore viewer (mbti sp).

(** The threshold the two-tier policy settles on. *)
Definition threshold (st : State) : Z :=
  if Nat.ltb
       (List.length (filter (fun sp => 3 <=? affinity (myMbti st) sp) (spots st)))
       10
  then 2 else 3.

(** The number of spots a ranked mode shows at most. *)
Definition cap (m : Mode) : nat := if Mode_eqb m mode_3m then 5 else 18.

(** The spots in display rank, before threshold and cap. *)
Definition ranked (st : State) : list Spot :=
  Array.sort (by_key (affinity (myMbti st))) (spots st).

(** ** Tags *)

Definition tag : string -> jsstring := JsString.of_string.

(** The test of the loop body of [vibeScore] at position [i]. *)
Definition agree (a b : jsstring) (i : nat) : bool :=
  JsString.strict_eq (JsString.index a i) (JsString.index b i).

(** The specification's wording: the positions among 0..3 at which the
    two tags carry the same character. *)
Definition agreeing_positions (a b : jsstring) : list nat :=
  filter (fun i => N.eqb (nth i a 0%N) (nth i b 0%N)) (seq 0 4).

(** Positions among 0..3 that lie inside both strings and carry equal
    code units. *)
Definition matches_in_range (a b : jsstring) : list nat :=
  filter
    (fun i =>
       match JsString.index a i, JsString.index b i with
       | Some c, Some d => N.eqb c d
       | _, _ => false
       end)
    (seq 0 4).

(** Positions among 0..3 that lie outside both strings. *)
Definition beyond_both (a b : jsstring) : list nat :=
  filter
    (fun i =>
       match JsString.index a i, JsString.index b i with
       | None, None => true
       | _, _ => false
       end)
    (seq 0 4).

Definition hue_eq_dec (x y : option Z) : {x = y} + {x <> y}.
Proof. decide equality; apply Z.eq_dec. Defined.

(** ** States used as examples *)

(** The component's initial location. *)
Definition seoul : LatLng := mkLatLng 37.5665 126.978.

Definition spot_at (loc : LatLng) (i : string) (t : string) : Spot :=
  mkSpot (tag i) (me_lat loc) (me_lng loc) (tag t).

(** The scenario of the specification: four spots at distance 0. *)
Definition scenario_spots : list Spot :=
  [spot_at seoul "spot_0" "INTJ"; spot_at seoul "spot_1" "INTP";
   spot_at seoul "spot_2" "ESFP"; spot_at seoul "spot_3" "ENTJ"].

Definition scenario : State :=
  mkState mode_3m (tag "INTJ") seoul scenario_spots.

(** A denser neighbourhood, with more than ten close matches. *)
Definition crowd_spots : list Spot :=
  map (fun t => spot_at seoul "spot" t)
    ["INTJ"; "ESFP"; "INTP"; "ENTJ"; "INFJ"; "ISTJ"; "ENFP"; "INTJ";
     "INTP"; "ENTJ"; "INFJ"; "ISTJ"; "ISFP"; "ENTP"; "INTJ"; "INTP";
     "ENTJ"; "INFJ"; "ISTJ"; "INTJ"; "INTP"; "ENTJ"; "INFJ"]%string.

Definition crowd : State := mkState near (tag "INTJ") seoul crowd_spots.

(** One spot a thousandth of a degree away in both coordinates. *)
Definition nearby_spot : Spot :=
  mkSpot (tag "spot_0") 37.5675 126.9790 (tag "INTP").

Definition nearby : State := mkState near (tag "INTJ") seoul [nearby_spot].

(** Stand-ins for the four approximated operations: the small-angle
    reading of the haversine formula, under which [nearby_spot] is
    some 157 m from [seoul]. *)
Definition flat_sin (x : float) : float := x.

Definition flat_cos (x : float) : float := 1%float.

Definition flat_asin (x : float) : float := x.

Definition flat_pow (x y : float) : float := (x * x)%float.

(** ** Binary64 values *)

(** A shift record that has lost no bit. *)
Definition shr_exact (mrs : shr_record) : Prop :=
  shr_r mrs = false /\ shr_s mrs = false.

(** The value [m * 2^e] of a mantissa and an exponent, scaled by a fixed
    power of two that keeps every exponent that occurs non-negative. *)
Definition bias : Z := 2200.

Definition V (m e : Z) : Z := m * 2 ^ (e + bias).

Arguments V : simpl never.

(** A positive finite number. *)
Definition fin (m : positive) (e : Z) : spec_float := S754_finite false m e.

(** A number read as a value: [+0] or a positive finite number. *)
Definition reads (f : spec_float) (v : Z) : Prop :=
  (f = S754_zero false /\ v = 0)
  \/ (exists m e, f = S754_finite false m e /\ v = V (Zpos m) e).

(** ** Vocabulary of the further properties *)

(** The spots of one affinity, in input order. *)
Definition level (viewer : jsstring) (k : Z) (l : list Spot) : list Spot :=
  filter (fun sp => affinity viewer sp =? k) l.

(** The state with another spot list. *)
Definition with_spots (st : State) (l : list Spot) : State :=
  mkState (mode st) (myMbti st) (me st) l.

(** The place of a number on the extended real line, scaled like [V]. *)
Definition rank (f : spec_float) : Z :=
  match f with
  | S754_zero _ => 0
  | S754_infinity false => 2 ^ (1024 + bias)
  | S754_infinity true => - 2 ^ (1024 + bias)
  | S754_nan => 0
  | S754_finite false m e => V (Zpos m) e
  | S754_finite true m e => - V (Zpos m) e
  end.

Definition frank (x : float) : Z := rank (Prim2SF x).

Definition digit (c : N) : Prop := (48 <= c <= 57)%N.

(** A stand-in source of numbers in [0,1). *)
Definition two_point_random (k : nat) : float :=
  if Nat.even k then 0.25%float else 0.75%float.

(** A stand-in hexadecimal rendering. *)
Definition plain_hex (x : float) : jsstring := JsString.of_string "0.8".

(** The four colours of the 16 tags. *)
Definition tag_colours : list jsstring :=
  map tag ["hsl(143, 82%, 62%)"; "hsl(147, 82%, 62%)";
           "hsl(149, 82%, 62%)"; "hsl(153, 82%, 62%)"]%string.

(** ** Runs of the page *)

(** What can happen to the page: a mode is chosen, a pending timeout
    elapses, the geolocation effect reports, the component unmounts. *)
Inductive Event :=
| Chosen (next : Mode)
| Shown (title : jsstring) (sub : option jsstring) (ms : option Z)
| Elapsed (h : Z)
| NoGeolocation
| GeolocationError (denied : bool)
| Position (lat lng : float) (generated : list Spot)
| Unmounted.

(** A timeout that elapses leaves the window's list and runs its
    callback; a handle that is not pending never elapses. *)
Definition elapse (h : Z) (p : Page) : Page :=
  if existsb (fun t => handle t =? h) (timeouts p)
  then hide (mkPage (view p) (toast p) (timer_current p)
               (clearTimeout h (timeouts p)) (vibrations p))
  else p.

Definition step (fresh : list Timeout -> Z) (vib : bool)
    (p : Page) (ev : Event) : Page :=
  match ev with
  | Chosen next => changeMode fresh vib next p
  | Shown title sub ms => showToast fresh title sub ms p
  | Elapsed h => elapse h p
  | NoGeolocation => geolocation_missing p
  | GeolocationError denied => geolocation_failed denied p
  | Position lat lng generated => geolocation_found lat lng generated p
  | Unmounted => cleanup p
  end.

Definition run (fresh : list Timeout -> Z) (vib : bool)
    (p : Page) (evs : list Event) : Page :=
  fold_left (step fresh vib) evs p.

(** At most one timeout is pending, and the ref holds its handle. *)
Definition tidy (p : Page) : Prop :=
  timeouts p = []
  \/ exists h ms,
       h <> 0 /\ timer_current p = Some h /\ timeouts p = [mkTimeout h ms].

(** A stand-in for the window's choice of handles. *)
Definition next_handle (l : list Timeout) : Z :=
  1 + fold_right Z.max 0 (map handle l).

(** ** Rounding to nearest *)

(** A shift record describes the quotient [N / D]: its mantissa is the
    integer part, the round bit tells whether the remainder reaches half
    of [D], the sticky bit whether it is neither nothing nor the half. *)
Definition describes (mrs : shr_record) (N D : Z) : Prop :=
  0 <= N - shr_m mrs * D < D
  /\ (shr_r mrs = true <-> D <= 2 * (N - shr_m mrs * D))
  /\ (shr_s mrs = true
      <-> N - shr_m mrs * D <> 0 /\ 2 * (N - shr_m mrs * D) <> D).

(** The largest rank: that of [Infinity]. *)
Definition top : Z := 2 ^ (1024 + bias).

(** A non-negative result read as a value, [Infinity] standing for any
    value out of range. *)
Definition reading (f : spec_float) (cv : Z) : Prop :=
  (f = S754_zero false /\ cv = 0)
  \/ (exists m e,
        f = S754_finite false m e /\ V (Zpos m) e = cv /\ cv < top)
  \/ (f = S754_infinity false /\ top <= cv).

(** [f] is the quotient [X / D] rounded to nearest, ties to even: [X / D]
    lies in the cell of the grid from [V lo e'] to [V (lo + 1) e'], and
    [f] is the end of the cell the quotient is nearer to, the even one
    at the midpoint. *)
Definition rounds_to (X D : Z) (f : spec_float) : Prop :=
  exists cv lo e',
    -1074 <= e' /\ 0 <= lo < 2 ^ 53
    /\ V lo e' * D <= X < V (lo + 1) e' * D
    /\ ((cv = V lo e'
         /\ (2 * X < (V lo e' + V (lo + 1) e') * D
             \/ (2 * X = (V lo e' + V (lo + 1) e') * D
                 /\ Z.even lo = true)))
        \/ (cv = V (lo + 1) e'
            /\ ((V lo e' + V (lo + 1) e') * D < 2 * X
                \/ (2 * X = (V lo e' + V (lo + 1) e') * D
                    /\ Z.even lo = false))))
    /\ (V lo e' * D = X \/ e' = -1074 \/ 2 ^ 52 <= lo)
    /\ reading f cv.

(** The same for a quotient of either sign: a zero for the quotient 0,
    and the mirror image below it. *)
Definition srounds (X D : Z) (f : spec_float) : Prop :=
  (X = 0 /\ exists sg, f = S754_zero sg)
  \/ (0 < X /\ rounds_to X D f)
  \/ (X < 0 /\ rounds_to (- X) D (SFopp f)).

(** Zeros and finite numbers. *)
Definition finite_sf (f : spec_float) : bool :=
  match f with
  | S754_zero _ | S754_finite _ _ _ => true
  | _ => false
  end.

Definition finite (x : float) : bool := finite_sf (Prim2SF x).

(** A spot a degree away in both coordinates. *)
Definition far_spot : Spot :=
  mkSpot (tag "spot_1") 38.5665 127.978 (tag "ENTJ").

(** The spots a call built: those it returned, none when it threw. *)
Definition built {A B : Type} (c : Completion (list A * B)) : list A :=
  match c with
  | Returned a => fst a
  | RangeError => []
  end.

(** Not negative: [NaN], a zero of either sign, or a number above. *)
Definition not_negative (x : float) : bool :=
  (is_nan x || (0 <=? x))%float.

(** ** A platform with a table

    Stand-ins for the four approximated operations that follow
    ECMAScript wherever it fixes the result (zeros, [NaN], infinities,
    [asin] outside [[-1, 1]]), return the sine and the cosine rounded to
    nearest at the arguments the near-antipodal example reaches, and
    stay within [[-1, 1]] elsewhere.  [x ** 2] is the square rounded to
    nearest. *)

Definition table_sin (x : float) : float :=
  if finite x then
    if (x =? 0)%float then x
    else
      let a := abs x in
      let v :=
        if (a =? 0x1.0422986586b41p+0)%float then 0x1.b33ec513b7cb5p-1%float
        else if (a =? 0x1.921fb54442d18p+0)%float then 1%float
        else if (a <? 1)%float then a else 1%float in
      if (x <? 0)%float then (- v)%float else v
  else nan.

Definition table_cos (x : float) : float :=
  if finite x then
    let a := abs x in
    if (a =? 0x1.0422988b01c09p+0)%float then 0x1.0da3c9893fa75p-1%float
    else if (a =? 0x1.042298400ba77p+0)%float then 0x1.0da3ca08b2355p-1%float
    else 1%float
  else nan.

Definition table_asin (x : float) : float :=
  if ((x <? -1) || (1 <? x))%float then nan else x.

Definition table_pow (x y : float) : float :=
  if (y =? 2)%float then (x * x)%float else nan.

(** A viewer in the Gulf of Alaska and a spot close to the opposite
    point of the globe. *)
Definition antipodal_spot : Spot :=
  mkSpot (tag "spot_0") (-58.221271) 31.980014 (tag "INTP").

Definition antipodal : State :=
  mkState near (tag "INTJ") (mkLatLng 58.221272 (-148.019986))
    [antipodal_spot].

(** * Properties *)

(** ** Sorting by a key, descending *)

Section SortByKey.

Context {A : Type}.
Variable key : A -> Z.

Lemma insert_perm (x : A) (l : list A) :
  Permutation (Array.insert (by_key key) x l) (x :: l).
Proof.
  induction l as [|y l IH]; simpl; [reflexivity|].
  destruct (by_key key x y <=? 0); [reflexivity|].
  rewrite IH. apply perm_swap.
Qed.

Lemma sort_perm (l : list A) : Permutation (Array.sort (by_key key) l) l.
Proof.
  induction l as [|x l IH]; simpl; [constructor|].
  rewrite insert_perm. now constructor.
Qed.

Lemma insert_sorted (x : A) (l : list A) :
  StronglySorted (desc key) l ->
  StronglySorted (desc key) (Array.insert (by_key key) x l).
Proof.
  induction 1 as [|y l Hl IH Hy]; simpl.
  - repeat constructor.
  - destruct (Z.leb_spec (by_key key x y) 0) as [Hle|Hgt].
    + constructor; [now constructor|].
      constructor; [unfold desc, by_key in *; lia|].
      eapply Forall_impl; [|exact Hy].
      unfold desc, by_key in *; intros; lia.
    + constructor; [exact IH|].
      rewrite (Forall_forall (desc key y)). intros z Hz.
      apply (Permutation_in _ (insert_perm x l)) in Hz.
      destruct Hz as [<-|Hz]; [unfold desc, by_key in *; lia|].
      now apply (proj1 (Forall_forall _ _) Hy).
Qed.

Lemma sort_sorted (l : list A) :
  StronglySorted (desc key) (Array.sort (by_key key) l).
Proof.
  induction l as [|x l IH]; simpl; [constructor|].
  now apply insert_sorted.
Qed.

(** Stability: the elements of one key keep their input order. *)
Lemma filter_key_insert (k : Z) (x : A) (l : list A) :
  filter (fun a => key a =? k) (Array.insert (by_key key) x l)
  = filter (fun a => key a =? k) (x :: l).
Proof.
  induction l as [|y l IH]; simpl; [reflexivity|].
  destruct (Z.leb_spec (by_key key x y) 0) as [Hle|Hgt]; [reflexivity|].
  simpl in *. rewrite IH.
  destruct (Z.eqb_spec (key x) k), (Z.eqb_spec (key y) k);
    try reflexivity.
  unfold by_key in Hgt; lia.
Qed.

Lemma filter_key_sort (k : Z) (l : list A) :
  filter (fun a => key a =? k) (Array.sort (by_key key) l)
  = filter (fun a => key a =? k) l.
Proof.
  induction l as [|x l IH]; simpl; [reflexivity|].
  rewrite filter_key_insert. simpl. now rewrite IH.
Qed.

End SortByKey.

(** Sorting commutes with a map that respects the comparator. *)
Lemma sort_map {A B : Type} (f : A -> B) (cb : B -> B -> Z) (l : list A) :
  Array.sort cb (map f l) = map f (Array.sort (fun x y => cb (f x) (f y)) l).
Proof.
  induction l as [|x l IH]; simpl; [reflexivity|].
  rewrite IH. generalize (Array.sort (fun x y => cb (f x) (f y)) l) as m.
  induction m as [|y m IHm]; simpl; [reflexivity|].
  destruct (cb (f x) (f y) <=? 0); simpl; [reflexivity|].
  now rewrite IHm.
Qed.

(** ** Generic list facts *)

Lemma filter_perm_length {A : Type} (p : A -> bool) (l m : list A) :
  Permutation l m -> List.length (filter p l) = List.length (filter p m).
Proof.
  induction 1; simpl; try congruence.
  - destruct (p x); simpl; congruence.
  - destruct (p x), (p y); reflexivity.
Qed.

Lemma filter_firstn_prefix {A : Type} (p : A -> bool) (n : nat) (l : list A) :
  exists rest, filter p l = filter p (firstn n l) ++ rest.
Proof.
  exists (filter p (skipn n l)).
  now rewrite <- filter_app, firstn_skipn.
Qed.

Lemma filter_filter {A : Type} (p q : A -> bool) (l : list A) :
  filter p (filter q l) = filter (fun a => p a && q a) l.
Proof.
  induction l as [|x l IH]; simpl; [reflexivity|].
  destruct (q x); simpl; rewrite IH; destruct (p x); reflexivity.
Qed.

Lemma filter_none {A : Type} (p : A -> bool) (l : list A) :
  (forall a, p a = false) -> filter p l = [].
Proof.
  intros H. induction l as [|x l IH]; simpl; [reflexivity|].
  now rewrite H.
Qed.

Lemma StronglySorted_filter {A : Type} (R : A -> A -> Prop) (p : A -> bool)
      (l : list A) :
  StronglySorted R l -> StronglySorted R (filter p l).
Proof.
  induction 1 as [|x l Hl IH Hx]; simpl; [constructor|].
  destruct (p x); [|exact IH].
  constructor; [exact IH|].
  rewrite Forall_forall in *. intros y Hy.
  apply Hx. now apply filter_In in Hy.
Qed.

Lemma StronglySorted_firstn {A : Type} (R : A -> A -> Prop) (n : nat)
      (l : list A) :
  StronglySorted R l -> StronglySorted R (firstn n l).
Proof.
  intros H. revert n.
  induction H as [|x l Hl IH Hx]; intros [|n]; simpl; try constructor.
  - apply IH.
  - rewrite Forall_forall in *. intros y Hy.
    apply Hx. rewrite <- (firstn_skipn n l). apply in_or_app. now left.
Qed.

(** ** [visibleSpots] in the two ranked modes *)

Lemma map_filter_scored (viewer : jsstring) (th : Z) (l : list Spot) :
  map s (filter (fun x => th <=? score x)
           (map (fun sp => mkScored sp (vibeScore viewer (mbti sp))) l))
  = filter (fun sp => th <=? affinity viewer sp) l.
Proof.
  induction l as [|x l IH]; simpl; [reflexivity|].
  unfold affinity at 1.
  destruct (th <=? vibeScore viewer (mbti x)); simpl; now rewrite IH.
Qed.

Lemma visibleSpots_ranked (st : State) :
  mode st <> wide ->
  visibleSpots st
  = firstn (cap (mode st))
      (filter (fun sp => threshold st <=? affinity (myMbti st) sp) (ranked st)).
Proof.
  intros Hm. unfold visibleSpots.
  destruct (Mode_eqb (mode st) wide) eqn:E.
  { destruct (mode st); simpl in E; congruence. }
  rewrite sort_map; simpl. rewrite !map_filter_scored.
  change (Array.sort _ (spots st)) with (ranked st).
  rewrite (filter_perm_length _ _ _ (sort_perm (affinity (myMbti st)) (spots st))).
  unfold threshold, cap, Array.slice0.
  destruct (Nat.ltb _ 10); destruct (Mode_eqb (mode st) mode_3m); reflexivity.
Qed.

Lemma threshold_cases (st : State) : threshold st = 2 \/ threshold st = 3.
Proof. unfold threshold. destruct (Nat.ltb _ _); auto. Qed.

(** ** [vibeScore] *)

Lemma vibeScore_sum (a b : jsstring) :
  vibeScore a b
  = Z.b2z (agree a b 0) + Z.b2z (agree a b 1)
    + Z.b2z (agree a b 2) + Z.b2z (agree a b 3).
Proof.
  unfold vibeScore, agree; simpl.
  repeat match goal with |- context [if ?c then _ else _] => destruct c end;
    reflexivity.
Qed.

Lemma strict_eq_sym (x y : option N) :
  JsString.strict_eq x y = JsString.strict_eq y x.
Proof. destruct x, y; simpl; auto using N.eqb_sym. Qed.

Lemma strict_eq_refl (x : option N) : JsString.strict_eq x x = true.
Proof. destruct x; simpl; auto using N.eqb_refl. Qed.

Lemma vibeScore_range (a b : jsstring) : 0 <= vibeScore a b <= 4.
Proof.
  rewrite vibeScore_sum.
  destruct (agree a b 0), (agree a b 1), (agree a b 2), (agree a b 3);
    simpl; lia.
Qed.

Lemma vibeScore_sym (a b : jsstring) : vibeScore a b = vibeScore b a.
Proof.
  rewrite !vibeScore_sum. unfold agree.
  now rewrite !(strict_eq_sym (JsString.index a _)).
Qed.

Lemma vibeScore_refl (a : jsstring) : vibeScore a a = 4.
Proof.
  rewrite vibeScore_sum. unfold agree. now rewrite !strict_eq_refl.
Qed.

Lemma length_filter_4 (p : nat -> bool) :
  Z.of_nat (List.length (filter p (seq 0 4)))
  = Z.b2z (p 0%nat) + Z.b2z (p 1%nat) + Z.b2z (p 2%nat) + Z.b2z (p 3%nat).
Proof.
  simpl. destruct (p 0%nat), (p 1%nat), (p 2%nat), (p 3%nat); reflexivity.
Qed.

Lemma vibeScore_split (a b : jsstring) :
  vibeScore a b
  = Z.of_nat (List.length (matches_in_range a b))
    + Z.of_nat (List.length (beyond_both a b)).
Proof.
  rewrite vibeScore_sum.
  unfold matches_in_range, beyond_both. rewrite !length_filter_4.
  unfold agree, JsString.strict_eq.
  destruct (JsString.index a 0) as [a0|], (JsString.index b 0) as [b0|];
    destruct (JsString.index a 1) as [a1|], (JsString.index b 1) as [b1|];
    destruct (JsString.index a 2) as [a2|], (JsString.index b 2) as [b2|];
    destruct (JsString.index a 3) as [a3|], (JsString.index b 3) as [b3|];
    repeat match goal with |- context [N.eqb ?x ?y] => destruct (N.eqb x y) end;
    reflexivity.
Qed.

Lemma vibeScore_count (a b : jsstring) :
  List.length a = 4%nat -> List.length b = 4%nat ->
  vibeScore a b = Z.of_nat (List.length (agreeing_positions a b)).
Proof.
  intros Ha Hb.
  destruct a as [|a0 [|a1 [|a2 [|a3 [|]]]]]; try discriminate.
  destruct b as [|b0 [|b1 [|b2 [|b3 [|]]]]]; try discriminate.
  rewrite vibeScore_sum. unfold agreeing_positions.
  rewrite length_filter_4. reflexivity.
Qed.

(** ** The scenario of the specification *)

(** C1, as stated, fails on the affinities: ENTJ differs from INTJ at
    position 0 only, so its affinity is 3, and the list of affinities
    is not [4;3;0;2]. *)
Lemma scenario_affinities_not_4302 :
  map (affinity (myMbti scenario)) (spots scenario) <> [4; 3; 0; 2].
Proof. vm_compute. discriminate. Qed.

(** C1 (amended): for viewer tag INTJ and spot tags INTJ, INTP, ESFP,
    ENTJ the affinities are [4;3;0;3]; in mode "3m" only three spots
    reach affinity 3, which is fewer than 10, so the threshold is 2, and
    [visibleSpots] is INTJ, INTP, ENTJ in that order, within the cap
    of 5, without ESFP. *)
Theorem scenario_focused :
  map (affinity (myMbti scenario)) (spots scenario) = [4; 3; 0; 3]
  /\ List.length
       (filter (fun sp => 3 <=? affinity (myMbti scenario) sp) (spots scenario))
     = 3%nat
  /\ threshold scenario = 2
  /\ map mbti (visibleSpots scenario) = [tag "INTJ"; tag "INTP"; tag "ENTJ"]
  /\ (List.length (visibleSpots scenario) <= 5)%nat
  /\ ~ In (tag "ESFP") (map mbti (visibleSpots scenario)).
Proof.
  repeat split; try (vm_compute; reflexivity).
  - vm_compute. lia.
  - vm_compute. intros [H|[H|[H|[]]]]; discriminate.
Qed.

(** ** Ranked modes: bounds and thresholds *)

Lemma visibleSpots_threshold (st : State) :
  mode st <> wide ->
  Forall (fun sp => threshold st <= affinity (myMbti st) sp) (visibleSpots st).
Proof.
  intros Hm. rewrite (visibleSpots_ranked st Hm).
  apply Forall_forall. intros sp Hin.
  assert (In sp (filter (fun sp => threshold st <=? affinity (myMbti st) sp)
                   (ranked st))) as H.
  { rewrite <- (firstn_skipn (cap (mode st)) (filter _ _)).
    apply in_or_app. now left. }
  apply filter_In in H. destruct H as [_ H]. now apply Z.leb_le.
Qed.

(** C2: in mode near at most 18 spots are returned and in mode "3m" at
    most 5; every returned spot has affinity at least 2 with the
    viewer's tag; and when at least 10 input spots have affinity at
    least 3, no returned spot has affinity 2. *)
Theorem visibleSpots_bounds (st : State) :
  mode st <> wide ->
  (mode st = near -> (List.length (visibleSpots st) <= 18)%nat)
  /\ (mode st = mode_3m -> (List.length (visibleSpots st) <= 5)%nat)
  /\ Forall (fun sp => 2 <= affinity (myMbti st) sp) (visibleSpots st)
  /\ (Nat.le 10
        (List.length
           (filter (fun sp => 3 <=? affinity (myMbti st) sp) (spots st))) ->
      Forall (fun sp => affinity (myMbti st) sp <> 2) (visibleSpots st)).
Proof.
  intros Hm. pose proof (visibleSpots_threshold st Hm) as Hth.
  repeat split.
  - intros E. rewrite (visibleSpots_ranked st Hm), E. apply firstn_le_length.
  - intros E. rewrite (visibleSpots_ranked st Hm), E. apply firstn_le_length.
  - eapply Forall_impl; [|exact Hth]. simpl.
    destruct (threshold_cases st) as [-> | ->]; intros; lia.
  - intros Hten. eapply Forall_impl; [|exact Hth]. simpl.
    unfold threshold.
    destruct (Nat.ltb_spec
                (List.length
                   (filter (fun sp => 3 <=? affinity (myMbti st) sp) (spots st)))
                10); intros; lia.
Qed.

Lemma visibleSpots_bounds_witness :
  (List.length (visibleSpots crowd) <= 18)%nat
  /\ Forall (fun sp => 2 <= affinity (myMbti crowd) sp) (visibleSpots crowd)
  /\ Forall (fun sp => affinity (myMbti crowd) sp <> 2) (visibleSpots crowd).
Proof.
  destruct (visibleSpots_bounds crowd) as (H18 & _ & H2 & H3).
  - simpl; discriminate.
  - split; [apply H18; reflexivity|].
    split; [exact H2|].
    apply H3. vm_compute. repeat constructor.
Defined.

(** ** Ranked modes: order *)

Lemma ranked_sorted (st : State) :
  StronglySorted (desc (affinity (myMbti st))) (ranked st).
Proof. apply sort_sorted. Qed.

Lemma ranked_stable (st : State) (k : Z) :
  filter (fun sp => affinity (myMbti st) sp =? k) (ranked st)
  = filter (fun sp => affinity (myMbti st) sp =? k) (spots st).
Proof. apply filter_key_sort. Qed.

(** C3: in the two ranked modes the returned spots are in descending
    order of affinity, and the returned spots of any one affinity are an
    initial segment of the input's spots of that affinity, in input
    order: ties keep their relative input order. *)
Theorem visibleSpots_order (st : State) :
  mode st <> wide ->
  StronglySorted
    (fun x y => affinity (myMbti st) y <= affinity (myMbti st) x)
    (visibleSpots st)
  /\ forall k : Z,
      exists rest : list Spot,
        filter (fun sp => affinity (myMbti st) sp =? k) (spots st)
        = filter (fun sp => affinity (myMbti st) sp =? k) (visibleSpots st)
          ++ rest.
Proof.
  intros Hm. rewrite (visibleSpots_ranked st Hm). split.
  - apply StronglySorted_firstn, StronglySorted_filter, ranked_sorted.
  - intros k.
    destruct (filter_firstn_prefix
                (fun sp => affinity (myMbti st) sp =? k) (cap (mode st))
                (filter (fun sp => threshold st <=? affinity (myMbti st) sp)
                   (ranked st))) as [rest Hrest].
    rewrite filter_filter in Hrest.
    destruct (Z.leb_spec (threshold st) k) as [Hk|Hk].
    + exists rest. rewrite <- Hrest, <- ranked_stable.
      apply filter_ext. intros sp.
      destruct (Z.eqb_spec (affinity (myMbti st) sp) k) as [->|]; simpl;
        [symmetry; now apply Z.leb_le | reflexivity].
    + exists (filter (fun sp => affinity (myMbti st) sp =? k) (spots st)).
      rewrite filter_none in Hrest.
      * symmetry in Hrest. apply app_eq_nil in Hrest.
        destruct Hrest as [-> _]. reflexivity.
      * intros sp.
        destruct (Z.eqb_spec (affinity (myMbti st) sp) k) as [->|]; simpl;
          [now apply Z.leb_gt | reflexivity].
Qed.

Lemma visibleSpots_order_witness :
  StronglySorted
    (fun x y => affinity (myMbti crowd) y <= affinity (myMbti crowd) x)
    (visibleSpots crowd)
  /\ forall k : Z,
      exists rest : list Spot,
        filter (fun sp => affinity (myMbti crowd) sp =? k) (spots crowd)
        = filter (fun sp => affinity (myMbti crowd) sp =? k) (visibleSpots crowd)
          ++ rest.
Proof. apply (visibleSpots_order crowd). simpl; discriminate. Defined.

(** ** Wide mode *)

(** C4: in mode wide [visibleSpots] is the input sequence itself, for
    every viewer tag, location and spot sequence: the same multiset,
    nothing filtered or cut, whatever the affinities and distances. *)
Theorem visibleSpots_wide (viewer viewer' : jsstring) (loc loc' : LatLng)
        (l : list Spot) :
  visibleSpots (mkState wide viewer loc l) = l
  /\ Permutation (visibleSpots (mkState wide viewer loc l)) l
  /\ List.length (visibleSpots (mkState wide viewer loc l)) = List.length l
  /\ visibleSpots (mkState wide viewer' loc' l)
     = visibleSpots (mkState wide viewer loc l).
Proof. repeat split; reflexivity. Qed.

(** ** Affinity of two tags *)

(** C5: for two 4-character tags [vibeScore] is the number of positions
    0..3 at which they carry the same character; it lies in [0,4], is
    symmetric, and a tag scores 4 against itself. *)
Theorem vibeScore_counts_agreement (a b : jsstring) :
  List.length a = 4%nat -> List.length b = 4%nat ->
  vibeScore a b = Z.of_nat (List.length (agreeing_positions a b))
  /\ 0 <= vibeScore a b <= 4
  /\ vibeScore a b = vibeScore b a
  /\ vibeScore a a = 4.
Proof.
  intros Ha Hb. split; [now apply vibeScore_count|].
  split; [apply vibeScore_range|].
  split; [apply vibeScore_sym | apply vibeScore_refl].
Qed.

Lemma vibeScore_counts_agreement_witness :
  vibeScore (tag "INTJ") (tag "ENTP")
  = Z.of_nat (List.length (agreeing_positions (tag "INTJ") (tag "ENTP")))
  /\ 0 <= vibeScore (tag "INTJ") (tag "ENTP") <= 4
  /\ vibeScore (tag "INTJ") (tag "ENTP") = vibeScore (tag "ENTP") (tag "INTJ")
  /\ vibeScore (tag "INTJ") (tag "INTJ") = 4.
Proof.
  apply (vibeScore_counts_agreement (tag "INTJ") (tag "ENTP")); reflexivity.
Defined.

(** C10, as stated, fails: position 3 lies outside the string "INT" on
    both sides, and the loop still counts it, because [undefined ===
    undefined] holds; the score of "INT" against itself is 4 with only
    three characters compared. *)
Lemma out_of_range_position_counted :
  JsString.index (tag "INT") 3 = None
  /\ agree (tag "INT") (tag "INT") 3 = true
  /\ vibeScore (tag "INT") (tag "INT") = 4
  /\ vibeScore (tag "INT") (tag "INT")
     <> Z.of_nat (List.length (matches_in_range (tag "INT") (tag "INT"))).
Proof. repeat split; try reflexivity. vm_compute. discriminate. Qed.

(** C10 (amended): [vibeScore] is total on arbitrary strings and its
    result is an integer in [0,4]; a position among 0..3 counts when
    both strings have the same code unit there, and also when it lies
    outside both strings; a position inside one string only never
    counts. *)
Theorem vibeScore_total (a b : jsstring) :
  0 <= vibeScore a b <= 4
  /\ vibeScore a b
     = Z.of_nat (List.length (matches_in_range a b))
       + Z.of_nat (List.length (beyond_both a b))
  /\ forall i : nat,
       agree a b i = true <->
       (exists c, JsString.index a i = Some c /\ JsString.index b i = Some c)
       \/ (JsString.index a i = None /\ JsString.index b i = None).
Proof.
  split; [apply vibeScore_range|]. split; [apply vibeScore_split|].
  intros i. unfold agree, JsString.strict_eq.
  destruct (JsString.index a i) as [c|], (JsString.index b i) as [d|]; split.
  - intros H. apply N.eqb_eq in H. subst. left. now exists d.
  - intros [(e & He1 & He2)|[H _]]; [|discriminate].
    injection He1 as <-. injection He2 as <-. apply N.eqb_refl.
  - discriminate.
  - intros [(e & _ & He)|[H _]]; discriminate.
  - discriminate.
  - intros [(e & He & _)|[_ H]]; discriminate.
  - intros _. now right.
  - reflexivity.
Qed.

(** ** The hue of a marker *)

Lemma hue_positions (m : jsstring) (c0 c3 : N) :
  JsString.index m 0 = Some c0 -> JsString.index m 3 = Some c3 ->
  hue m = Some ((Z.of_N c0 + Z.of_N c3) mod 360).
Proof.
  unfold hue, JsString.charCodeAt, JsString.index. intros -> ->. simpl.
  f_equal. apply Z.rem_mod_nonneg; lia.
Qed.

Lemma index_in_range (m : jsstring) (i : nat) :
  (i < List.length m)%nat -> exists c, JsString.index m i = Some c.
Proof.
  intros H. unfold JsString.index.
  destruct (nth_error m i) as [c|] eqn:E; [now exists c|].
  apply nth_error_None in E. lia.
Qed.

(** C8: the colour [markerStyle] gives a spot is the rendering of a hue
    computed from the spot's tag alone, namely from its code units at
    positions 0 and 3, whatever the mode, the viewer's location and the
    spot's coordinates; for a tag of (at least) four characters that hue
    is an integer in [0,360); two spots with the same tag get the same
    colour. *)
Theorem hue_of_tag_alone
        (Math_sin Math_cos Math_asin : float -> float)
        (Math_pow : float -> float -> float) (st : State) (sp : Spot) :
  (4 <= List.length (mbti sp))%nat ->
  color (markerStyle Math_sin Math_cos Math_asin Math_pow st sp)
  = hsl (hue (mbti sp))
  /\ (exists c0 c3 : N,
        JsString.index (mbti sp) 0 = Some c0
        /\ JsString.index (mbti sp) 3 = Some c3
        /\ hue (mbti sp) = Some ((Z.of_N c0 + Z.of_N c3) mod 360))
  /\ (exists h : Z, hue (mbti sp) = Some h /\ 0 <= h < 360)
  /\ forall (st' : State) (sp' : Spot),
       mbti sp' = mbti sp ->
       color (markerStyle Math_sin Math_cos Math_asin Math_pow st' sp')
       = color (markerStyle Math_sin Math_cos Math_asin Math_pow st sp).
Proof.
  intros Hlen.
  destruct (index_in_range (mbti sp) 0) as [c0 H0]; [lia|].
  destruct (index_in_range (mbti sp) 3) as [c3 H3]; [lia|].
  pose proof (hue_positions _ _ _ H0 H3) as Hh.
  split; [reflexivity|].
  split; [now exists c0, c3|].
  split.
  - eexists; split; [exact Hh|]. apply Z.mod_pos_bound; lia.
  - intros st' sp' E. simpl. now rewrite E.
Qed.

Lemma hue_of_tag_alone_witness :
  color (markerStyle flat_sin flat_cos flat_asin flat_pow
           scenario (spot_at seoul "spot_0" "INTJ"))
  = tag "hsl(147, 82%, 62%)".
Proof.
  destruct (hue_of_tag_alone flat_sin flat_cos flat_asin flat_pow
              scenario (spot_at seoul "spot_0" "INTJ"))
    as (Hc & _).
  - simpl; lia.
  - rewrite Hc. reflexivity.
Defined.

(** C9: the hue reads the tag at positions 0 and 3 only, so two tags
    that agree there have the same hue whatever stands at positions 1
    and 2; over the 16 tags of [MBTIS] exactly four hues occur, one per
    choice of first letter (E or I) and last letter (J or P). *)
Theorem hue_collisions :
  (forall a b : jsstring,
      JsString.index a 0 = JsString.index b 0 ->
      JsString.index a 3 = JsString.index b 3 ->
      hue a = hue b)
  /\ hue (tag "INTJ") = hue (tag "ISFJ")
  /\ tag "INTJ" <> tag "ISFJ"
  /\ nodup hue_eq_dec (map hue MBTIS)
     = [Some 147; Some 143; Some 153; Some 149]
  /\ List.length MBTIS = 16%nat
  /\ forall t : jsstring, In t MBTIS ->
       exists c0 c3 : N,
         JsString.index t 0 = Some c0 /\ JsString.index t 3 = Some c3
         /\ (c0 = 69%N \/ c0 = 73%N) /\ (c3 = 74%N \/ c3 = 80%N)
         /\ hue t = Some (Z.of_N c0 + Z.of_N c3).
Proof.
  split.
  { intros a b H0 H3. unfold hue, JsString.charCodeAt.
    unfold JsString.index in H0, H3. now rewrite H0, H3. }
  split; [reflexivity|].
  split; [discriminate|].
  split; [vm_compute; reflexivity|].
  split; [reflexivity|].
  intros t Hin. unfold MBTIS in Hin. simpl in Hin.
  repeat (destruct Hin as [<-|Hin];
          [eexists; eexists; repeat split; try reflexivity; auto|]).
  destruct Hin.
Qed.

(** ** Binary64 arithmetic

    The weights of [markerStyle] are binary64 computations.  Their
    bounds rest on one fact about the rounding of [+], [-] and [*]: the
    rounded result of an exact positive value is a neighbour of that
    value on the grid of representable numbers, so it cannot leave an
    interval whose ends are representable.  The section derives it from
    the reference semantics of the kernel's floating-point operations. *)

(** Digits *)
Lemma pow2_pred (d : Z) : 0 < d -> 2 ^ d = 2 * 2 ^ (d - 1).
Proof. intros H. rewrite <- Z.pow_succ_r by lia. f_equal. lia. Qed.

Lemma digits2_bounds (m : positive) :
  2 ^ (Zpos (digits2_pos m) - 1) <= Zpos m < 2 ^ Zpos (digits2_pos m).
Proof.
  induction m as [m IH|m IH|]; simpl digits2_pos.
  - rewrite Pos2Z.inj_succ. change (Zpos m~1) with (2 * Zpos m + 1).
    replace (Z.succ (Zpos (digits2_pos m)) - 1) with (Zpos (digits2_pos m)) by lia.
    rewrite Z.pow_succ_r by lia.
    rewrite (pow2_pred (Zpos (digits2_pos m))) in * by lia. lia.
  - rewrite Pos2Z.inj_succ. change (Zpos m~0) with (2 * Zpos m).
    replace (Z.succ (Zpos (digits2_pos m)) - 1) with (Zpos (digits2_pos m)) by lia.
    rewrite Z.pow_succ_r by lia.
    rewrite (pow2_pred (Zpos (digits2_pos m))) in * by lia. lia.
  - simpl. lia.
Qed.

Lemma Zdigits2_bounds (m : Z) :
  0 < m -> 2 ^ (Zdigits2 m - 1) <= m < 2 ^ Zdigits2 m.
Proof. destruct m; try lia. intros _. apply digits2_bounds. Qed.

Lemma Zdigits2_pos (m : Z) : 0 < m -> 0 < Zdigits2 m.
Proof. destruct m; simpl; lia. Qed.

(** Shifting right *)
Lemma shr_1_m (mrs : shr_record) :
  0 <= shr_m mrs -> shr_m (shr_1 mrs) = shr_m mrs / 2.
Proof.
  destruct mrs as [m r s]; simpl. intros Hm.
  destruct m as [|[p|p|]|p]; try lia; simpl shr_m.
  - reflexivity.
  - change (Zpos p~1) with (2 * Zpos p + 1).
    apply (Z.div_unique _ _ _ 1); lia.
  - change (Zpos p~0) with (2 * Zpos p).
    apply (Z.div_unique _ _ _ 0); lia.
  - reflexivity.
Qed.

Lemma shr_1_exact (mrs : shr_record) :
  0 <= shr_m mrs ->
  shr_exact (shr_1 mrs) <-> shr_exact mrs /\ shr_m mrs mod 2 = 0.
Proof.
  unfold shr_exact. destruct mrs as [m r s]; simpl. intros Hm.
  destruct m as [|[p|p|]|p]; try lia; simpl; rewrite ?orb_false_iff.
  - intuition.
  - change (Zpos p~1) with (2 * Zpos p + 1).
    rewrite Z.add_comm, Z.mul_comm, Z.mod_add by lia.
    change (1 mod 2) with 1. intuition; discriminate.
  - change (Zpos p~0) with (2 * Zpos p).
    rewrite Z.mul_comm, Z.mod_mul by lia. intuition.
  - change (1 mod 2) with 1. intuition; discriminate.
Qed.

Lemma mod_mul_split (a b m : Z) :
  0 < a -> 0 < b ->
  m mod (a * b) = 0 <-> m mod a = 0 /\ (m / a) mod b = 0.
Proof.
  intros Ha Hb. split.
  - intros H. apply Z.div_exact in H; [|lia].
    set (q := m / (a * b)) in *.
    assert (m = (b * q) * a) as E by lia.
    rewrite E at 1 2. rewrite Z.mod_mul, Z.div_mul by lia.
    split; [reflexivity|]. rewrite Z.mul_comm. apply Z.mod_mul. lia.
  - intros [H1 H2].
    apply Z.div_exact in H1; [|lia]. apply Z.div_exact in H2; [|lia].
    rewrite H1, H2. rewrite Z.mul_assoc. rewrite Z.mul_comm. apply Z.mod_mul. lia.
Qed.

Lemma iter_shr_1 (p : positive) :
  forall mrs : shr_record,
    0 <= shr_m mrs ->
    shr_m (iter_pos shr_1 p mrs) = shr_m mrs / 2 ^ Zpos p
    /\ (shr_exact (iter_pos shr_1 p mrs)
        <-> shr_exact mrs /\ shr_m mrs mod 2 ^ Zpos p = 0).
Proof.
  induction p as [p IH|p IH|]; intros mrs Hm; simpl iter_pos.
  - pose proof (shr_1_m mrs Hm) as H1.
    assert (0 <= shr_m (shr_1 mrs)) as Hm1 by (rewrite H1; apply Z.div_pos; lia).
    destruct (IH _ Hm1) as [H2 E2].
    assert (0 <= shr_m (iter_pos shr_1 p (shr_1 mrs))) as Hm2
        by (rewrite H2; apply Z.div_pos; lia).
    destruct (IH _ Hm2) as [H3 E3].
    assert (0 < 2 ^ Zpos p) by (apply Z.pow_pos_nonneg; lia).
    change (Zpos p~1) with (2 * Zpos p + 1).
    replace (2 * Zpos p + 1) with (1 + Zpos p + Zpos p) by lia.
    rewrite !Z.pow_add_r, Z.pow_1_r by lia.
    split.
    + rewrite H3, H2, H1. rewrite !Z.div_div by lia. f_equal. ring.
    + rewrite E3, E2, (shr_1_exact mrs Hm).
      rewrite (mod_mul_split (2 * 2 ^ Zpos p)) by lia.
      rewrite (mod_mul_split 2) by lia.
      rewrite H2, H1, Z.div_div by lia. tauto.
  - destruct (IH _ Hm) as [H2 E2].
    assert (0 <= shr_m (iter_pos shr_1 p mrs)) as Hm2
        by (rewrite H2; apply Z.div_pos; lia).
    destruct (IH _ Hm2) as [H3 E3].
    assert (0 < 2 ^ Zpos p) by (apply Z.pow_pos_nonneg; lia).
    change (Zpos p~0) with (2 * Zpos p).
    replace (2 * Zpos p) with (Zpos p + Zpos p) by lia.
    rewrite !Z.pow_add_r by lia.
    split.
    + rewrite H3, H2. rewrite !Z.div_div by lia. reflexivity.
    + rewrite E3, E2. rewrite (mod_mul_split (2 ^ Zpos p)) by lia.
      rewrite H2. tauto.
  - split; [apply shr_1_m; exact Hm|].
    rewrite Z.pow_1_r. apply shr_1_exact; exact Hm.
Qed.

Lemma fexp_eq (e : Z) : fexp prec emax e = Z.max (e - 53) (-1074).
Proof. reflexivity. Qed.

Lemma loc_exact_iff (mrs : shr_record) :
  loc_of_shr_record mrs = loc_Exact <-> shr_exact mrs.
Proof.
  unfold shr_exact. destruct mrs as [m [|] [|]]; simpl; split;
    intros H; try discriminate; try tauto; destruct H; discriminate.
Qed.

Lemma shr_fexp_exact (m e : Z) :
  0 <= m ->
  let n := fexp prec emax (Zdigits2 m + e) - e in
  (n <= 0 ->
   shr_fexp prec emax m e loc_Exact = (Build_shr_record m false false, e))
  /\ (0 < n ->
      exists mrs,
        shr_fexp prec emax m e loc_Exact = (mrs, e + n)
        /\ shr_m mrs = m / 2 ^ n
        /\ (loc_of_shr_record mrs = loc_Exact <-> m mod 2 ^ n = 0)).
Proof.
  intros Hm n. unfold shr_fexp. fold n. unfold shr. simpl shr_record_of_loc.
  destruct n as [|p|p] eqn:En; split; intros Hn; try lia; try reflexivity.
  destruct (iter_shr_1 p (Build_shr_record m false false) Hm) as [H1 H2].
  eexists; split; [reflexivity|]. split; [exact H1|].
  rewrite loc_exact_iff, H2. unfold shr_exact. simpl. tauto.
Qed.

Lemma round_nearest_even_cases (m : Z) (l : location) :
  (round_nearest_even m l = m)
  \/ (round_nearest_even m l = m + 1 /\ l <> loc_Exact).
Proof.
  destruct l as [|[| |]]; simpl; auto.
  - destruct (Z.even m); [auto|right; split; [reflexivity|discriminate]].
  - right; split; [reflexivity|discriminate].
Qed.

Lemma pow2_pos (k : Z) : 0 <= k -> 0 < 2 ^ k.
Proof. intros. apply Z.pow_pos_nonneg; lia. Qed.

Lemma pow2_split (a b : Z) : 0 <= a -> 0 <= b -> 2 ^ (a + b) = 2 ^ a * 2 ^ b.
Proof. intros. apply Z.pow_add_r; lia. Qed.

Lemma pow2_le (a b : Z) : 0 <= a <= b -> 2 ^ a <= 2 ^ b.
Proof. intros. apply Z.pow_le_mono_r; lia. Qed.

(** The first shift of [binary_round_aux]: the exact value [mx * 2^ex]
    is cut down to the grid of exponent [e']. *)
Lemma first_shift (mx ex : Z) :
  0 < mx ->
  exists mrs e' lo,
    shr_fexp prec emax mx ex loc_Exact = (mrs, e')
    /\ shr_m mrs = lo
    /\ ex <= e' /\ -1074 <= e' /\ 0 <= lo < 2 ^ 53
    /\ lo * 2 ^ (e' - ex) <= mx < (lo + 1) * 2 ^ (e' - ex)
    /\ (loc_of_shr_record mrs = loc_Exact <-> lo * 2 ^ (e' - ex) = mx)
    /\ (e' = ex \/ (e' = -1074 /\ lo < 2 ^ 52) \/ 2 ^ 52 <= lo).
Proof.
  intros Hm.
  pose proof (Zdigits2_bounds mx Hm) as Hd.
  pose proof (Zdigits2_pos mx Hm) as Hdp.
  destruct (shr_fexp_exact mx ex (Z.lt_le_incl _ _ Hm)) as [Hno Hsh].
  rewrite fexp_eq in Hno, Hsh.
  set (d := Zdigits2 mx) in *.
  destruct (Z_le_gt_dec (Z.max (d + ex - 53) (-1074) - ex) 0) as [Hn|Hn].
  - exists (Build_shr_record mx false false), ex, mx.
    split; [now apply Hno|]. split; [reflexivity|].
    rewrite Z.sub_diag, Z.pow_0_r.
    assert (2 ^ d <= 2 ^ 53) by (apply pow2_le; lia).
    repeat split; try lia; try reflexivity.
  - destruct (Hsh ltac:(lia)) as (mrs & Hmrs & Hlo & Hex).
    set (n := Z.max (d + ex - 53) (-1074) - ex) in *.
    assert (0 < 2 ^ n) as Hpn by (apply pow2_pos; lia).
    exists mrs, (ex + n), (mx / 2 ^ n).
    split; [exact Hmrs|]. split; [exact Hlo|].
    replace (ex + n - ex) with n by lia.
    pose proof (Z.mul_div_le mx (2 ^ n) Hpn) as Hle.
    pose proof (Z.mul_succ_div_gt mx (2 ^ n) Hpn) as Hgt.
    assert (0 <= mx / 2 ^ n) as Hlo0 by (apply Z.div_pos; lia).
    assert (mx / 2 ^ n < 2 ^ 53) as Hlo53.
    { apply Z.div_lt_upper_bound; [exact Hpn|].
      rewrite <- pow2_split by lia.
      assert (2 ^ d <= 2 ^ (n + 53)) by (apply pow2_le; lia). lia. }
    split; [lia|]. split; [lia|]. split; [lia|]. split; [lia|]. split.
    + rewrite Hex. rewrite <- Z.div_exact by lia. lia.
    + destruct (Z_le_gt_dec (-1074) (d + ex - 53)) as [Hnorm|Hsub].
      * right. right. apply Z.div_le_lower_bound; [exact Hpn|].
        rewrite <- pow2_split by lia.
        replace (n + 52) with (d - 1) by lia. lia.
      * right. left. split; [lia|].
        apply Z.div_lt_upper_bound; [exact Hpn|].
        rewrite <- pow2_split by lia.
        assert (2 ^ d <= 2 ^ (n + 52)) by (apply pow2_le; lia). lia.
Qed.

(** The second shift renormalises [2^53], the one mantissa rounding up
    can push out of range. *)
Lemma second_shift (m e : Z) :
  0 <= m <= 2 ^ 53 -> -1074 <= e ->
  exists mrs e'',
    shr_fexp prec emax m e loc_Exact = (mrs, e'')
    /\ ((m < 2 ^ 53 /\ shr_m mrs = m /\ e'' = e)
        \/ (m = 2 ^ 53 /\ shr_m mrs = 2 ^ 52 /\ e'' = e + 1)).
Proof.
  intros Hm He.
  destruct (shr_fexp_exact m e (proj1 Hm)) as [Hno Hsh].
  rewrite fexp_eq in Hno, Hsh.
  destruct (Z.eq_dec m (2 ^ 53)) as [->|Hne].
  - change (Zdigits2 (2 ^ 53)) with 54 in Hsh.
    replace (Z.max (54 + e - 53) (-1074) - e) with 1 in Hsh by lia.
    destruct (Hsh ltac:(lia)) as (mrs & Hmrs & Hlo & _).
    exists mrs, (e + 1). split; [exact Hmrs|]. right.
    repeat split. exact Hlo.
  - exists (Build_shr_record m false false), e.
    split; [|left; repeat split; lia].
    apply Hno.
    destruct (Z.eq_dec m 0) as [->|Hm0]; [simpl; lia|].
    pose proof (Zdigits2_bounds m ltac:(lia)) as Hd.
    assert (Zdigits2 m <= 53); [|lia].
    destruct (Z_le_gt_dec (Zdigits2 m) 53) as [|Hgt]; [assumption|].
    assert (2 ^ 53 <= 2 ^ (Zdigits2 m - 1)) by (apply pow2_le; lia). lia.
Qed.

(** [binary_round_aux] on an exact positive input is a faithful
    rounding: the result is one of the two grid points around the input,
    and the input itself when it is on the grid. *)
Lemma binary_round_aux_faithful (mx ex : Z) :
  0 < mx -> - bias <= ex <= 971 ->
  exists cv lo e',
    ex <= e' /\ -1074 <= e' /\ 0 <= lo < 2 ^ 53
    /\ V lo e' <= V mx ex < V (lo + 1) e'
    /\ (cv = V lo e' \/ (cv = V (lo + 1) e' /\ V lo e' < V mx ex))
    /\ (V lo e' = V mx ex \/ e' = -1074 \/ 2 ^ 52 <= lo)
    /\ ((binary_round_aux prec emax false mx ex loc_Exact = S754_zero false
         /\ cv = 0)
        \/ (exists m e,
              binary_round_aux prec emax false mx ex loc_Exact
              = S754_finite false m e
              /\ V (Zpos m) e = cv)
        \/ (binary_round_aux prec emax false mx ex loc_Exact
            = S754_infinity false
            /\ 2 ^ (1024 + bias) <= cv)).
Proof.
  intros Hm Hex.
  destruct (first_shift mx ex Hm)
    as (mrs & e' & lo & Hs1 & Hlo & Hee & He' & Hlo53 & Hgrid & Hexact & Hreg).
  unfold binary_round_aux. rewrite Hs1. rewrite Hlo.
  assert (0 < 2 ^ (e' - ex)) as Hp by (apply pow2_pos; lia).
  assert (0 < 2 ^ (ex + bias)) as Hq by (apply pow2_pos; lia).
  assert (forall k, V k e' = k * 2 ^ (e' - ex) * 2 ^ (ex + bias)) as HV.
  { intros k. unfold V. replace (e' + bias) with ((e' - ex) + (ex + bias)) by lia.
    rewrite pow2_split by lia. ring. }
  assert (V lo e' <= V mx ex < V (lo + 1) e') as HVg.
  { rewrite !HV. unfold V. split.
    - apply Z.mul_le_mono_nonneg_r; lia.
    - apply Z.mul_lt_mono_pos_r; lia. }
  set (m2 := round_nearest_even lo (loc_of_shr_record mrs)).
  assert (m2 = lo \/ (m2 = lo + 1 /\ V lo e' < V mx ex)) as Hm2.
  { destruct (round_nearest_even_cases lo (loc_of_shr_record mrs)) as [H|[H Hl]];
      [left; exact H|right; split; [exact H|]].
    rewrite HV. unfold V. apply Z.mul_lt_mono_pos_r; [lia|].
    rewrite Hexact in Hl. lia. }
  assert (V lo e' = V mx ex \/ e' = -1074 \/ 2 ^ 52 <= lo) as Hreg'.
  { destruct Hreg as [->|[[H _]|H]]; auto.
    left. rewrite Z.sub_diag, Z.pow_0_r in Hgrid. f_equal. lia. }
  destruct (second_shift m2 e' ltac:(lia) He') as (mrs2 & e2 & Hs2 & Hcase).
  rewrite Hs2.
  exists (V m2 e'), lo, e'.
  split; [exact Hee|]. split; [exact He'|]. split; [exact Hlo53|].
  split; [exact HVg|].
  split; [destruct Hm2 as [->|[-> H]]; auto|].
  split; [exact Hreg'|].
  change (emax - prec) with 971.
  destruct Hcase as [(Hlt & -> & ->)|(E53 & -> & ->)].
  - destruct m2 as [|p|p] eqn:Ep; [left; split; reflexivity|right|lia].
    destruct (Z.leb_spec e' 971) as [Hle|Hgt].
    + left. exists p, e'. split; reflexivity.
    + right. split; [reflexivity|].
      assert (2 ^ 52 <= Zpos p) as Hbig by lia.
      unfold V.
      replace (1024 + bias) with (52 + (972 + bias)) by lia.
      rewrite pow2_split by (unfold bias; lia).
      assert (2 ^ (972 + bias) <= 2 ^ (e' + bias))
        by (apply pow2_le; unfold bias; lia).
      assert (0 < 2 ^ (972 + bias)) by (apply pow2_pos; unfold bias; lia).
      apply Z.mul_le_mono_nonneg; lia.
  - change (2 ^ 52) with (Zpos (2 ^ 52)%positive).
    destruct (Z.leb_spec (e' + 1) 971) as [Hle|Hgt]; right.
    + left. exists (2 ^ 52)%positive, (e' + 1). split; [reflexivity|].
      rewrite E53. unfold V.
      replace (e' + 1 + bias) with (1 + (e' + bias)) by lia.
      rewrite pow2_split by (unfold bias; lia).
      change (Zpos (2 ^ 52)) with (2 ^ 52). change (2 ^ 53) with (2 ^ 52 * 2 ^ 1).
      ring.
    + right. split; [reflexivity|].
      rewrite E53. unfold V.
      replace (1024 + bias) with (53 + (971 + bias)) by lia.
      rewrite pow2_split by (unfold bias; lia).
      assert (2 ^ (971 + bias) <= 2 ^ (e' + bias))
        by (apply pow2_le; unfold bias; lia).
      apply Z.mul_le_mono_nonneg_l; lia.
Qed.


(** Canonical finite numbers *)
Lemma bounded_inv (m : positive) (e : Z) :
  bounded prec emax m e = true ->
  -1074 <= e <= 971 /\ Zpos m < 2 ^ 53 /\ (e = -1074 \/ 2 ^ 52 <= Zpos m).
Proof.
  unfold bounded, canonical_mantissa. rewrite andb_true_iff, Z.eqb_eq, Z.leb_le.
  rewrite fexp_eq. change (emax - prec) with 971. intros [Hc He].
  pose proof (digits2_bounds m) as Hd.
  set (d := Zpos (digits2_pos m)) in *.
  destruct (Z_le_gt_dec (-1074) (d + e - 53)) as [Hn|Hs].
  - assert (d = 53) as E by lia. rewrite E in Hd. simpl in Hd.
    change (2 ^ 52) with 4503599627370496.
    change (2 ^ 53) with 9007199254740992. lia.
  - assert (2 ^ d <= 2 ^ 53) by (apply pow2_le; unfold d; lia). lia.
Qed.

Lemma V_mono (k l e : Z) : - bias <= e -> (k <= l <-> V k e <= V l e).
Proof.
  intros He. unfold V.
  assert (0 < 2 ^ (e + bias)) by (apply pow2_pos; lia).
  split; intros; nia.
Qed.

Lemma V_shift (m e e' : Z) :
  - bias <= e' <= e -> V m e = V (m * 2 ^ (e - e')) e'.
Proof.
  intros H. unfold V.
  replace (e + bias) with ((e - e') + (e' + bias)) by lia.
  rewrite pow2_split by lia. ring.
Qed.

(** Below a coarser binade every canonical number is smaller. *)
Lemma V_below (m : positive) (e lo e' : Z) :
  bounded prec emax m e = true -> e < e' -> 2 ^ 52 <= lo ->
  V (Zpos m) e < V lo e'.
Proof.
  intros Hb He Hlo. apply bounded_inv in Hb. destruct Hb as (Hr & Hm & _).
  rewrite (V_shift lo e' e) by (unfold bias; lia).
  unfold V. assert (0 < 2 ^ (e + bias)) by (apply pow2_pos; unfold bias; lia).
  apply Z.mul_lt_mono_pos_r; [assumption|].
  assert (2 ^ 1 <= 2 ^ (e' - e)) by (apply pow2_le; lia).
  change (2 ^ 1) with 2 in *.
  change (2 ^ 53) with (2 ^ 52 * 2) in Hm.
  assert (0 < 2 ^ 52) by (apply pow2_pos; lia). nia.
Qed.

(** No canonical number lies strictly between two neighbours of the grid. *)
Lemma grid_gap (m : positive) (e lo e' : Z) :
  bounded prec emax m e = true ->
  -1074 <= e' -> 0 <= lo -> (e' = -1074 \/ 2 ^ 52 <= lo) ->
  V lo e' < V (Zpos m) e -> V (lo + 1) e' <= V (Zpos m) e.
Proof.
  intros Hb He' Hlo Hreg Hlt.
  pose proof (bounded_inv m e Hb) as (Hr & Hm & _).
  destruct (Z_lt_ge_dec e e') as [Hee|Hee].
  - exfalso. destruct Hreg as [->|Hbig]; [lia|].
    pose proof (V_below m e lo e' Hb Hee Hbig). lia.
  - rewrite (V_shift (Zpos m) e e') in * by (unfold bias; lia).
    apply V_mono; [unfold bias; lia|].
    assert (lo < Zpos m * 2 ^ (e - e')); [|lia].
    destruct (Z_lt_ge_dec lo (Zpos m * 2 ^ (e - e'))) as [|Hge]; [assumption|].
    apply Z.ge_le in Hge. apply (V_mono _ _ e') in Hge; [lia|unfold bias; lia].
Qed.

Lemma SFcompare_finite (m1 m2 : positive) (e1 e2 : Z) :
  bounded prec emax m1 e1 = true -> bounded prec emax m2 e2 = true ->
  SFcompare (S754_finite false m1 e1) (S754_finite false m2 e2)
  = Some (V (Zpos m1) e1 ?= V (Zpos m2) e2).
Proof.
  intros H1 H2. unfold SFcompare.
  pose proof (bounded_inv _ _ H1) as (Hr1 & Hm1 & Hg1).
  pose proof (bounded_inv _ _ H2) as (Hr2 & Hm2 & Hg2).
  f_equal. destruct (Z.compare_spec e1 e2) as [->|Hlt|Hgt].
  - change (Pos.compare_cont Eq m1 m2) with (Zpos m1 ?= Zpos m2).
    unfold V. assert (0 < 2 ^ (e2 + bias)) by (apply pow2_pos; unfold bias; lia).
    destruct (Z.compare_spec (Zpos m1) (Zpos m2)) as [E|L|G]; symmetry.
    + rewrite E. apply Z.compare_refl.
    + apply Z.compare_lt_iff. nia.
    + apply Z.compare_gt_iff. nia.
  - symmetry. apply Z.compare_lt_iff.
    apply V_below; [assumption|assumption|lia].
  - symmetry. apply Z.compare_gt_iff.
    apply V_below; [assumption|assumption|lia].
Qed.


Lemma V_inj (m1 m2 : positive) (e1 e2 : Z) :
  bounded prec emax m1 e1 = true -> bounded prec emax m2 e2 = true ->
  V (Zpos m1) e1 = V (Zpos m2) e2 -> m1 = m2 /\ e1 = e2.
Proof.
  intros H1 H2 E.
  pose proof (bounded_inv _ _ H1) as (Hr1 & Hm1 & Hg1).
  pose proof (bounded_inv _ _ H2) as (Hr2 & Hm2 & Hg2).
  destruct (Z.lt_total e1 e2) as [L|[->|G]].
  - pose proof (V_below m1 e1 (Zpos m2) e2 H1 L ltac:(lia)). lia.
  - split; [|reflexivity].
    assert (Zpos m1 = Zpos m2) as Em; [|now injection Em].
    apply Z.le_antisymm; apply (V_mono _ _ e2); unfold bias; lia.
  - pose proof (V_below m2 e2 (Zpos m1) e1 H2 ltac:(lia) ltac:(lia)). lia.
Qed.

Lemma V_finite_lt (m : positive) (e : Z) :
  bounded prec emax m e = true -> 0 < V (Zpos m) e < 2 ^ (1024 + bias).
Proof.
  intros H. pose proof (bounded_inv _ _ H) as (Hr & Hm & _).
  unfold V. assert (0 < 2 ^ (e + bias)) by (apply pow2_pos; unfold bias; lia).
  split; [nia|].
  replace (1024 + bias) with (53 + (971 + bias)) by lia.
  rewrite (pow2_split 53 (971 + bias)) by (unfold bias; lia).
  assert (2 ^ (e + bias) <= 2 ^ (971 + bias)) by (apply pow2_le; unfold bias; lia).
  assert (0 < 2 ^ 53) by lia. nia.
Qed.

(** Rounding a positive exact value stays inside every pair of canonical
    numbers that enclose it. *)
Lemma round_between (mx ex : Z) (mh : positive) (eh : Z) :
  0 < mx -> - bias <= ex <= 971 ->
  bounded prec emax mh eh = true -> V mx ex <= V (Zpos mh) eh ->
  exists vr,
    reads (binary_round_aux prec emax false mx ex loc_Exact) vr
    /\ 0 <= vr <= V (Zpos mh) eh
    /\ forall (ml : positive) (el : Z),
         bounded prec emax ml el = true -> V (Zpos ml) el <= V mx ex ->
         V (Zpos ml) el <= vr.
Proof.
  intros Hm Hex Hh Hx.
  destruct (binary_round_aux_faithful mx ex Hm Hex)
    as (cv & lo & e' & Hee & He' & Hlo & Hg & Hcv & Hreg & Hres).
  assert (0 <= V lo e') as Hlo0.
  { unfold V. assert (0 < 2 ^ (e' + bias)) by (apply pow2_pos; unfold bias; lia).
    nia. }
  assert (cv <= V (Zpos mh) eh) as Hup.
  { destruct Hcv as [->|[-> Hne]]; [lia|].
    apply grid_gap; try assumption; try lia. }
  exists cv. split; [|split].
  - destruct Hres as [[-> ->]|[(m & e & -> & <-)|[_ Hinf]]].
    + left; split; reflexivity.
    + right. exists m, e. split; reflexivity.
    + pose proof (V_finite_lt mh eh Hh). lia.
  - destruct Hcv as [->|[-> _]]; lia.
  - intros ml el Hl Hle.
    assert (V (Zpos ml) el <= V lo e'); [|destruct Hcv as [->|[-> _]]; lia].
    destruct (Z_le_gt_dec (V (Zpos ml) el) (V lo e')) as [|Hgt]; [assumption|].
    destruct Hreg as [E|Hreg]; [lia|].
    pose proof (grid_gap ml el lo e' Hl He' (proj1 Hlo) Hreg ltac:(lia)). lia.
Qed.


(** Alignment keeps the value *)
Lemma iter_xO (m d : positive) : Zpos (Pos.iter xO m d) = Zpos m * 2 ^ Zpos d.
Proof.
  change (Pos.iter xO m d) with (shift_pos d m).
  rewrite shift_pos_correct. change (Zpower_pos 2 d) with (2 ^ Zpos d). ring.
Qed.

Lemma shl_align_spec (m : positive) (e e' : Z) :
  - bias <= Z.min e e' ->
  V (Zpos (fst (shl_align m e e'))) (snd (shl_align m e e')) = V (Zpos m) e
  /\ snd (shl_align m e e') = Z.min e e'.
Proof.
  intros Hb. unfold shl_align.
  destruct (e' - e) as [|d|d] eqn:E; simpl fst; simpl snd.
  - split; [reflexivity|lia].
  - split; [reflexivity|lia].
  - rewrite iter_xO. split; [|lia].
    rewrite (V_shift (Zpos m) e e') by lia.
    f_equal. f_equal. f_equal. lia.
Qed.

Lemma shl_align_fst (m : positive) (e ez : Z) :
  - bias <= ez <= e ->
  V (Zpos (fst (shl_align m e ez))) ez = V (Zpos m) e.
Proof.
  intros H. destruct (shl_align_spec m e ez ltac:(lia)) as [Hv Hs].
  rewrite Hs in Hv. now replace (Z.min e ez) with ez in Hv by lia.
Qed.

Lemma V_add (k l e : Z) : V (k + l) e = V k e + V l e.
Proof. unfold V. ring. Qed.

Lemma V_sub (k l e : Z) : V (k - l) e = V k e - V l e.
Proof. unfold V. ring. Qed.

Lemma V_pos_inv (k e : Z) : - bias <= e -> 0 < V k e -> 0 < k.
Proof.
  intros He H. unfold V in H.
  assert (0 < 2 ^ (e + bias)) by (apply pow2_pos; lia). nia.
Qed.

Lemma normalize_between (p mh : positive) (ez eh : Z) :
  -1074 <= ez <= 971 ->
  bounded prec emax mh eh = true -> V (Zpos p) ez <= V (Zpos mh) eh ->
  exists vr,
    reads (binary_normalize prec emax (Zpos p) ez false) vr
    /\ 0 <= vr <= V (Zpos mh) eh
    /\ forall (ml : positive) (el : Z),
         bounded prec emax ml el = true -> V (Zpos ml) el <= V (Zpos p) ez ->
         V (Zpos ml) el <= vr.
Proof.
  intros Hez Hh Hx. unfold binary_normalize, binary_round.
  pose proof (shl_align_spec p ez (fexp prec emax (Zpos (digits2_pos p) + ez)))
    as Hal.
  rewrite fexp_eq in *.
  destruct (shl_align p ez (Z.max (Zpos (digits2_pos p) + ez - 53) (-1074)))
    as [mz ez'].
  simpl fst in Hal; simpl snd in Hal.
  destruct Hal as [Hv He]; [unfold bias; lia|].
  rewrite <- Hv in *.
  apply round_between; try assumption; unfold bias; lia.
Qed.

Lemma SFsub_between (m1 m2 mh : positive) (e1 e2 eh : Z) :
  bounded prec emax m1 e1 = true -> bounded prec emax m2 e2 = true ->
  V (Zpos m2) e2 < V (Zpos m1) e1 ->
  bounded prec emax mh eh = true ->
  V (Zpos m1) e1 - V (Zpos m2) e2 <= V (Zpos mh) eh ->
  exists vr,
    reads (SF64sub (fin m1 e1) (fin m2 e2)) vr
    /\ 0 <= vr <= V (Zpos mh) eh
    /\ forall (ml : positive) (el : Z),
         bounded prec emax ml el = true ->
         V (Zpos ml) el <= V (Zpos m1) e1 - V (Zpos m2) e2 ->
         V (Zpos ml) el <= vr.
Proof.
  intros H1 H2 Hlt Hh Hx.
  pose proof (bounded_inv _ _ H1) as (Hr1 & _).
  pose proof (bounded_inv _ _ H2) as (Hr2 & _).
  unfold SF64sub, fin, SFsub, cond_Zopp.
  set (ez := Z.min e1 e2).
  pose proof (shl_align_fst m1 e1 ez ltac:(unfold bias; lia)) as A1.
  pose proof (shl_align_fst m2 e2 ez ltac:(unfold bias; lia)) as A2.
  set (a1 := Zpos (fst (shl_align m1 e1 ez))) in *.
  set (a2 := Zpos (fst (shl_align m2 e2 ez))) in *.
  assert (V (a1 - a2) ez = V (Zpos m1) e1 - V (Zpos m2) e2) as E
      by (rewrite V_sub; lia).
  assert (0 < a1 - a2) as Hp
      by (apply (V_pos_inv _ ez); [unfold bias; lia|lia]).
  destruct (a1 - a2) as [|p|p] eqn:Ep; try lia.
  rewrite <- E in *.
  apply normalize_between; try assumption; lia.
Qed.

Lemma SFadd_between (m1 m2 mh : positive) (e1 e2 eh : Z) :
  bounded prec emax m1 e1 = true -> bounded prec emax m2 e2 = true ->
  bounded prec emax mh eh = true ->
  V (Zpos m1) e1 + V (Zpos m2) e2 <= V (Zpos mh) eh ->
  exists vr,
    reads (SF64add (fin m1 e1) (fin m2 e2)) vr
    /\ 0 <= vr <= V (Zpos mh) eh
    /\ forall (ml : positive) (el : Z),
         bounded prec emax ml el = true ->
         V (Zpos ml) el <= V (Zpos m1) e1 + V (Zpos m2) e2 ->
         V (Zpos ml) el <= vr.
Proof.
  intros H1 H2 Hh Hx.
  pose proof (bounded_inv _ _ H1) as (Hr1 & _).
  pose proof (bounded_inv _ _ H2) as (Hr2 & _).
  unfold SF64add, fin, SFadd, cond_Zopp.
  set (ez := Z.min e1 e2).
  pose proof (shl_align_fst m1 e1 ez ltac:(unfold bias; lia)) as A1.
  pose proof (shl_align_fst m2 e2 ez ltac:(unfold bias; lia)) as A2.
  set (a1 := fst (shl_align m1 e1 ez)) in *.
  set (a2 := fst (shl_align m2 e2 ez)) in *.
  assert (V (Zpos a1 + Zpos a2) ez = V (Zpos m1) e1 + V (Zpos m2) e2) as E
      by (rewrite V_add; lia).
  change (Zpos a1 + Zpos a2) with (Zpos (a1 + a2)) in *.
  rewrite <- E in *.
  apply normalize_between; try assumption; lia.
Qed.

Lemma SFmul_between (m1 m2 mh : positive) (e1 e2 eh : Z) :
  bounded prec emax m1 e1 = true -> bounded prec emax m2 e2 = true ->
  e1 + e2 <= 971 ->
  bounded prec emax mh eh = true ->
  V (Zpos m1 * Zpos m2) (e1 + e2) <= V (Zpos mh) eh ->
  exists vr,
    reads (SF64mul (fin m1 e1) (fin m2 e2)) vr
    /\ 0 <= vr <= V (Zpos mh) eh
    /\ forall (ml : positive) (el : Z),
         bounded prec emax ml el = true ->
         V (Zpos ml) el <= V (Zpos m1 * Zpos m2) (e1 + e2) ->
         V (Zpos ml) el <= vr.
Proof.
  intros H1 H2 He Hh Hx.
  pose proof (bounded_inv _ _ H1) as (Hr1 & _).
  pose proof (bounded_inv _ _ H2) as (Hr2 & _).
  unfold SF64mul, fin, SFmul. simpl xorb.
  change (Zpos (m1 * m2)) with (Zpos m1 * Zpos m2).
  apply round_between; try assumption; unfold bias; lia.
Qed.


(** ** From the reference semantics to the primitive numbers *)

Lemma SFcompare_refl (f : spec_float) :
  f <> S754_nan -> SFcompare f f = Some Eq.
Proof.
  destruct f as [[|]|[|]| |[|] m e]; simpl; intros H; try reflexivity;
    try congruence;
    now rewrite Z.compare_refl, Pos.compare_cont_refl.
Qed.

Lemma is_nan_spec (x : float) : is_nan x = true <-> Prim2SF x = S754_nan.
Proof.
  unfold is_nan. rewrite eqb_spec. unfold SFeqb. split.
  - intros H. destruct (Prim2SF x) eqn:E; try reflexivity;
      rewrite SFcompare_refl in H by discriminate; discriminate.
  - intros ->. reflexivity.
Qed.

Lemma prim_bounded (x : float) (sg : bool) (m : positive) (e : Z) :
  Prim2SF x = S754_finite sg m e -> bounded prec emax m e = true.
Proof. intros E. pose proof (Prim2SF_valid x) as H. now rewrite E in H. Qed.

Lemma leb_of_values (x y : float) (mx my : positive) (ex ey : Z) :
  Prim2SF x = fin mx ex -> Prim2SF y = fin my ey ->
  V (Zpos mx) ex <= V (Zpos my) ey -> (x <=? y)%float = true.
Proof.
  intros Ex Ey H. rewrite leb_spec, Ex, Ey. unfold SFleb, fin.
  rewrite SFcompare_finite by (eapply prim_bounded; eassumption).
  destruct (Z.compare_spec (V (Zpos mx) ex) (V (Zpos my) ey)); auto; lia.
Qed.

(** The constants of [markerStyle] *)
Lemma SF_one : Prim2SF 1 = fin 4503599627370496 (-52).
Proof. reflexivity. Qed.

Lemma SF_0_8 : Prim2SF 0.80 = fin 7205759403792794 (-53).
Proof. reflexivity. Qed.

Lemma SF_0_1 : Prim2SF 0.10 = fin 7205759403792794 (-56).
Proof. reflexivity. Qed.

Lemma SF_0_9 : Prim2SF 0.90 = fin 8106479329266893 (-53).
Proof. reflexivity. Qed.

Lemma SF_5 : Prim2SF 5 = fin 5629499534213120 (-50).
Proof. reflexivity. Qed.

Lemma SF_10 : Prim2SF 10 = fin 5629499534213120 (-49).
Proof. reflexivity. Qed.

Lemma SF_15 : Prim2SF 15 = fin 8444249301319680 (-49).
Proof. reflexivity. Qed.

Lemma V_one : V 4503599627370496 (-52) = 2 ^ bias.
Proof. vm_compute. reflexivity. Qed.

Lemma V_scale (m k e ek : Z) :
  - bias <= e -> - bias <= ek -> - bias <= e + ek ->
  V (m * k) (e + ek) * 2 ^ bias = V m e * V k ek.
Proof.
  intros He Hk Hs. unfold V.
  assert (2 ^ (e + ek + bias) * 2 ^ bias = 2 ^ (e + bias) * 2 ^ (ek + bias)) as E.
  { rewrite <- !pow2_split by (unfold bias in *; lia). f_equal. lia. }
  rewrite <- Z.mul_assoc, E. ring.
Qed.

Lemma reads_prim (x : float) (v : Z) :
  reads (Prim2SF x) v ->
  (Prim2SF x = S754_zero false /\ v = 0)
  \/ (exists m e,
        Prim2SF x = fin m e /\ bounded prec emax m e = true
        /\ v = V (Zpos m) e /\ 0 < v).
Proof.
  intros [H|(m & e & E & ->)]; [now left|right].
  exists m, e. pose proof (prim_bounded x false m e E) as Hb.
  repeat split; try assumption. now apply V_finite_lt.
Qed.

(** [t * K] for [t] in [0,1] and a positive constant [K] stays in [0,K]. *)
Lemma mul_reads (t K : float) (vt : Z) (mk : positive) (ek : Z) :
  reads (Prim2SF t) vt -> vt <= 2 ^ bias -> Prim2SF K = fin mk ek ->
  exists vu, reads (Prim2SF (t * K)) vu /\ vu <= V (Zpos mk) ek.
Proof.
  intros Ht Hle EK.
  pose proof (prim_bounded K false mk ek EK) as HbK.
  pose proof (bounded_inv _ _ HbK) as (HrK & _).
  rewrite mul_spec, EK.
  destruct (reads_prim t vt Ht) as [[E ->]|(m & e & E & Hb & -> & Hpos)];
    rewrite E.
  - exists 0. split; [left; split; reflexivity|].
    pose proof (V_finite_lt _ _ HbK). lia.
  - pose proof (bounded_inv _ _ Hb) as (Hr & _).
    assert (e <= 0) as He0.
    { destruct (Z_le_gt_dec e 0) as [|Hgt]; [assumption|exfalso].
      assert (2 ^ bias < 2 ^ (e + bias))
        by (apply Z.pow_lt_mono_r; unfold bias; lia).
      unfold V in Hle. nia. }
    destruct (SFmul_between m mk mk e ek ek Hb HbK ltac:(lia) HbK)
      as (vu & Hu & Hbd & _).
    + pose proof (V_scale (Zpos m) (Zpos mk) e ek
                    ltac:(unfold bias; lia) ltac:(unfold bias; lia)
                    ltac:(unfold bias; lia)) as Hs.
      assert (0 < 2 ^ bias) by (apply pow2_pos; unfold bias; lia).
      pose proof (V_finite_lt _ _ HbK). nia.
    + exists vu. split; [exact Hu|lia].
Qed.

(** [A + u] for [u] in [0,K] stays between [A] and a representable
    bound of [A + K]. *)
Lemma add_reads (A u S : float) (vu : Z) (ma ms : positive) (ea es : Z) :
  Prim2SF A = fin ma ea -> Prim2SF S = fin ms es ->
  reads (Prim2SF u) vu -> V (Zpos ma) ea + vu <= V (Zpos ms) es ->
  (A <=? A + u)%float = true /\ (A + u <=? S)%float = true.
Proof.
  intros EA ES Hu Hle.
  pose proof (prim_bounded A false ma ea EA) as HbA.
  pose proof (prim_bounded S false ms es ES) as HbS.
  destruct (reads_prim u vu Hu) as [[E ->]|(m & e & E & Hb & -> & Hpos)].
  - assert (Prim2SF (A + u) = fin ma ea) as Er
        by (rewrite add_spec, EA, E; reflexivity).
    split; eapply leb_of_values; eauto; lia.
  - destruct (SFadd_between ma m ms ea e es HbA Hb HbS Hle)
      as (vr & Hr & Hbd & Hlow).
    rewrite <- EA, <- E, <- add_spec in Hr.
    specialize (Hlow ma ea HbA ltac:(lia)).
    pose proof (V_finite_lt _ _ HbA).
    destruct (reads_prim _ _ Hr) as [[_ ->]|(mr & er & Er & _ & -> & _)];
      [lia|].
    split; eapply leb_of_values; eauto; lia.
Qed.

(** ** [clamp] and the division by [maxD] *)

Lemma clamp_unit_cases (q : float) :
  is_nan q = false ->
  clamp q 0 1 = 0%float \/ clamp q 0 1 = 1%float
  \/ (clamp q 0 1 = q /\ (0 <? q)%float = true /\ (q <? 1)%float = true).
Proof.
  intros Hq. unfold clamp, Math_min, Math_max.
  cbn [existsb]. rewrite Hq.
  change (is_nan 1) with false. change (is_nan 0) with false.
  cbn [orb fold_left].
  change (is_neg_zero 1) with false. change (1 <? infinity)%float with true.
  change (is_pos_zero 1) with false.
  cbn [andb orb]. rewrite andb_false_r. cbn [orb].
  destruct (q <? 1)%float eqn:Hq1.
  - rewrite Hq. cbn [orb fold_left].
    change (is_pos_zero 0) with true. change (is_neg_zero neg_infinity) with false.
    change (neg_infinity <? 0)%float with true. cbn [andb orb].
    change (is_neg_zero 0) with false. rewrite andb_false_r. cbn [orb].
    destruct (0 <? q)%float eqn:Hq0; auto.
  - right. left. reflexivity.
Qed.

Lemma shr_nonneg (mrs : shr_record) (e n : Z) :
  0 <= shr_m mrs -> 0 <= shr_m (fst (shr mrs e n)).
Proof.
  intros H. unfold shr. destruct n as [|p|p]; simpl fst; try assumption.
  destruct (iter_shr_1 p mrs H) as [-> _]. apply Z.div_pos; [assumption|].
  apply pow2_pos; lia.
Qed.

Lemma shr_fexp_nonneg (m e : Z) (l : location) :
  0 <= m -> 0 <= shr_m (fst (shr_fexp prec emax m e l)).
Proof.
  intros H. unfold shr_fexp. apply shr_nonneg.
  destruct l as [|[| |]]; exact H.
Qed.

Lemma binary_round_aux_not_nan (sg : bool) (m e : Z) (l : location) :
  0 <= m -> binary_round_aux prec emax sg m e l <> S754_nan.
Proof.
  intros H. unfold binary_round_aux.
  pose proof (shr_fexp_nonneg m e l H) as H1.
  destruct (shr_fexp prec emax m e l) as [mrs1 e1]. simpl fst in H1.
  assert (0 <= round_nearest_even (shr_m mrs1) (loc_of_shr_record mrs1)) as H2.
  { destruct (round_nearest_even_cases (shr_m mrs1) (loc_of_shr_record mrs1))
      as [->|[-> _]]; lia. }
  pose proof (shr_fexp_nonneg _ e1 loc_Exact H2) as H3.
  destruct (shr_fexp prec emax _ e1 loc_Exact) as [mrs2 e2]. simpl fst in H3.
  destruct (shr_m mrs2) as [|p|p]; try lia; try discriminate.
  destruct (e2 <=? emax - prec); discriminate.
Qed.

Lemma SFdiv_not_nan (f : spec_float) (mk : positive) (ek : Z) :
  f <> S754_nan -> SF64div f (fin mk ek) <> S754_nan.
Proof.
  intros Hf. unfold SF64div, fin.
  destruct f as [sg|sg| |sg m e]; simpl; try discriminate; try congruence.
  unfold SFdiv_core_binary.
  set (m' := match _ - _ - _ with
             | 0 => Zpos m | Zpos _ => Z.shiftl (Zpos m) _ | Zneg _ => 0 end).
  assert (0 <= m') as Hm'.
  { unfold m'. destruct (_ - _ - _); try lia.
    apply Z.shiftl_nonneg. lia. }
  destruct (Z.div_eucl m' (Zpos mk)) as [q r] eqn:E.
  assert (q = m' / Zpos mk) as -> by (unfold Z.div; now rewrite E).
  apply binary_round_aux_not_nan. apply Z.div_pos; lia.
Qed.

Lemma is_nan_false (x : float) : is_nan x = false <-> Prim2SF x <> S754_nan.
Proof.
  rewrite <- is_nan_spec. destruct (is_nan x); split; congruence.
Qed.

Lemma div_not_nan (d K : float) (mk : positive) (ek : Z) :
  Prim2SF K = fin mk ek -> is_nan d = false -> is_nan (d / K) = false.
Proof.
  intros EK Hd. apply is_nan_false. rewrite div_spec, EK.
  apply SFdiv_not_nan. now apply is_nan_false.
Qed.

Lemma maxD_finite (m : Mode) : exists mk ek, Prim2SF (maxD m) = fin mk ek.
Proof. destruct m; eexists; eexists; reflexivity. Qed.

(** ** The weights of [markerStyle] *)

Lemma unit_interior (q : float) :
  (0 <? q)%float = true -> (q <? 1)%float = true ->
  exists m e,
    Prim2SF q = fin m e /\ bounded prec emax m e = true
    /\ V (Zpos m) e < 2 ^ bias.
Proof.
  rewrite !ltb_spec, SF_one. change (Prim2SF 0) with (S754_zero false).
  unfold SFltb, fin. intros H0 H1.
  destruct (Prim2SF q) as [sg|sg| |sg m e] eqn:E; simpl in H0;
    try discriminate; try (destruct sg; discriminate).
  destruct sg; [discriminate|].
  pose proof (prim_bounded q false m e E) as Hb.
  rewrite SFcompare_finite in H1 by (assumption || reflexivity).
  exists m, e. repeat split; try assumption.
  rewrite V_one in H1.
  destruct (Z.compare_spec (V (Zpos m) e) (2 ^ bias)); try discriminate.
  assumption.
Qed.

(** The local [t] is [+0] or a positive number up to 1. *)
Lemma fade_unit (m : Mode) (dist : float) :
  is_nan dist = false ->
  exists vt, reads (Prim2SF (fade m dist)) vt /\ vt <= 2 ^ bias.
Proof.
  intros Hd. unfold fade.
  destruct (maxD_finite m) as (mk & ek & EK).
  pose proof (div_not_nan dist (maxD m) mk ek EK Hd) as Hq.
  destruct (clamp_unit_cases _ Hq) as [->|[->|(-> & H0 & H1)]].
  - exists (2 ^ bias). split; [|lia]. right.
    exists 4503599627370496%positive, (-52). split; [reflexivity|].
    symmetry. exact V_one.
  - exists 0. split; [left; split; reflexivity|].
    apply Z.lt_le_incl, pow2_pos. unfold bias; lia.
  - destruct (unit_interior _ H0 H1) as (mq & eq & Eq & Hb & Hlt).
    destruct (SFsub_between 4503599627370496 mq 4503599627370496 (-52) eq (-52))
      as (vr & Hr & Hbd & _); try reflexivity; try assumption.
    + pose proof (V_finite_lt _ _ Hb). lia.
    + exists vr. rewrite sub_spec, SF_one, Eq.
      split; [exact Hr|]. rewrite V_one in Hbd. lia.
Qed.

Lemma unit_leb (t : float) (vt : Z) :
  reads (Prim2SF t) vt -> vt <= 2 ^ bias ->
  (0 <=? t)%float = true /\ (t <=? 1)%float = true.
Proof.
  intros Ht Hle. rewrite !leb_spec, SF_one.
  change (Prim2SF 0) with (S754_zero false).
  destruct (reads_prim t vt Ht) as [[E ->]|(m & e & E & Hb & -> & Hpos)];
    rewrite E; [split; reflexivity|].
  split; [reflexivity|]. unfold SFleb, fin.
  rewrite SFcompare_finite by (assumption || reflexivity).
  rewrite V_one.
  destruct (Z.compare_spec (V (Zpos m) e) (2 ^ bias)); auto; lia.
Qed.

Lemma radius_bounds (t : float) (vt : Z) :
  reads (Prim2SF t) vt -> vt <= 2 ^ bias ->
  (5 <=? 5 + t * 10)%float = true /\ (5 + t * 10 <=? 15)%float = true.
Proof.
  intros Ht Hle.
  destruct (mul_reads t 10 vt _ _ Ht Hle SF_10) as (vv & Hv & Hvle).
  apply (add_reads 5 (t * 10) 15 vv _ _ _ _ SF_5 SF_15 Hv).
  assert (V 5629499534213120 (-50) + V 5629499534213120 (-49)
          = V 8444249301319680 (-49)) as E by (vm_compute; reflexivity).
  lia.
Qed.

Lemma opacity_bounds (t : float) (vt : Z) :
  reads (Prim2SF t) vt -> vt <= 2 ^ bias ->
  (0.10 <=? 0.10 + t * 0.80)%float = true
  /\ (0.10 + t * 0.80 <=? 0.90)%float = true.
Proof.
  intros Ht Hle.
  destruct (mul_reads t 0.80 vt _ _ Ht Hle SF_0_8) as (vu & Hu & Hule).
  assert (vu = V 7205759403792794 (-53)
          \/ vu <= V 7205759403792793 (-53)) as [->|Hlt].
  { destruct (reads_prim _ _ Hu) as [[_ ->]|(m & e & E & Hb & -> & Hpos)].
    - right. vm_compute. discriminate.
    - destruct (Z_le_gt_dec (V (Zpos m) e) (V 7205759403792793 (-53)))
        as [|Hgt]; [now right|left].
      pose proof (grid_gap m e 7205759403792793 (-53) Hb ltac:(lia) ltac:(lia)
                    ltac:(right; vm_compute; discriminate) ltac:(lia)) as Hg.
      change (7205759403792793 + 1) with 7205759403792794 in Hg. lia. }
  - destruct (reads_prim _ _ Hu) as [[_ E0]|(m & e & E & Hb & Ev & _)].
    { exfalso. revert E0. vm_compute. discriminate. }
    apply V_inj in Ev; [|reflexivity|assumption]. destruct Ev as [<- <-].
    assert ((t * 0.80)%float = 0.80%float) as ->
        by (apply Prim2SF_inj; rewrite E; reflexivity).
    split; reflexivity.
  - apply (add_reads 0.10 (t * 0.80) 0.90 vu _ _ _ _ SF_0_1 SF_0_9 Hu).
    assert (V 7205759403792794 (-56) + V 7205759403792793 (-53)
            <= V 8106479329266893 (-53)) as E
        by (vm_compute; discriminate).
    lia.
Qed.

(** C7, as stated, fails: the weights are not in range for every viewer
    location and spot.  For the viewer and the spot of [antipodal], both
    valid coordinates, sine and cosine rounded to nearest make the
    argument of [Math.asin] exceed 1 by one unit in the last place, the
    distance is [NaN], and so are opacity and radius, which therefore
    lie in neither interval. *)
Lemma antipodal_weights_nan :
  let style :=
    markerStyle table_sin table_cos table_asin table_pow antipodal
      antipodal_spot in
  is_nan (d style) = true
  /\ is_nan (opacity style) = true /\ is_nan (radius style) = true
  /\ (0.10 <=? opacity style)%float = false
  /\ (opacity style <=? 0.90)%float = false
  /\ (5 <=? radius style)%float = false
  /\ (radius style <=? 15)%float = false.
Proof. vm_compute. repeat split. Qed.

(** C7 (amended): with [d] the distance [markerStyle] computes,
    whenever [d] is a number, [t = 1 - clamp(d / maxD, 0, 1)] with [maxD] 2000 in mode
    wide and 600 in the other two modes, [opacity = 0.10 + t * 0.80]
    lies in [0.10, 0.90] and [radius = 5 + t * 10] lies in [5, 15]; at
    300 m in mode near, [t] is 0.5, the opacity 0.5 and the radius 10. *)
Theorem markerStyle_weights
        (Math_sin Math_cos Math_asin : float -> float)
        (Math_pow : float -> float -> float) (st : State) (sp : Spot) :
  let style := markerStyle Math_sin Math_cos Math_asin Math_pow st sp in
  let t := fade (mode st) (d style) in
  is_nan (d style) = false ->
  (d style
   = distanceMeters Math_sin Math_cos Math_asin Math_pow
       (me_lat (me st)) (me_lng (me st)) (lat sp) (lng sp)
   /\ t = (1 - clamp (d style / maxD (mode st)) 0 1)%float
   /\ opacity style = (0.10 + t * 0.80)%float
   /\ radius style = (5 + t * 10)%float)
  /\ (maxD wide = 2000%float /\ maxD near = 600%float
      /\ maxD mode_3m = 600%float)
  /\ ((0 <=? t)%float = true /\ (t <=? 1)%float = true)
  /\ ((0.10 <=? opacity style)%float = true
      /\ (opacity style <=? 0.90)%float = true)
  /\ ((5 <=? radius style)%float = true
      /\ (radius style <=? 15)%float = true)
  /\ (mode st = near -> d style = 300%float ->
      t = 0.5%float /\ opacity style = 0.5%float /\ radius style = 10%float).
Proof.
  intros style t Hd.
  destruct (fade_unit (mode st) (d style) Hd) as (vt & Ht & Hle).
  fold t in Ht.
  split; [repeat split|].
  split; [repeat split|].
  split; [exact (unit_leb t vt Ht Hle)|].
  split; [exact (opacity_bounds t vt Ht Hle)|].
  split; [exact (radius_bounds t vt Ht Hle)|].
  intros Hm H300.
  assert (t = 0.5%float) as Et by (unfold t; rewrite Hm, H300; reflexivity).
  split; [exact Et|].
  change (opacity style) with (0.10 + t * 0.80)%float.
  change (radius style) with (5 + t * 10)%float.
  rewrite Et. split; reflexivity.
Qed.

Lemma markerStyle_weights_witness :
  let style :=
    markerStyle flat_sin flat_cos flat_asin flat_pow nearby nearby_spot in
  ((0.10 <=? opacity style)%float = true
   /\ (opacity style <=? 0.90)%float = true)
  /\ ((5 <=? radius style)%float = true
      /\ (radius style <=? 15)%float = true).
Proof.
  intros style.
  destruct (markerStyle_weights flat_sin flat_cos flat_asin flat_pow nearby
              nearby_spot)
    as (_ & _ & _ & Ho & Hr & _).
  - vm_compute. reflexivity.
  - split; [exact Ho | exact Hr].
Defined.

(** * Further properties of the code *)

(** ** Selection *)

Lemma ranked_perm (st : State) : Permutation (ranked st) (spots st).
Proof. apply sort_perm. Qed.

Lemma filter_perm {A : Type} (p : A -> bool) (l m : list A) :
  Permutation l m -> Permutation (filter p l) (filter p m).
Proof.
  induction 1; simpl.
  - constructor.
  - destruct (p x); [now constructor|assumption].
  - destruct (p x), (p y); try reflexivity. apply perm_swap.
  - etransitivity; eassumption.
Qed.

Lemma filter_split_perm {A : Type} (p : A -> bool) (l : list A) :
  Permutation (filter p l ++ filter (fun a => negb (p a)) l) l.
Proof.
  induction l as [|x l IH]; simpl; [constructor|].
  destruct (p x); simpl.
  - now constructor.
  - apply Permutation_sym, Permutation_cons_app. now apply Permutation_sym.
Qed.

Lemma visibleSpots_sub (st : State) :
  exists rest : list Spot, Permutation (visibleSpots st ++ rest) (spots st).
Proof.
  destruct (mode st) eqn:Em.
  - exists []. rewrite app_nil_r. unfold visibleSpots. rewrite Em. reflexivity.
  - assert (mode st <> wide) as Hm by (rewrite Em; discriminate).
    rewrite (visibleSpots_ranked st Hm).
    set (p := fun sp => threshold st <=? affinity (myMbti st) sp).
    exists (skipn (cap (mode st)) (filter p (ranked st))
            ++ filter (fun a => negb (p a)) (ranked st)).
    rewrite app_assoc, firstn_skipn, filter_split_perm. apply ranked_perm.
  - assert (mode st <> wide) as Hm by (rewrite Em; discriminate).
    rewrite (visibleSpots_ranked st Hm).
    set (p := fun sp => threshold st <=? affinity (myMbti st) sp).
    exists (skipn (cap (mode st)) (filter p (ranked st))
            ++ filter (fun a => negb (p a)) (ranked st)).
    rewrite app_assoc, firstn_skipn, filter_split_perm. apply ranked_perm.
Qed.

(** X: whatever the mode, the spots returned are spots of the input,
    each at most as often as it occurs there; so spot ids that are
    unique in the input stay unique in the result. *)
Theorem visibleSpots_from_input (st : State) :
  (exists rest : list Spot, Permutation (visibleSpots st ++ rest) (spots st))
  /\ incl (visibleSpots st) (spots st)
  /\ (NoDup (map id (spots st)) -> NoDup (map id (visibleSpots st))).
Proof.
  destruct (visibleSpots_sub st) as [rest Hp].
  split; [now exists rest|]. split.
  - intros sp Hin. apply (Permutation_in _ Hp). apply in_or_app. now left.
  - intros Hnd.
    apply (Permutation_map id), Permutation_sym in Hp.
    apply (Permutation_NoDup Hp) in Hnd.
    rewrite map_app in Hnd. now apply NoDup_app_remove_r in Hnd.
Qed.

Lemma StronglySorted_app_inv {A : Type} (R : A -> A -> Prop) (l m : list A) :
  StronglySorted R (l ++ m) ->
  forall x y, In x l -> In y m -> R x y.
Proof.
  induction l as [|a l IH]; simpl; intros H x y Hx Hy; [destruct Hx|].
  apply StronglySorted_inv in H. destruct H as [Hs Ha].
  destruct Hx as [<-|Hx].
  - rewrite Forall_forall in Ha. apply Ha. apply in_or_app. now right.
  - now apply IH.
Qed.

(** X: in a ranked mode the result is a best selection: together with
    the spots left out it makes up the input spots that reach the
    threshold, no spot left out has a higher affinity than a spot
    returned, and spots are left out only when the cap is reached. *)
Theorem visibleSpots_best (st : State) :
  mode st <> wide ->
  exists rest : list Spot,
    Permutation (visibleSpots st ++ rest)
      (filter (fun sp => threshold st <=? affinity (myMbti st) sp) (spots st))
    /\ (forall x y, In x (visibleSpots st) -> In y rest ->
                    affinity (myMbti st) y <= affinity (myMbti st) x)
    /\ (rest = [] \/ List.length (visibleSpots st) = cap (mode st))
    /\ List.length (visibleSpots st)
       = Nat.min (cap (mode st))
           (List.length
              (filter (fun sp => threshold st <=? affinity (myMbti st) sp)
                 (spots st))).
Proof.
  intros Hm. rewrite (visibleSpots_ranked st Hm).
  set (p := fun sp => threshold st <=? affinity (myMbti st) sp).
  set (F := filter p (ranked st)).
  exists (skipn (cap (mode st)) F).
  split; [|split; [|split]].
  - rewrite firstn_skipn. apply filter_perm, ranked_perm.
  - intros x y Hx Hy.
    assert (StronglySorted (desc (affinity (myMbti st))) F) as Hs
        by apply StronglySorted_filter, ranked_sorted.
    rewrite <- (firstn_skipn (cap (mode st)) F) in Hs.
    exact (StronglySorted_app_inv _ _ _ Hs x y Hx Hy).
  - destruct (Nat.le_gt_cases (List.length F) (cap (mode st))) as [Hle|Hgt].
    + left. now apply skipn_all2.
    + right. rewrite length_firstn. lia.
  - rewrite length_firstn. unfold F.
    now rewrite (filter_perm_length p _ _ (ranked_perm st)).
Qed.

Lemma visibleSpots_best_witness :
  exists rest : list Spot,
    Permutation (visibleSpots crowd ++ rest)
      (filter (fun sp => threshold crowd <=? affinity (myMbti crowd) sp)
         (spots crowd))
    /\ (forall x y, In x (visibleSpots crowd) -> In y rest ->
                    affinity (myMbti crowd) y <= affinity (myMbti crowd) x)
    /\ (rest = [] \/ List.length (visibleSpots crowd) = cap (mode crowd))
    /\ List.length (visibleSpots crowd)
       = Nat.min (cap (mode crowd))
           (List.length
              (filter (fun sp => threshold crowd <=? affinity (myMbti crowd) sp)
                 (spots crowd))).
Proof. apply (visibleSpots_best crowd). simpl; discriminate. Defined.


Lemma filter_nil_in {A : Type} (p : A -> bool) (l : list A) :
  (forall y, In y l -> p y = false) -> filter p l = [].
Proof.
  induction l as [|x l IH]; intros H; [reflexivity|]. simpl.
  rewrite (H x (or_introl eq_refl)). apply IH. intros y Hy. apply H. now right.
Qed.


Lemma sorted_levels {A : Type} (key : A -> Z) (l : list A) :
  StronglySorted (desc key) l ->
  Forall (fun x => 2 <= key x <= 4) l ->
  l = filter (fun x => key x =? 4) l
      ++ filter (fun x => key x =? 3) l
      ++ filter (fun x => key x =? 2) l.
Proof.
  induction 1 as [|x l Hs IH Hx]; intros Hr; [reflexivity|].
  apply Forall_cons_iff in Hr. destruct Hr as [Hkx Hr].
  specialize (IH Hr). simpl.
  assert (forall k, key x < k -> filter (fun y => key y =? k) l = []) as Hnone.
  { intros k Hk. apply filter_nil_in. intros y Hy.
    rewrite Forall_forall in Hx. specialize (Hx y Hy). unfold desc in Hx.
    apply Z.eqb_neq. lia. }
  destruct (Z.eqb_spec (key x) 4) as [E4|N4].
  - destruct (Z.eqb_spec (key x) 3); [lia|].
    destruct (Z.eqb_spec (key x) 2); [lia|].
    simpl. f_equal. exact IH.
  - destruct (Z.eqb_spec (key x) 3) as [E3|N3].
    + destruct (Z.eqb_spec (key x) 2); [lia|].
      rewrite (Hnone 4) in * by lia. simpl in *. f_equal. exact IH.
    + destruct (Z.eqb_spec (key x) 2) as [E2|N2]; [|lia].
      rewrite (Hnone 4), (Hnone 3) in * by lia. simpl in *. f_equal. exact IH.
Qed.

(** X: in a ranked mode the result is read off the input directly: the
    spots of affinity 4 in input order, then those of affinity 3, then,
    when fewer than ten spots reach affinity 3, those of affinity 2;
    cut at the cap. *)
Theorem visibleSpots_levels (st : State) :
  mode st <> wide ->
  visibleSpots st
  = firstn (cap (mode st))
      (level (myMbti st) 4 (spots st)
       ++ level (myMbti st) 3 (spots st)
       ++ (if Nat.ltb
                (List.length
                   (filter (fun sp => 3 <=? affinity (myMbti st) sp) (spots st)))
                10
           then level (myMbti st) 2 (spots st) else [])).
Proof.
  intros Hm. rewrite (visibleSpots_ranked st Hm). f_equal.
  set (aff := affinity (myMbti st)).
  set (F := filter (fun sp => threshold st <=? aff sp) (ranked st)).
  assert (StronglySorted (desc aff) F) as Hs
      by apply StronglySorted_filter, ranked_sorted.
  assert (Forall (fun sp => 2 <= aff sp <= 4) F) as Hr.
  { apply Forall_forall. intros sp Hin. apply filter_In in Hin.
    destruct Hin as [_ Hth]. apply Z.leb_le in Hth.
    pose proof (vibeScore_range (myMbti st) (mbti sp)).
    destruct (threshold_cases st) as [E|E]; rewrite E in Hth;
      unfold aff, affinity in *; lia. }
  rewrite (sorted_levels aff F Hs Hr) at 1.
  assert (forall k,
             filter (fun sp => aff sp =? k) F
             = if threshold st <=? k then level (myMbti st) k (spots st) else [])
    as Hk.
  { intros k. unfold F. rewrite filter_filter.
    destruct (Z.leb_spec (threshold st) k) as [Hle|Hgt].
    - unfold level. rewrite <- ranked_stable. apply filter_ext. intros sp.
      fold aff. destruct (Z.eqb_spec (aff sp) k) as [->|]; simpl;
        [now apply Z.leb_le|reflexivity].
    - apply filter_none. intros sp.
      destruct (Z.eqb_spec (aff sp) k) as [->|]; simpl;
        [now apply Z.leb_gt|reflexivity]. }
  rewrite !Hk. unfold threshold. fold aff.
  destruct (Nat.ltb _ 10); reflexivity.
Qed.

Lemma visibleSpots_levels_witness :
  visibleSpots scenario
  = firstn 5
      (level (tag "INTJ") 4 scenario_spots
       ++ level (tag "INTJ") 3 scenario_spots
       ++ level (tag "INTJ") 2 scenario_spots).
Proof. apply (visibleSpots_levels scenario). simpl; discriminate. Defined.

Lemma sort_sorted_id {A : Type} (key : A -> Z) (l : list A) :
  StronglySorted (desc key) l -> Array.sort (by_key key) l = l.
Proof.
  induction 1 as [|x l Hs IH Hx]; [reflexivity|]. simpl. rewrite IH.
  destruct l as [|y l]; [reflexivity|]. simpl.
  apply Forall_inv in Hx. unfold desc in Hx. unfold by_key.
  destruct (Z.leb_spec (key y - key x) 0); [reflexivity|lia].
Qed.

Lemma filter_all {A : Type} (p : A -> bool) (l : list A) :
  (forall x, In x l -> p x = true) -> filter p l = l.
Proof.
  induction l as [|x l IH]; intros H; [reflexivity|]. simpl.
  rewrite (H x (or_introl eq_refl)). f_equal. apply IH.
  intros y Hy. apply H. now right.
Qed.

(** X: selecting again from a selection changes nothing: with the mode
    and the viewer's tag unchanged, [visibleSpots] maps its own result
    to itself. *)
Theorem visibleSpots_idempotent (st : State) :
  visibleSpots (with_spots st (visibleSpots st)) = visibleSpots st.
Proof.
  destruct (Mode_eqb (mode st) wide) eqn:Ew.
  { unfold visibleSpots at 1 2 3. simpl. rewrite Ew. reflexivity. }
  assert (mode st <> wide) as Hm by (intros E; rewrite E in Ew; discriminate).
  set (L := visibleSpots st). set (st' := with_spots st L).
  set (aff := affinity (myMbti st)).
  assert (StronglySorted (desc aff) L) as Hs.
  { unfold L. rewrite (visibleSpots_ranked st Hm).
    apply StronglySorted_firstn, StronglySorted_filter, ranked_sorted. }
  assert (forall sp, In sp L -> threshold st <= aff sp) as Hth.
  { unfold L. rewrite (visibleSpots_ranked st Hm). intros sp Hin.
    assert (In sp (filter (fun sp => threshold st <=? aff sp) (ranked st)))
      as H.
    { rewrite <- (firstn_skipn (cap (mode st)) (filter _ _)).
      apply in_or_app. now left. }
    apply filter_In in H. destruct H as [_ H]. now apply Z.leb_le. }
  assert ((List.length L <= cap (mode st))%nat) as Hlen.
  { unfold L. rewrite (visibleSpots_ranked st Hm). apply firstn_le_length. }
  assert (threshold st' <= threshold st) as Hle.
  { destruct (threshold_cases st') as [E'|E'], (threshold_cases st) as [E|E];
      try lia.
    exfalso. unfold threshold in E, E'.
    destruct (Nat.ltb_spec
                (List.length
                   (filter (fun sp => 3 <=? affinity (myMbti st) sp) (spots st)))
                10) as [Hlt|]; [|discriminate].
    destruct (Nat.ltb_spec
                (List.length
                   (filter (fun sp => 3 <=? affinity (myMbti st') sp)
                      (spots st')))
                10) as [|Hge]; [discriminate|].
    destruct (visibleSpots_sub st) as [rest Hp].
    apply (filter_perm_length (fun sp => 3 <=? affinity (myMbti st) sp)) in Hp.
    rewrite filter_app, length_app in Hp.
    change (spots st') with (visibleSpots st) in Hge.
    change (myMbti st') with (myMbti st) in Hge. lia. }
  assert (mode st' <> wide) as Hm' by exact Hm.
  rewrite (visibleSpots_ranked st' Hm').
  change (mode st') with (mode st). change (myMbti st') with (myMbti st).
  unfold ranked. change (spots st') with L. change (myMbti st') with (myMbti st).
  fold aff. rewrite (sort_sorted_id aff L Hs).
  rewrite filter_all.
  - now apply firstn_all2.
  - intros sp Hin. apply Z.leb_le. specialize (Hth sp Hin). lia.
Qed.

Lemma strict_eq_true (x y : option N) :
  JsString.strict_eq x y = true <-> x = y.
Proof.
  destruct x as [c|], y as [e|]; simpl; split; intros H;
    try discriminate; try reflexivity.
  - apply N.eqb_eq in H. now subst.
  - injection H as ->. apply N.eqb_refl.
Qed.

Lemma vibeScore_full (a b : jsstring) :
  vibeScore a b = 4 <->
  (forall i, (i < 4)%nat -> JsString.index a i = JsString.index b i).
Proof.
  rewrite vibeScore_sum. split.
  - intros H i Hi. apply strict_eq_true. fold (agree a b i).
    destruct (agree a b 0) eqn:E0, (agree a b 1) eqn:E1,
             (agree a b 2) eqn:E2, (agree a b 3) eqn:E3;
      simpl in H; try lia.
    destruct i as [|[|[|[|i]]]]; try assumption; lia.
  - intros H. unfold agree.
    rewrite !(proj2 (strict_eq_true _ _)) by (apply H; lia). reflexivity.
Qed.

Lemma index_firstn (a : jsstring) (i : nat) :
  (i < 4)%nat -> JsString.index (firstn 4 a) i = JsString.index a i.
Proof.
  intros H. unfold JsString.index. rewrite nth_error_firstn.
  destruct (Nat.ltb_spec i 4); [reflexivity|lia].
Qed.

(** X: the score looks at the first four code units only, and it is 4
    exactly when the two strings agree on them; for two 4-character
    tags, exactly when they are the same tag. *)
Theorem vibeScore_four_iff (a b : jsstring) :
  vibeScore a b = vibeScore (firstn 4 a) (firstn 4 b)
  /\ (vibeScore a b = 4 <-> firstn 4 a = firstn 4 b)
  /\ (List.length a = 4%nat -> List.length b = 4%nat ->
      (vibeScore a b = 4 <-> a = b)).
Proof.
  assert (vibeScore a b = 4 <-> firstn 4 a = firstn 4 b) as Hiff.
  { rewrite vibeScore_full. split.
    - intros H. apply nth_error_ext. intros i. rewrite !nth_error_firstn.
      destruct (Nat.ltb_spec i 4); [now apply H|reflexivity].
    - intros E i Hi. rewrite <- (index_firstn a i Hi), <- (index_firstn b i Hi).
      now rewrite E. }
  split; [|split; [exact Hiff|]].
  - rewrite !vibeScore_sum. unfold agree.
    now rewrite !index_firstn by lia.
  - intros Ha Hb. rewrite Hiff.
    now rewrite !firstn_all2 by lia.
Qed.

Lemma agree_trans (a b c : jsstring) (i : nat) :
  Z.b2z (agree a b i) + Z.b2z (agree b c i) <= 1 + Z.b2z (agree a c i).
Proof.
  destruct (agree a b i) eqn:E1, (agree b c i) eqn:E2;
    try (destruct (agree a c i); simpl; lia).
  apply strict_eq_true in E1. apply strict_eq_true in E2.
  assert (agree a c i = true) as ->
      by (apply strict_eq_true; congruence).
  simpl. lia.
Qed.

(** X: mismatches add up like a distance: the number of positions at
    which [a] and [c] differ is at most the number at which [a] and [b]
    differ plus the number at which [b] and [c] differ. *)
Theorem vibeScore_triangle (a b c : jsstring) :
  (4 - vibeScore a c) <= (4 - vibeScore a b) + (4 - vibeScore b c).
Proof.
  rewrite !vibeScore_sum.
  pose proof (agree_trans a b c 0). pose proof (agree_trans a b c 1).
  pose proof (agree_trans a b c 2). pose proof (agree_trans a b c 3).
  lia.
Qed.

Lemma SFcompare_rank (f g : spec_float) :
  valid_binary f = true -> valid_binary g = true ->
  f <> S754_nan -> g <> S754_nan ->
  SFcompare f g = Some (rank f ?= rank g).
Proof.
  intros Hf Hg Nf Ng.
  assert (0 < 2 ^ (1024 + bias)) as Hbig by (apply pow2_pos; unfold bias; lia).
  destruct f as [sf|sf| |sf mf ef], g as [sg|sg| |sg mg eg];
    try congruence; simpl in Hf, Hg;
    try pose proof (V_finite_lt _ _ Hf) as Vf;
    try pose proof (V_finite_lt _ _ Hg) as Vg;
    try (destruct sf); try (destruct sg);
    try (unfold SFcompare, rank; f_equal; symmetry;
         first [ apply Z.compare_refl
               | apply Z.compare_lt_iff; lia
               | apply Z.compare_gt_iff; lia ]).
  - pose proof (SFcompare_finite mf mg ef eg Hf Hg) as H.
    unfold SFcompare in H. injection H as H.
    unfold SFcompare, rank. f_equal. rewrite Z.compare_opp.
    rewrite (Z.compare_antisym (V (Zpos mf) ef)), <- H.
    destruct (ef ?= eg); reflexivity.
  - apply SFcompare_finite; assumption.
Qed.

Lemma prim_compare (x y : float) :
  is_nan x = false -> is_nan y = false ->
  SFcompare (Prim2SF x) (Prim2SF y) = Some (frank x ?= frank y).
Proof.
  intros Hx Hy. apply SFcompare_rank; try apply Prim2SF_valid;
    now apply is_nan_false.
Qed.

Lemma ltb_rank (x y : float) :
  is_nan x = false -> is_nan y = false ->
  (x <? y)%float = (frank x <? frank y).
Proof.
  intros Hx Hy. rewrite ltb_spec. unfold SFltb.
  rewrite (prim_compare x y Hx Hy). unfold Z.ltb.
  destruct (frank x ?= frank y); reflexivity.
Qed.

Lemma leb_rank (x y : float) :
  is_nan x = false -> is_nan y = false ->
  (x <=? y)%float = (frank x <=? frank y).
Proof.
  intros Hx Hy. rewrite leb_spec. unfold SFleb.
  rewrite (prim_compare x y Hx Hy). unfold Z.leb.
  destruct (frank x ?= frank y); reflexivity.
Qed.

Lemma eqb_rank (x y : float) :
  is_nan x = false -> is_nan y = false ->
  (x =? y)%float = (frank x =? frank y).
Proof.
  intros Hx Hy. rewrite eqb_spec. unfold SFeqb.
  rewrite (prim_compare x y Hx Hy), Z.eqb_compare.
  destruct (frank x ?= frank y); reflexivity.
Qed.

Lemma classify_zero (x : float) :
  is_pos_zero x = true \/ is_neg_zero x = true -> frank x = 0.
Proof.
  unfold is_pos_zero, is_neg_zero, frank. rewrite classify_spec.
  unfold SF64classify, SFclassify.
  destruct (Prim2SF x) as [[|]|[|]| |[|] m e]; cbn [rank];
    intros [H|H]; try reflexivity; try discriminate; exfalso; revert H;
    match goal with |- context [if ?c then _ else _] => destruct c end;
    discriminate.
Qed.

Lemma frank_top (x : float) :
  is_nan x = false -> 2 ^ (1024 + bias) <= frank x -> x = infinity.
Proof.
  intros Hx H. apply Prim2SF_inj. change (Prim2SF infinity) with (S754_infinity false).
  apply is_nan_false in Hx. unfold frank in H.
  assert (0 < 2 ^ (1024 + bias)) as Hbig by (apply pow2_pos; unfold bias; lia).
  destruct (Prim2SF x) as [sg|[|]| |sg m e] eqn:E; cbn [rank] in H;
    try congruence; try lia.
  pose proof (V_finite_lt m e (prim_bounded x sg m e E)).
  destruct sg; lia.
Qed.

Lemma frank_bottom (x : float) :
  is_nan x = false -> frank x <= - 2 ^ (1024 + bias) -> x = neg_infinity.
Proof.
  intros Hx H. apply Prim2SF_inj.
  change (Prim2SF neg_infinity) with (S754_infinity true).
  apply is_nan_false in Hx. unfold frank in H.
  assert (0 < 2 ^ (1024 + bias)) as Hbig by (apply pow2_pos; unfold bias; lia).
  destruct (Prim2SF x) as [sg|[|]| |sg m e] eqn:E; cbn [rank] in H;
    try congruence; try lia.
  pose proof (V_finite_lt m e (prim_bounded x sg m e E)).
  destruct sg; lia.
Qed.

(** [Math.min] and [Math.max] of two numbers *)
Lemma Math_min_pair (b n : float) :
  is_nan b = false -> is_nan n = false ->
  Math_min [b; n]
  = if (is_neg_zero n && is_pos_zero b) || (n <? b)%float then n else b.
Proof.
  intros Hb Hn. unfold Math_min. cbn [existsb]. rewrite Hb, Hn.
  cbn [orb fold_left].
  change (is_pos_zero infinity) with false. rewrite andb_false_r. cbn [orb].
  assert ((if (b <? infinity)%float then b else infinity) = b) as ->;
    [|reflexivity].
  rewrite (ltb_rank b infinity Hb eq_refl).
  destruct (Z.ltb_spec (frank b) (frank infinity)) as [|Hge]; [reflexivity|].
  symmetry. apply frank_top; assumption.
Qed.

Lemma Math_max_pair (a m : float) :
  is_nan a = false -> is_nan m = false ->
  Math_max [a; m]
  = if (is_pos_zero m && is_neg_zero a) || (a <? m)%float then m else a.
Proof.
  intros Ha Hm. unfold Math_max. cbn [existsb]. rewrite Ha, Hm.
  cbn [orb fold_left].
  change (is_neg_zero neg_infinity) with false. rewrite andb_false_r. cbn [orb].
  assert ((if (neg_infinity <? a)%float then a else neg_infinity) = a) as ->;
    [|reflexivity].
  rewrite (ltb_rank neg_infinity a eq_refl Ha).
  destruct (Z.ltb_spec (frank neg_infinity) (frank a)) as [|Hge]; [reflexivity|].
  symmetry. apply frank_bottom; assumption.
Qed.

Lemma clamp_eval (n a b : float) :
  is_nan n = false -> is_nan a = false -> is_nan b = false ->
  exists r : float,
    clamp n a b = r /\ is_nan r = false
    /\ ((r = n /\ frank a <= frank n <= frank b)
        \/ (r = b /\ frank a <= frank b <= frank n)
        \/ (r = a /\ (frank n <= frank a \/ frank b <= frank a))).
Proof.
  intros Hn Ha Hb. unfold clamp. rewrite (Math_min_pair b n Hb Hn).
  set (z1 := is_neg_zero n && is_pos_zero b).
  assert (z1 = true -> frank n = 0 /\ frank b = 0) as Hz1.
  { unfold z1. rewrite andb_true_iff. intros [H1 H2].
    split; apply classify_zero; auto. }
  rewrite (ltb_rank n b Hn Hb).
  set (m := if z1 || (frank n <? frank b) then n else b).
  assert (is_nan m = false) as Hm by (unfold m; destruct (z1 || _); assumption).
  rewrite (Math_max_pair a m Ha Hm).
  set (z2 := is_pos_zero m && is_neg_zero a).
  assert (z2 = true -> frank m = 0 /\ frank a = 0) as Hz2.
  { unfold z2. rewrite andb_true_iff. intros [H1 H2].
    split; apply classify_zero; auto. }
  rewrite (ltb_rank a m Ha Hm).
  assert ((m = n /\ frank n <= frank b) \/ (m = b /\ frank b <= frank n))
    as Hmcase.
  { unfold m. destruct z1; simpl.
    - left. split; [reflexivity|]. destruct Hz1 as [-> ->]; [reflexivity|lia].
    - destruct (Z.ltb_spec (frank n) (frank b)); [left|right]; split;
        try reflexivity; lia. }
  destruct z2; simpl.
  - destruct Hz2 as [E1 E2]; [reflexivity|].
    exists m. split; [reflexivity|]. split; [assumption|].
    destruct Hmcase as [[-> H]|[-> H]]; [left|right; left];
      (split; [reflexivity|lia]).
  - destruct (Z.ltb_spec (frank a) (frank m)) as [Hlt|Hge].
    + exists m. split; [reflexivity|]. split; [assumption|].
      destruct Hmcase as [[E H]|[E H]]; rewrite E in *; [left|right; left];
        (split; [reflexivity|lia]).
    + exists a. split; [reflexivity|]. split; [assumption|].
      right. right. split; [reflexivity|].
      destruct Hmcase as [[E H]|[E H]]; rewrite E in *; lia.
Qed.

(** X: [clamp] propagates [NaN]; on numbers with [a <= b] its result
    lies in [a, b], equals [n] when [n] lies in [a, b], [a] when [n] is
    at most [a], and [b] when [n] is at least [b] (equality of numbers:
    the sign of a zero may differ). *)
Theorem clamp_spec (n a b : float) :
  (is_nan n = true \/ is_nan a = true \/ is_nan b = true ->
   is_nan (clamp n a b) = true)
  /\ (is_nan n = false -> is_nan a = false -> is_nan b = false ->
      (a <=? b)%float = true ->
      (a <=? clamp n a b)%float = true /\ (clamp n a b <=? b)%float = true
      /\ ((a <=? n)%float = true -> (n <=? b)%float = true ->
          (clamp n a b =? n)%float = true)
      /\ ((n <=? a)%float = true -> (clamp n a b =? a)%float = true)
      /\ ((b <=? n)%float = true -> (clamp n a b =? b)%float = true)).
Proof.
  split.
  - intros H. unfold clamp, Math_max. cbn [existsb].
    destruct (is_nan a) eqn:Ha; [reflexivity|].
    unfold Math_min. cbn [existsb].
    destruct (is_nan b) eqn:Hb; [reflexivity|].
    destruct (is_nan n) eqn:Hn; [reflexivity|].
    destruct H as [H|[H|H]]; discriminate.
  - intros Hn Ha Hb Hab.
    destruct (clamp_eval n a b Hn Ha Hb) as (r & -> & Hr & Hcase).
    rewrite (leb_rank a b Ha Hb) in Hab. apply Z.leb_le in Hab.
    rewrite (leb_rank a r Ha Hr), (leb_rank r b Hr Hb).
    rewrite (leb_rank a n Ha Hn), (leb_rank n b Hn Hb), (leb_rank n a Hn Ha),
      (leb_rank b n Hb Hn).
    rewrite (eqb_rank r n Hr Hn), (eqb_rank r a Hr Ha), (eqb_rank r b Hr Hb).
    rewrite !Z.leb_le, !Z.eqb_eq.
    destruct Hcase as [[-> H]|[[-> H]|[-> H]]]; repeat split; intros; lia.
Qed.

Lemma leb_true_numbers (x y : float) :
  (x <=? y)%float = true -> is_nan x = false /\ is_nan y = false.
Proof.
  rewrite leb_spec. unfold SFleb. intros H.
  split; apply is_nan_false; intros E; rewrite E in H;
    [|destruct (Prim2SF x)]; discriminate.
Qed.

(** X: the weights are numbers exactly when the distance is: a [NaN]
    distance makes the opacity and the radius [NaN], and nothing else
    does. *)
Theorem markerStyle_nan
        (Math_sin Math_cos Math_asin : float -> float)
        (Math_pow : float -> float -> float) (st : State) (sp : Spot) :
  let style := markerStyle Math_sin Math_cos Math_asin Math_pow st sp in
  is_nan (opacity style) = is_nan (d style)
  /\ is_nan (radius style) = is_nan (d style).
Proof.
  intros style.
  change (opacity style) with (0.10 + fade (mode st) (d style) * 0.80)%float.
  change (radius style) with (5 + fade (mode st) (d style) * 10)%float.
  destruct (is_nan (d style)) eqn:Hd.
  - assert (d style = nan) as ->
        by (apply Prim2SF_inj; apply is_nan_spec in Hd; rewrite Hd; reflexivity).
    destruct (mode st); split; reflexivity.
  - destruct (fade_unit (mode st) (d style) Hd) as (vt & Ht & Hle).
    destruct (opacity_bounds _ vt Ht Hle) as [_ Ho].
    destruct (radius_bounds _ vt Ht Hle) as [_ Hr].
    apply leb_true_numbers in Ho. apply leb_true_numbers in Hr.
    split; [apply Ho|apply Hr].
Qed.

(** *** Decimal renderings *)

Lemma digits_of_uint (u : Decimal.uint) :
  Forall digit (JsString.of_string (NilEmpty.string_of_uint u)).
Proof.
  unfold JsString.of_string.
  induction u; simpl; constructor; try assumption; unfold digit; simpl; lia.
Qed.

Lemma digits_of_index (i : nat) :
  Forall digit (JsString.of_number (Some (Z.of_nat i))).
Proof.
  unfold JsString.of_number.
  destruct (Z.of_nat i) as [|p|p] eqn:E; try lia.
  - repeat constructor; unfold digit; simpl; lia.
  - simpl. unfold NilZero.string_of_uint.
    destruct (Pos.to_uint p) eqn:Eu; try apply digits_of_uint.
    repeat constructor; unfold digit; simpl; lia.
Qed.

Lemma of_string_inj (s t : string) :
  JsString.of_string s = JsString.of_string t -> s = t.
Proof.
  unfold JsString.of_string. revert t.
  induction s as [|a s IH]; intros [|b t]; simpl; intros H;
    try discriminate; [reflexivity|].
  injection H as Hab Hst. f_equal; [|now apply IH].
  rewrite <- (ascii_N_embedding a), <- (ascii_N_embedding b). now f_equal.
Qed.

Lemma of_index_inj (i j : nat) :
  JsString.of_number (Some (Z.of_nat i)) = JsString.of_number (Some (Z.of_nat j)) ->
  i = j.
Proof.
  unfold JsString.of_number. intros H. apply of_string_inj in H.
  assert (forall z, Z.to_int z <> Decimal.Pos Decimal.Nil
                    /\ Z.to_int z <> Decimal.Neg Decimal.Nil) as Hn.
  { intros [|p|p]; simpl; split; try discriminate;
      intros E; injection E as E;
      pose proof (DecimalPos.Unsigned.of_to p) as Hp; rewrite E in Hp;
      discriminate. }
  pose proof (NilZero.isi _ (proj1 (Hn (Z.of_nat i))) (proj2 (Hn (Z.of_nat i)))) as Hi.
  pose proof (NilZero.isi _ (proj1 (Hn (Z.of_nat j))) (proj2 (Hn (Z.of_nat j)))) as Hj.
  rewrite H in Hi. rewrite Hi in Hj. injection Hj as Hj.
  apply DecimalZ.to_int_inj in Hj. lia.
Qed.

Lemma terminated_inj (l1 l2 r1 r2 : list N) (c : N) :
  ~ In c l1 -> ~ In c l2 ->
  (l1 ++ c :: r1 = l2 ++ c :: r2)%list -> l1 = l2.
Proof.
  revert l2. induction l1 as [|a l1 IH]; intros [|b l2] H1 H2 E; simpl in *.
  - reflexivity.
  - injection E as E _. exfalso. apply H2. now left.
  - injection E as E _. exfalso. apply H1. now left.
  - injection E as -> E. f_equal. apply (IH l2); tauto.
Qed.

(** *** What [generateSpots] builds *)

Section GenerationFacts.

Variable Math_random : nat -> float.
Variable toString16 : float -> jsstring.

Lemma generateSpot_id (lat lng : float) (i k : nat) :
  exists h : jsstring,
    raw_id (fst (generateSpot Math_random toString16 lat lng i k))
    = (JsString.of_string "spot_" ++ JsString.of_number (Some (Z.of_nat i))
         ++ 95%N :: h)%list.
Proof. eexists. reflexivity. Qed.

Lemma generateSpot_draws (lat lng : float) (i k : nat) :
  snd (generateSpot Math_random toString16 lat lng i k) = (4 + k)%nat.
Proof. reflexivity. Qed.

Lemma generateFrom_cons (lat lng : float) (i n k : nat) :
  generateFrom Math_random toString16 lat lng i (S n) k
  = (fst (generateSpot Math_random toString16 lat lng i k)
       :: fst (generateFrom Math_random toString16 lat lng (S i) n (4 + k)),
     snd (generateFrom Math_random toString16 lat lng (S i) n (4 + k))).
Proof.
  cbn [generateFrom].
  pose proof (generateSpot_draws lat lng i k) as Hd.
  destruct (generateSpot Math_random toString16 lat lng i k) as [sp k1].
  cbn [snd fst] in *. subst k1.
  destruct (generateFrom Math_random toString16 lat lng (S i) n (4 + k));
    reflexivity.
Qed.

Lemma generateFrom_shape (lat lng : float) (n : nat) :
  forall i k,
    List.length (fst (generateFrom Math_random toString16 lat lng i n k)) = n
    /\ snd (generateFrom Math_random toString16 lat lng i n k) = (k + 4 * n)%nat
    /\ forall r, In r (fst (generateFrom Math_random toString16 lat lng i n k)) ->
         exists j h,
           (i <= j < i + n)%nat
           /\ raw_id r
              = (JsString.of_string "spot_"
                   ++ JsString.of_number (Some (Z.of_nat j)) ++ 95%N :: h)%list.
Proof.
  induction n as [|n IH]; intros i k.
  - split; [reflexivity|]. split; [simpl; lia|]. intros r [].
  - rewrite generateFrom_cons. cbn [fst snd].
    destruct (IH (S i) (4 + k)%nat) as (Hl & Hs & Hid).
    split; [cbn [List.length]; now f_equal|]. split; [rewrite Hs; lia|].
    intros r [<-|Hin].
    + destruct (generateSpot_id lat lng i k) as [h Hh].
      exists i, h. split; [lia|exact Hh].
    + destruct (Hid r Hin) as (j & h & Hj & Hh).
      exists j, h. split; [lia|exact Hh].
Qed.

Lemma spot_id_index (i j : nat) (h h' : jsstring) :
  (JsString.of_string "spot_" ++ JsString.of_number (Some (Z.of_nat i))
     ++ 95%N :: h)%list
  = (JsString.of_string "spot_" ++ JsString.of_number (Some (Z.of_nat j))
       ++ 95%N :: h')%list ->
  i = j.
Proof.
  intros E. apply app_inv_head in E.
  apply terminated_inj in E.
  - now apply of_index_inj.
  - intros Hin. pose proof (digits_of_index i) as Hd.
    rewrite Forall_forall in Hd. specialize (Hd _ Hin). unfold digit in Hd. lia.
  - intros Hin. pose proof (digits_of_index j) as Hd.
    rewrite Forall_forall in Hd. specialize (Hd _ Hin). unfold digit in Hd. lia.
Qed.

Lemma generateFrom_ids (lat lng : float) (n : nat) :
  forall i k, NoDup (map raw_id (fst (generateFrom Math_random toString16 lat lng i n k))).
Proof.
  induction n as [|n IH]; intros i k; [constructor|].
  rewrite generateFrom_cons. cbn [fst map]. constructor; [|apply IH].
  intros Hin. apply in_map_iff in Hin. destruct Hin as (r & Hr & Hin).
  destruct (generateFrom_shape lat lng n (S i) (4 + k)%nat) as (_ & _ & Hid).
  destruct (Hid r Hin) as (j & h & Hj & Hh).
  destruct (generateSpot_id lat lng i k) as [h0 Hh0].
  rewrite Hh, Hh0 in Hr. apply spot_id_index in Hr. lia.
Qed.

End GenerationFacts.

(** *** The tag lookup *)

Lemma SF_16 : Prim2SF 16 = fin 4503599627370496 (-48).
Proof. reflexivity. Qed.

Lemma below_one (m : positive) (e : Z) :
  bounded prec emax m e = true -> V (Zpos m) e < 2 ^ bias ->
  V (Zpos m) e <= V 9007199254740991 (-53).
Proof.
  intros Hb Hlt.
  destruct (Z_le_gt_dec (V (Zpos m) e) (V 9007199254740991 (-53)))
    as [|Hgt]; [assumption|exfalso].
  pose proof (grid_gap m e 9007199254740991 (-53) Hb ltac:(lia) ltac:(lia)
                ltac:(right; vm_compute; discriminate) ltac:(lia)) as Hg.
  assert (V (9007199254740991 + 1) (-53) = 2 ^ bias) as E
      by (vm_compute; reflexivity).
  lia.
Qed.

Lemma floor_small (m : positive) (e : Z) (n : Z) :
  -1074 <= e -> 0 <= n ->
  V (Zpos m) e < 2 ^ n * 2 ^ bias ->
  0 <= (if 0 <=? e then Zpos m * 2 ^ e else Zpos m / 2 ^ (- e)) < 2 ^ n.
Proof.
  intros He Hn Hlt. unfold V in Hlt.
  assert (0 < 2 ^ n) as Hpn by (apply pow2_pos; lia).
  destruct (Z.leb_spec 0 e) as [Hpos|Hneg].
  - rewrite pow2_split in Hlt by (unfold bias; lia).
    assert (0 < 2 ^ e) by (apply pow2_pos; lia).
    assert (0 < 2 ^ bias) by (apply pow2_pos; unfold bias; lia).
    split; [lia|]. nia.
  - assert (0 < 2 ^ (- e)) as Hq by (apply pow2_pos; lia).
    split; [apply Z.div_pos; lia|].
    apply Z.div_lt_upper_bound; [assumption|].
    assert (2 ^ bias = 2 ^ (- e) * 2 ^ (e + bias)) as E.
    { rewrite <- pow2_split by (unfold bias; lia). f_equal. lia. }
    rewrite E in Hlt.
    assert (0 < 2 ^ (e + bias)) by (apply pow2_pos; unfold bias; lia).
    nia.
Qed.

Lemma floor_16 (r : float) :
  (0 <=? r)%float = true -> (r <? 1)%float = true ->
  exists z, Math_floor (r * 16) = Some z /\ 0 <= z < 16.
Proof.
  rewrite leb_spec, ltb_spec, SF_one.
  change (Prim2SF 0) with (S754_zero false).
  unfold SFleb, SFltb, fin. intros H0 H1.
  unfold Math_floor. rewrite mul_spec, SF_16.
  destruct (Prim2SF r) as [sg|sg| |sg m e] eqn:E; simpl in H0;
    try discriminate; try (destruct sg; discriminate).
  - exists 0. split; [reflexivity|lia].
  - destruct sg; [discriminate|].
    pose proof (prim_bounded r false m e E) as Hb.
    rewrite SFcompare_finite in H1 by (assumption || reflexivity).
    rewrite V_one in H1.
    destruct (Z.compare_spec (V (Zpos m) e) (2 ^ bias)) as [|Hlt|];
      try discriminate.
    pose proof (below_one m e Hb Hlt) as Hle.
    pose proof (bounded_inv m e Hb) as (Hr & _).
    destruct (SFmul_between m 4503599627370496 9007199254740991 e (-48) (-49))
      as (vu & Hu & Hbd & _); try reflexivity; try assumption; try lia.
    + assert (V (Zpos m * 4503599627370496) (e + -48) = 16 * V (Zpos m) e) as ->.
      { unfold V. change 4503599627370496 with (2 ^ 52). change 16 with (2 ^ 4).
        rewrite <- Z.mul_assoc, <- (pow2_split 52) by (unfold bias; lia).
        rewrite (Z.mul_comm (2 ^ 4)), <- Z.mul_assoc.
        rewrite <- (pow2_split (e + bias) 4) by (unfold bias; lia).
        f_equal. f_equal. lia. }
      assert (V 9007199254740991 (-49) = 16 * V 9007199254740991 (-53)) as ->
          by (vm_compute; reflexivity).
      lia.
    + assert (Prim2SF (r * 16) = SF64mul (fin m e) (fin 4503599627370496 (-48)))
        as Em by (rewrite mul_spec, E, SF_16; reflexivity).
      rewrite <- Em in Hu.
      assert (vu < 2 ^ 4 * 2 ^ bias) as Hlt16.
      { assert (V 9007199254740991 (-49) < 2 ^ 4 * 2 ^ bias)
          by (vm_compute; reflexivity). lia. }
      change (S754_finite false m e) with (fin m e).
      destruct (reads_prim _ _ Hu) as [[E0 _]|(mr & er & Er & Hbr & Ev & _)].
      * rewrite Em in E0. rewrite E0.
        exists 0. split; [reflexivity|lia].
      * rewrite Em in Er. rewrite Er.
        eexists. split; [reflexivity|].
        pose proof (bounded_inv mr er Hbr) as (Hrr & _).
        change 16 with (2 ^ 4).
        apply floor_small; lia.
Qed.

Lemma tag_lookup (r : float) :
  (0 <=? r)%float = true -> (r <? 1)%float = true ->
  exists t, Array_get MBTIS (Math_floor (r * 16)) = Some t /\ In t MBTIS.
Proof.
  intros H0 H1. destruct (floor_16 r H0 H1) as (z & -> & Hz).
  unfold Array_get. destruct (Z.leb_spec 0 z); [|lia].
  destruct (nth_error MBTIS (Z.to_nat z)) as [t|] eqn:E.
  - exists t. split; [reflexivity|]. eapply nth_error_In; eassumption.
  - apply nth_error_None in E. change (List.length MBTIS) with 16%nat in E. lia.
Qed.

Lemma ToLength_range (x : float) : 0 <= ToLength x <= 2 ^ 53 - 1.
Proof.
  unfold ToLength.
  destruct (Prim2SF x) as [sg|[|]| |[|] m e]; try lia.
  assert (0 <= (if 0 <=? e then Zpos m * 2 ^ e else Zpos m / 2 ^ (- e))); [|lia].
  destruct (Z.leb_spec 0 e).
  - pose proof (Z.pow_nonneg 2 e). nia.
  - apply Z.div_pos; [lia|]. apply pow2_pos. lia.
Qed.

Lemma ToLength_low (x : float) : frank x <= 0 -> ToLength x = 0.
Proof.
  unfold ToLength, frank. pose proof (prim_bounded x false) as Hb.
  destruct (Prim2SF x) as [sg|[|]| |[|] m e]; cbn [rank]; intros H;
    try reflexivity.
  - pose proof (pow2_pos (1024 + bias) ltac:(unfold bias; lia)). lia.
  - pose proof (V_finite_lt m e (Hb m e eq_refl)). lia.
Qed.

(** [ToLength] cuts the fraction off. *)
Lemma ToLength_floor (x : float) :
  0 <= frank x < 2 ^ 53 * 2 ^ bias ->
  ToLength x * 2 ^ bias <= frank x < (ToLength x + 1) * 2 ^ bias.
Proof.
  assert (0 < 2 ^ bias) as HB by (apply pow2_pos; unfold bias; lia).
  unfold ToLength, frank. pose proof (prim_bounded x) as Hb.
  destruct (Prim2SF x) as [sg|[|]| |[|] m e]; cbn [rank]; intros H; try lia.
  - exfalso.
    assert (2 ^ (53 + bias) <= 2 ^ (1024 + bias))
      by (apply pow2_le; unfold bias; lia).
    rewrite (pow2_split 53 bias) in * by (unfold bias; lia). lia.
  - pose proof (V_finite_lt m e (Hb true m e eq_refl)). lia.
  - pose proof (bounded_inv m e (Hb false m e eq_refl)) as (Hr & _).
    set (z := if 0 <=? e then Zpos m * 2 ^ e else Zpos m / 2 ^ (- e)).
    assert (z * 2 ^ bias <= V (Zpos m) e < (z + 1) * 2 ^ bias) as Hz.
    { unfold z, V. destruct (Z.leb_spec 0 e) as [He|He].
      - rewrite (Z.add_comm e bias), (pow2_split bias e) by (unfold bias; lia).
        nia.
      - assert (0 < 2 ^ (- e)) as Hp by (apply pow2_pos; lia).
        assert (0 < 2 ^ (e + bias)) as Hq by (apply pow2_pos; unfold bias; lia).
        assert (2 ^ bias = 2 ^ (- e) * 2 ^ (e + bias)) as ->.
        { rewrite <- pow2_split by (unfold bias; lia). f_equal. lia. }
        pose proof (Z.mul_div_le (Zpos m) (2 ^ (- e)) Hp).
        pose proof (Z.mul_succ_div_gt (Zpos m) (2 ^ (- e)) Hp).
        nia. }
    assert (z < 2 ^ 53) by nia.
    rewrite Z.min_l by lia. exact Hz.
Qed.

(** X: [generateSpots(lat, lng, count)] reads [count] as a length: the
    number truncated towards zero, nothing for [NaN] and for a count
    below 1.  When that length is below 2^32 it returns exactly that
    many spots, whose ids are pairwise different whatever the random
    numbers and their hexadecimal renderings are, after drawing four
    random numbers per spot; from 2^32 on it throws a [RangeError]
    and builds nothing.  The count 40 of the component gives 40
    spots. *)
Theorem generateSpots_shape
        (Math_random : nat -> float) (toString16 : float -> jsstring)
        (lat lng : float) (count : float) (k : nat) :
  let n := ToLength count in
  (0 <= n <= 2 ^ 53 - 1
   /\ (frank count <= 0 -> n = 0)
   /\ (0 <= frank count < 2 ^ 53 * 2 ^ bias ->
       n * 2 ^ bias <= frank count < (n + 1) * 2 ^ bias)
   /\ ToLength 40 = 40)
  /\ (n < 2 ^ 32 ->
      exists l,
        generateSpots Math_random toString16 lat lng count k
        = Returned (l, (k + 4 * Z.to_nat n)%nat)
        /\ List.length l = Z.to_nat n
        /\ NoDup (map raw_id l))
  /\ (2 ^ 32 <= n ->
      generateSpots Math_random toString16 lat lng count k = RangeError).
Proof.
  intros n. split; [|split].
  - split; [apply ToLength_range|]. split; [apply ToLength_low|].
    split; [apply ToLength_floor|reflexivity].
  - intros Hn. unfold generateSpots. fold n.
    destruct (Z.ltb_spec n (2 ^ 32)) as [_|Hge]; [|lia].
    destruct (generateFrom_shape Math_random toString16 lat lng (Z.to_nat n) 0 k)
      as (Hl & Hs & _).
    exists (fst (generateFrom Math_random toString16 lat lng 0 (Z.to_nat n) k)).
    split; [|split; [exact Hl|apply generateFrom_ids]].
    rewrite <- Hs. rewrite <- surjective_pairing. reflexivity.
  - intros Hn. unfold generateSpots. fold n.
    destruct (Z.ltb_spec n (2 ^ 32)) as [Hlt|_]; [lia|reflexivity].
Qed.

Lemma generateFrom_tags
      (Math_random : nat -> float) (toString16 : float -> jsstring)
      (lat lng : float) (n : nat) :
  (forall j, (0 <=? Math_random j)%float = true
             /\ (Math_random j <? 1)%float = true) ->
  forall i k,
    Forall (fun r => exists t, raw_mbti r = Some t /\ In t MBTIS)
           (fst (generateFrom Math_random toString16 lat lng i n k)).
Proof.
  intros Hr. induction n as [|n IH]; intros i k; [constructor|].
  rewrite generateFrom_cons. cbn [fst]. constructor; [|apply IH].
  destruct (Hr (S (S (S k)))) as [H0 H1].
  exact (tag_lookup _ H0 H1).
Qed.

(** X: when [Math.random] returns numbers in [0,1), every spot
    [generateSpots] builds carries one of the 16 tags of [MBTIS]: the
    lookup never falls outside the table. *)
Theorem generateSpots_tags
        (Math_random : nat -> float) (toString16 : float -> jsstring)
        (lat lng : float) (count : float) (k : nat) :
  (forall j, (0 <=? Math_random j)%float = true
             /\ (Math_random j <? 1)%float = true) ->
  exists l : list Spot,
    map spot_of_raw
      (built (generateSpots Math_random toString16 lat lng count k))
    = map Some l
    /\ Forall (fun sp => In (mbti sp) MBTIS) l.
Proof.
  intros Hr. unfold generateSpots. cbv zeta.
  destruct (ToLength count <? 2 ^ 32); cbn [built];
    [|exists []; split; constructor].
  pose proof (generateFrom_tags Math_random toString16 lat lng
                (Z.to_nat (ToLength count)) Hr 0%nat k) as H.
  induction H as [|r rs (t & Ht & Hin) _ (l & Hl & Hf)].
  - exists []. split; constructor.
  - exists (mkSpot (raw_id r) (raw_lat r) (raw_lng r) t :: l). split.
    + simpl. rewrite Hl. unfold spot_of_raw. now rewrite Ht.
    + constructor; assumption.
Qed.

Lemma generateSpots_tags_witness :
  exists l : list Spot,
    map spot_of_raw
      (built (generateSpots two_point_random plain_hex 37.5665 126.978 40 1))
    = map Some l
    /\ Forall (fun sp => In (mbti sp) MBTIS) l.
Proof.
  apply (generateSpots_tags two_point_random plain_hex 37.5665 126.978 40 1).
  intros j. unfold two_point_random. destruct (Nat.even j); split; reflexivity.
Defined.

Lemma colour_of_tag (t : jsstring) : In t MBTIS -> In (hsl (hue t)) tag_colours.
Proof.
  unfold MBTIS. simpl map. intros Hin.
  repeat (destruct Hin as [<-|Hin]; [vm_compute; tauto|]).
  destruct Hin.
Qed.

(** X: when [Math.random] returns numbers in [0,1), the marker of every
    generated spot gets one of four well-formed colours, in every mode
    and at every location: its hue is never [NaN]. *)
Theorem generated_marker_colours
        (Math_random : nat -> float) (toString16 : float -> jsstring)
        (Math_sin Math_cos Math_asin : float -> float)
        (Math_pow : float -> float -> float)
        (lat lng : float) (count : float) (k : nat) :
  (forall j, (0 <=? Math_random j)%float = true
             /\ (Math_random j <? 1)%float = true) ->
  Forall
    (fun r =>
       exists sp, spot_of_raw r = Some sp
                  /\ forall st : State,
                       In (color (markerStyle Math_sin Math_cos Math_asin
                                    Math_pow st sp))
                          tag_colours)
    (built (generateSpots Math_random toString16 lat lng count k)).
Proof.
  intros Hr. unfold generateSpots. cbv zeta.
  destruct (ToLength count <? 2 ^ 32); cbn [built]; [|constructor].
  pose proof (generateFrom_tags Math_random toString16 lat lng
                (Z.to_nat (ToLength count)) Hr 0%nat k) as H.
  eapply Forall_impl; [|exact H]. clear H.
  intros r (t & Ht & Hin).
  exists (mkSpot (raw_id r) (raw_lat r) (raw_lng r) t).
  split; [unfold spot_of_raw; now rewrite Ht|].
  intros st. exact (colour_of_tag t Hin).
Qed.

Lemma generated_marker_colours_witness :
  Forall
    (fun r =>
       exists sp, spot_of_raw r = Some sp
                  /\ forall st : State,
                       In (color (markerStyle flat_sin flat_cos flat_asin
                                    flat_pow st sp))
                          tag_colours)
    (built (generateSpots two_point_random plain_hex 37.5665 126.978 40 1)).
Proof.
  apply (generated_marker_colours two_point_random plain_hex).
  intros j. unfold two_point_random. destruct (Nat.even j); split; reflexivity.
Defined.

(** ** The toast and its timer *)

Lemma clearTimeout_single (h ms : Z) : clearTimeout h [mkTimeout h ms] = [].
Proof. unfold clearTimeout. simpl. rewrite Z.eqb_refl. reflexivity. Qed.

Lemma clear_current_tidy (p : Page) :
  tidy p -> clear_current (timer_current p) (timeouts p) = [].
Proof.
  intros [E|(h & ms & Hh & Ec & Et)]; unfold clear_current.
  - rewrite E. destruct (timer_current p) as [h|]; [|reflexivity].
    destruct (h =? 0); reflexivity.
  - rewrite Ec, Et. destruct (Z.eqb_spec h 0) as [|_]; [contradiction|].
    apply clearTimeout_single.
Qed.

Lemma showToast_tidy (fresh : list Timeout -> Z) (title : jsstring)
    (sub : option jsstring) (ms : option Z) (p : Page) :
  (forall l, 0 < fresh l) -> tidy p ->
  showToast fresh title sub ms p
  = mkPage (view p) (mkToast true title sub) (Some (fresh []))
      [mkTimeout (fresh []) (match ms with Some v => v | None => 1500 end)]
      (vibrations p).
Proof.
  intros _ Ht. unfold showToast. rewrite (clear_current_tidy p Ht).
  reflexivity.
Qed.

Lemma tidy_single (fresh : list Timeout -> Z) (v : State) (t : ToastState)
    (ms : Z) (vs : list (list Z)) :
  (forall l, 0 < fresh l) ->
  tidy (mkPage v t (Some (fresh [])) [mkTimeout (fresh []) ms] vs).
Proof.
  intros Hf. right. exists (fresh []), ms.
  pose proof (Hf []). repeat split. lia.
Qed.

Lemma setMode_tidy (next : Mode) (p : Page) : tidy p -> tidy (setMode next p).
Proof. intros H. exact H. Qed.

Lemma changeMode_tidy (fresh : list Timeout -> Z) (vib : bool) (next : Mode)
    (p : Page) :
  (forall l, 0 < fresh l) -> tidy p -> tidy (changeMode fresh vib next p).
Proof.
  intros Hf Ht. unfold changeMode.
  destruct next; cbn [Mode_eqb];
    rewrite (showToast_tidy fresh _ _ _ _ Hf (setMode_tidy _ p Ht));
    try destruct vib; unfold vibrate; cbn [view toast timer_current timeouts];
    apply tidy_single; exact Hf.
Qed.

Lemma elapse_tidy (h : Z) (p : Page) : tidy p -> tidy (elapse h p).
Proof.
  intros Ht. unfold elapse.
  destruct (existsb _ (timeouts p)) eqn:Ex; [|exact Ht].
  destruct Ht as [E|(h0 & ms & Hh & Ec & Et)].
  - rewrite E in Ex. discriminate.
  - rewrite Et in Ex. simpl in Ex. rewrite orb_false_r in Ex.
    apply Z.eqb_eq in Ex. subst h0.
    left. unfold hide. cbn [timeouts]. rewrite Et. apply clearTimeout_single.
Qed.

Lemma step_tidy (fresh : list Timeout -> Z) (vib : bool) (p : Page)
    (ev : Event) :
  (forall l, 0 < fresh l) -> tidy p -> tidy (step fresh vib p ev).
Proof.
  intros Hf Ht. destruct ev as [next|title sub ms|h| |denied|la ln g| ];
    cbn [step].
  - apply changeMode_tidy; assumption.
  - rewrite (showToast_tidy fresh _ _ _ _ Hf Ht). apply tidy_single; exact Hf.
  - apply elapse_tidy; exact Ht.
  - exact Ht.
  - exact Ht.
  - exact Ht.
  - left. unfold cleanup. cbn [timeouts]. apply clear_current_tidy; exact Ht.
Qed.

Lemma run_tidy (fresh : list Timeout -> Z) (vib : bool) (evs : list Event) :
  (forall l, 0 < fresh l) ->
  forall p, tidy p -> tidy (run fresh vib p evs).
Proof.
  intros Hf. unfold run. induction evs as [|ev evs IH]; intros p Ht; simpl.
  - exact Ht.
  - apply IH. apply step_tidy; assumption.
Qed.



(** X: choosing a mode, after any history of the page: the mode
    cell holds the chosen mode and the other cells of the view are
    untouched; the toast is shown, and exactly one timeout is pending,
    of 1500 ms, which is the only one whose elapsing hides the toast
    (no timeout of an earlier toast is left to cut it short); elapsing
    keeps the toast's texts; the device vibrates, once and with the
    pattern 40, 30, 40, only for the mode "3m" and only where
    [navigator.vibrate] exists. *)
Theorem changeMode_toast (fresh : list Timeout -> Z) (vib : bool)
    (tag0 : jsstring) (generated : list Spot) (evs : list Event)
    (next : Mode) :
  (forall l, 0 < fresh l) ->
  let p := run fresh vib (initial_page tag0 generated) evs in
  let p' := changeMode fresh vib next p in
  (mode (view p') = next /\ myMbti (view p') = myMbti (view p)
   /\ me (view p') = me (view p) /\ spots (view p') = spots (view p))
  /\ toast_show (toast p') = true
  /\ (exists h,
        timer_current p' = Some h /\ timeouts p' = [mkTimeout h 1500]
        /\ (forall h',
              toast_show (toast (elapse h' p')) = negb (h' =? h))
        /\ toast_title (toast (elapse h p')) = toast_title (toast p')
        /\ toast_sub (toast (elapse h p')) = toast_sub (toast p')
        /\ timeouts (elapse h p') = [])
  /\ vibrations p'
     = (if Mode_eqb next mode_3m && vib
        then [40; 30; 40] :: vibrations p else vibrations p).
Proof.
  intros Hf p p'.
  assert (tidy p) as Ht.
  { apply run_tidy; [exact Hf|]. left. reflexivity. }
  assert (forall h' v t vs,
            toast_show t = true ->
            let q := mkPage v t (Some (fresh [])) [mkTimeout (fresh []) 1500] vs in
            toast_show (toast (elapse h' q)) = negb (h' =? fresh [])
            /\ (h' = fresh [] ->
                toast_title (toast (elapse h' q)) = toast_title t
                /\ toast_sub (toast (elapse h' q)) = toast_sub t
                /\ timeouts (elapse h' q) = [])) as Hel.
  { intros h' v t vs Hs q. unfold elapse, q. cbn [timeouts existsb handle].
    rewrite orb_false_r, (Z.eqb_sym (fresh []) h').
    destruct (Z.eqb_spec h' (fresh [])) as [->|Hne].
    - split; [reflexivity|]. intros _. unfold hide.
      cbn [toast toast_title toast_sub timeouts].
      repeat split. apply clearTimeout_single.
    - split; [exact Hs|]. intros E. contradiction. }
  unfold p', changeMode.
  destruct next; cbn [Mode_eqb andb];
    rewrite (showToast_tidy fresh _ _ _ _ Hf (setMode_tidy _ p Ht));
    try destruct vib; unfold vibrate;
    cbn [view toast timer_current timeouts vibrations setMode mode myMbti me
         spots toast_show];
    (split; [repeat split|]); (split; [reflexivity|]);
    (split; [|reflexivity]);
    exists (fresh []); (split; [reflexivity|]); (split; [reflexivity|]);
    match goal with
    | |- context [elapse _ (mkPage ?v ?t _ _ ?vs)] =>
        pose proof (fun h' => Hel h' v t vs eq_refl) as Hq; cbv zeta in Hq
    end;
    (split; [intros h'; apply (Hq h')|]);
    destruct (Hq (fresh [])) as [_ Hq2]; destruct (Hq2 eq_refl) as (A & B & C);
    repeat split; assumption.
Qed.

Lemma changeMode_toast_witness :
  let p := run next_handle true (initial_page (tag "INTJ") [])
             [Chosen near; GeolocationError true] in
  let p' := changeMode next_handle true mode_3m p in
  (mode (view p') = mode_3m /\ myMbti (view p') = myMbti (view p)
   /\ me (view p') = me (view p) /\ spots (view p') = spots (view p))
  /\ toast_show (toast p') = true
  /\ (exists h,
        timer_current p' = Some h /\ timeouts p' = [mkTimeout h 1500]
        /\ (forall h',
              toast_show (toast (elapse h' p')) = negb (h' =? h))
        /\ toast_title (toast (elapse h p')) = toast_title (toast p')
        /\ toast_sub (toast (elapse h p')) = toast_sub (toast p')
        /\ timeouts (elapse h p') = [])
  /\ vibrations p'
     = (if Mode_eqb mode_3m mode_3m && true
        then [40; 30; 40] :: vibrations p else vibrations p).
Proof.
  apply (changeMode_toast next_handle true (tag "INTJ") []
           [Chosen near; GeolocationError true] mode_3m).
  intros l. unfold next_handle.
  assert (0 <= fold_right Z.max 0 (map handle l)) as H
      by (induction l as [|t l IH]; simpl; lia).
  lia.
Defined.

(** ** Rounding to nearest is monotone *)

Lemma shr_1_describes (mrs : shr_record) (N D : Z) :
  0 <= shr_m mrs -> 0 < D -> describes mrs N D ->
  describes (shr_1 mrs) N (2 * D).
Proof.
  unfold describes. destruct mrs as [m r s]. cbn [shr_m shr_r shr_s].
  intros Hm HD (Hrem & Hr & Hs).
  assert (r || s = true <-> N - m * D <> 0) as Hrs.
  { rewrite orb_true_iff, Hr, Hs. lia. }
  destruct m as [|[p|p|]|p]; try lia; cbn [shr_1 shr_m shr_r shr_s].
  - rewrite Hrs. split; [lia|]. split; [split; [discriminate|lia]|]. lia.
  - change (Zpos p~1) with (2 * Zpos p + 1) in *.
    rewrite Hrs. split; [lia|]. split; [split; [lia|reflexivity]|]. lia.
  - change (Zpos p~0) with (2 * Zpos p) in *.
    rewrite Hrs. split; [lia|]. split; [split; [discriminate|lia]|]. lia.
  - rewrite Hrs. split; [lia|]. split; [split; [lia|reflexivity]|]. lia.
Qed.

Lemma iter_describes (p : positive) (N : Z) :
  forall (mrs : shr_record) (D : Z),
    0 <= shr_m mrs -> 0 < D -> describes mrs N D ->
    describes (iter_pos shr_1 p mrs) N (2 ^ Zpos p * D).
Proof.
  induction p as [p IH|p IH|]; intros mrs D Hm HD Hd; simpl iter_pos.
  - pose proof (shr_1_m mrs Hm) as H1.
    assert (0 <= shr_m (shr_1 mrs)) as Hm1 by (rewrite H1; apply Z.div_pos; lia).
    destruct (iter_shr_1 p _ Hm1) as [H2 _].
    assert (0 <= shr_m (iter_pos shr_1 p (shr_1 mrs))) as Hm2
        by (rewrite H2; apply Z.div_pos; lia).
    assert (0 < 2 ^ Zpos p) as Hp by (apply pow2_pos; lia).
    change (Zpos p~1) with (2 * Zpos p + 1).
    replace (2 * Zpos p + 1) with (Zpos p + (Zpos p + 1)) by lia.
    rewrite !pow2_split, Z.pow_1_r by lia.
    replace (2 ^ Zpos p * (2 ^ Zpos p * 2) * D)
      with (2 ^ Zpos p * (2 ^ Zpos p * (2 * D))) by ring.
    apply IH; [exact Hm2|nia|]. apply IH; [exact Hm1|lia|].
    apply shr_1_describes; assumption.
  - destruct (iter_shr_1 p _ Hm) as [H2 _].
    assert (0 <= shr_m (iter_pos shr_1 p mrs)) as Hm2
        by (rewrite H2; apply Z.div_pos; lia).
    assert (0 < 2 ^ Zpos p) as Hp by (apply pow2_pos; lia).
    change (Zpos p~0) with (2 * Zpos p).
    replace (2 * Zpos p) with (Zpos p + Zpos p) by lia.
    rewrite !pow2_split by lia.
    rewrite <- Z.mul_assoc.
    apply IH; [exact Hm2|nia|]. apply IH; assumption.
  - rewrite Z.pow_1_r. apply shr_1_describes; assumption.
Qed.

Lemma shr_record_of_loc_m (m : Z) (l : location) :
  shr_m (shr_record_of_loc m l) = m.
Proof. destruct l as [|[| |]]; reflexivity. Qed.

(** The first shift of [binary_round_aux], from any location. *)
Lemma first_shift_gen (mx ex : Z) (l : location) (N D : Z) :
  0 <= mx -> 0 < D -> describes (shr_record_of_loc mx l) N D ->
  exists mrs e',
    shr_fexp prec emax mx ex l = (mrs, e')
    /\ ex <= e' /\ -1074 <= e' /\ 0 <= shr_m mrs < 2 ^ 53
    /\ describes mrs N (2 ^ (e' - ex) * D)
    /\ ((e' = ex /\ shr_m mrs = mx) \/ e' = -1074 \/ 2 ^ 52 <= shr_m mrs).
Proof.
  intros Hm HD Hd.
  assert (mx < 2 ^ Zdigits2 mx /\ (0 < mx -> 2 ^ (Zdigits2 mx - 1) <= mx
                                              /\ 0 < Zdigits2 mx)) as Hdig.
  { destruct (Z.eq_dec mx 0) as [->|Hne]; [simpl; lia|].
    pose proof (Zdigits2_bounds mx ltac:(lia)).
    pose proof (Zdigits2_pos mx ltac:(lia)). lia. }
  assert (0 <= Zdigits2 mx) as Hd0.
  { destruct mx; simpl; lia. }
  unfold shr_fexp, shr. rewrite fexp_eq.
  set (d := Zdigits2 mx) in *.
  pose proof (shr_record_of_loc_m mx l) as Hrm.
  destruct (Z.max (d + ex - 53) (-1074) - ex) as [|p|p] eqn:En.
  - exists (shr_record_of_loc mx l), ex.
    split; [reflexivity|]. rewrite Hrm, Z.sub_diag, Z.pow_0_r, Z.mul_1_l.
    assert (2 ^ d <= 2 ^ 53) by (apply pow2_le; lia).
    split; [lia|]. split; [lia|]. split; [lia|]. split; [exact Hd|].
    left; split; reflexivity.
  - set (n := Zpos p) in *.
    assert (0 <= shr_m (shr_record_of_loc mx l)) as Hm' by (rewrite Hrm; exact Hm).
    destruct (iter_shr_1 p _ Hm') as [H1 _]. rewrite Hrm in H1. fold n in H1.
    pose proof (iter_describes p N _ D Hm' HD Hd) as Hd'. fold n in Hd'.
    assert (0 < 2 ^ n) as Hpn by (apply pow2_pos; lia).
    exists (iter_pos shr_1 p (shr_record_of_loc mx l)), (ex + n).
    split; [reflexivity|].
    replace (ex + n - ex) with n by lia.
    rewrite H1.
    assert (0 <= mx / 2 ^ n) as Hlo0 by (apply Z.div_pos; lia).
    assert (mx / 2 ^ n < 2 ^ 53) as Hlo53.
    { apply Z.div_lt_upper_bound; [exact Hpn|].
      rewrite <- pow2_split by lia.
      assert (2 ^ d <= 2 ^ (n + 53)) by (apply pow2_le; lia). lia. }
    split; [lia|]. split; [lia|]. split; [lia|]. split; [exact Hd'|].
    destruct (Z_le_gt_dec (-1074) (d + ex - 53)) as [Hnorm|Hsub].
    + right. right. apply Z.div_le_lower_bound; [exact Hpn|].
      rewrite <- pow2_split by lia.
      assert (0 < mx).
      { destruct (Z.eq_dec mx 0) as [E|]; [|lia]. subst mx. simpl in d. lia. }
      replace (n + 52) with (d - 1) by lia. lia.
    + right. left. lia.
  - exists (shr_record_of_loc mx l), ex.
    split; [reflexivity|]. rewrite Hrm, Z.sub_diag, Z.pow_0_r, Z.mul_1_l.
    assert (2 ^ d <= 2 ^ 53) by (apply pow2_le; lia).
    split; [lia|]. split; [lia|]. split; [lia|]. split; [exact Hd|].
    left; split; reflexivity.
Qed.

(** What [round_nearest_even] decides on a record that describes [N / D]. *)
Lemma round_decision (mrs : shr_record) (N D : Z) :
  0 < D -> describes mrs N D ->
  let lo := shr_m mrs in
  let m2 := round_nearest_even lo (loc_of_shr_record mrs) in
  (m2 = lo
   /\ (2 * N < (2 * lo + 1) * D
       \/ (2 * N = (2 * lo + 1) * D /\ Z.even lo = true)))
  \/ (m2 = lo + 1
      /\ ((2 * lo + 1) * D < 2 * N
          \/ (2 * N = (2 * lo + 1) * D /\ Z.even lo = false))).
Proof.
  unfold describes. destruct mrs as [m r s]. cbn [shr_m shr_r shr_s].
  intros HD (Hrem & Hr & Hs).
  destruct r, s; cbn [loc_of_shr_record round_nearest_even].
  - right. split; [reflexivity|left]. lia.
  - assert (2 * (N - m * D) = D) by lia.
    destruct (Z.even m) eqn:Ev; [left|right]; (split; [reflexivity|right]);
      (split; [lia|reflexivity]).
  - left. split; [reflexivity|left]. lia.
  - left. split; [reflexivity|left]. lia.
Qed.

Lemma V_lt_top (m e : Z) :
  0 <= m < 2 ^ 53 -> - bias <= e <= 971 -> V m e < top.
Proof.
  intros Hm He. unfold V, top.
  replace (1024 + bias) with (53 + (971 + bias)) by lia.
  rewrite (pow2_split 53 (971 + bias)) by (unfold bias; lia).
  assert (0 < 2 ^ (e + bias)) by (apply pow2_pos; lia).
  assert (2 ^ (e + bias) <= 2 ^ (971 + bias)) by (apply pow2_le; lia).
  assert (0 < 2 ^ 53) by lia. nia.
Qed.

Lemma V_ge_top (m e : Z) : 2 ^ 52 <= m -> 971 < e -> top <= V m e.
Proof.
  intros Hm He. unfold V, top.
  replace (1024 + bias) with (52 + (972 + bias)) by lia.
  rewrite (pow2_split 52 (972 + bias)) by (unfold bias; lia).
  assert (2 ^ (972 + bias) <= 2 ^ (e + bias))
    by (apply pow2_le; unfold bias; lia).
  assert (0 < 2 ^ (972 + bias)) by (apply pow2_pos; unfold bias; lia).
  apply Z.mul_le_mono_nonneg; lia.
Qed.

Lemma V_nonneg (m e : Z) : 0 <= m -> 0 <= V m e.
Proof. intros Hm. unfold V. pose proof (Z.pow_nonneg 2 (e + bias)). nia. Qed.

(** [binary_round_aux] rounds the quotient its arguments describe to
    nearest, ties to even. *)
Lemma round_nearest_spec (mx ex : Z) (l : location) (N D : Z) :
  0 <= mx -> 0 < D -> - bias <= ex ->
  describes (shr_record_of_loc mx l) N D ->
  ((N = mx * D /\ ex <= 971) \/ ex <= -1074 \/ 2 ^ 52 <= mx) ->
  rounds_to (V N ex) D (binary_round_aux prec emax false mx ex l).
Proof.
  intros Hm HD Hex Hd Hin.
  destruct (first_shift_gen mx ex l N D Hm HD Hd)
    as (mrs & e' & Hs1 & Hee & He' & Hlo & Hd' & Hreg).
  unfold binary_round_aux. rewrite Hs1.
  set (lo := shr_m mrs) in *.
  set (Sh := 2 ^ (e' - ex)) in *.
  set (P := 2 ^ (ex + bias)).
  assert (0 < Sh) as HS by (apply pow2_pos; lia).
  assert (0 < P) as HP by (apply pow2_pos; lia).
  assert (0 < Sh * D) as HSD by nia.
  assert (forall k, V k e' = k * Sh * P) as HV.
  { intros k. unfold V, Sh, P.
    replace (e' + bias) with ((e' - ex) + (ex + bias)) by lia.
    rewrite pow2_split by lia. ring. }
  assert ((V lo e' + V (lo + 1) e') * D = ((2 * lo + 1) * (Sh * D)) * P) as HM
      by (rewrite !HV; ring).
  assert (2 * V N ex = (2 * N) * P) as HX by (unfold V; fold P; ring).
  assert (V lo e' * D = (lo * (Sh * D)) * P) as HA by (rewrite HV; ring).
  assert (V (lo + 1) e' * D = ((lo + 1) * (Sh * D)) * P) as HB
      by (rewrite HV; ring).
  assert (V N ex = N * P) as HN by reflexivity.
  pose proof (round_decision mrs N (Sh * D) HSD Hd') as Hdec.
  cbv zeta in Hdec. fold lo in Hdec.
  set (m2 := round_nearest_even lo (loc_of_shr_record mrs)) in *.
  destruct Hd' as (Hrem & _). fold lo in Hrem.
  assert (m2 = lo \/ m2 = lo + 1) as Hm2 by (destruct Hdec as [[? _]|[? _]]; auto).
  destruct (second_shift m2 e' ltac:(lia) He') as (mrs2 & e2 & Hs2 & Hcase).
  rewrite Hs2.
  exists (V m2 e'), lo, e'.
  split; [exact He'|]. split; [exact Hlo|].
  split.
  { rewrite HA, HB, HN. split.
    - apply Z.mul_le_mono_nonneg_r; lia.
    - apply Z.mul_lt_mono_pos_r; lia. }
  split.
  { rewrite HM, HX.
    destruct Hdec as [[-> [Hl|[He Hev]]]|[-> [Hl|[He Hev]]]]; [left|left|right|right];
      (split; [reflexivity|]).
    - left. apply Z.mul_lt_mono_pos_r; lia.
    - right. split; [rewrite He; reflexivity|exact Hev].
    - left. apply Z.mul_lt_mono_pos_r; lia.
    - right. split; [rewrite He; reflexivity|exact Hev]. }
  split.
  { destruct Hreg as [[E1 E2]|[E|E]]; [|right; left; exact E|right; right; exact E].
    destruct Hin as [[-> _]|[Hsub|Hbig]].
    - left. rewrite HA, HN. unfold Sh. rewrite E1, Z.sub_diag, Z.pow_0_r.
      rewrite E2. f_equal. ring.
    - right. left. lia.
    - right. right. lia. }
  assert (971 < e' -> 2 ^ 52 <= lo) as Hover.
  { intros Hgt. destruct Hreg as [[E1 E2]|[E|E]]; [|lia|exact E].
    destruct Hin as [[_ Hle]|[Hsub|Hbig]]; lia. }
  change (emax - prec) with 971.
  destruct Hcase as [(Hlt & -> & ->)|(E53 & -> & ->)].
  - destruct m2 as [|p|p] eqn:Ep; [left; split; reflexivity|right|lia].
    destruct (Z.leb_spec e' 971) as [Hle|Hgt].
    + left. exists p, e'. split; [reflexivity|]. split; [reflexivity|].
      apply V_lt_top; unfold bias; lia.
    + right. split; [reflexivity|].
      apply V_ge_top; [|exact Hgt]. specialize (Hover Hgt). lia.
  - change (2 ^ 52) with (Zpos (2 ^ 52)%positive).
    assert (V m2 e' = V (Zpos (2 ^ 52)) (e' + 1)) as EV.
    { rewrite E53. unfold V.
      replace (e' + 1 + bias) with (1 + (e' + bias)) by lia.
      rewrite (pow2_split 1 (e' + bias)) by (unfold bias; lia).
      change (Zpos (2 ^ 52)) with (2 ^ 52). change (2 ^ 53) with (2 ^ 52 * 2 ^ 1).
      ring. }
    destruct (Z.leb_spec (e' + 1) 971) as [Hle|Hgt]; right.
    + left. exists (2 ^ 52)%positive, (e' + 1). split; [reflexivity|].
      split; [symmetry; exact EV|].
      rewrite EV. apply V_lt_top; [|unfold bias; lia].
      change (Zpos (2 ^ 52)) with (2 ^ 52). lia.
    + right. split; [reflexivity|]. rewrite EV.
      apply V_ge_top; [|lia]. change (Zpos (2 ^ 52)) with (2 ^ 52). lia.
Qed.

(** No number of at most 53 bits lies strictly inside a cell of a
    canonical grid. *)
Lemma grid_gap_gen (k e lo e' : Z) :
  0 <= k <= 2 ^ 53 -> -1074 <= e -> -1074 <= e' -> 0 <= lo ->
  (e' = -1074 \/ 2 ^ 52 <= lo) ->
  V lo e' < V k e -> V (lo + 1) e' <= V k e.
Proof.
  intros Hk He He' Hlo Hreg Hlt.
  destruct (Z_lt_ge_dec e e') as [Hee|Hee].
  - exfalso. destruct Hreg as [->|Hbig]; [lia|].
    rewrite (V_shift lo e' e) in Hlt by (unfold bias; lia).
    assert (2 ^ 1 <= 2 ^ (e' - e)) by (apply pow2_le; lia).
    change (2 ^ 1) with 2 in *.
    change (2 ^ 53) with (2 ^ 52 * 2) in Hk.
    assert (0 < 2 ^ 52) by (apply pow2_pos; lia).
    assert (lo * 2 ^ (e' - e) < k) as Hc.
    { destruct (Z_lt_ge_dec (lo * 2 ^ (e' - e)) k) as [|Hge]; [assumption|].
      apply Z.ge_le in Hge. apply (V_mono _ _ e) in Hge; [|unfold bias; lia].
      lia. }
    nia.
  - rewrite (V_shift k e e') in * by (unfold bias; lia).
    apply V_mono; [unfold bias; lia|].
    assert (lo < k * 2 ^ (e - e')); [|lia].
    destruct (Z_lt_ge_dec lo (k * 2 ^ (e - e'))) as [|Hge]; [assumption|].
    apply Z.ge_le in Hge. apply (V_mono _ _ e') in Hge; [lia|unfold bias; lia].
Qed.

Lemma top_pos : 0 < top.
Proof. unfold top. apply pow2_pos. unfold bias. lia. Qed.

Lemma rank_of_reading (f : spec_float) (cv : Z) :
  reading f cv -> rank f = Z.min cv top /\ f <> S754_nan.
Proof.
  pose proof top_pos.
  intros [[-> ->]|[(m & e & -> & <- & Hlt)|[-> Hge]]]; cbn [rank];
    (split; [|discriminate]).
  - lia.
  - lia.
  - fold top. lia.
Qed.

Lemma cell_inj (lo1 e1 lo2 e2 : Z) :
  - bias <= e1 -> - bias <= e2 ->
  V lo1 e1 = V lo2 e2 -> V (lo1 + 1) e1 = V (lo2 + 1) e2 -> lo1 = lo2.
Proof.
  intros H1 H2 Ea Eb. rewrite !V_add in Eb.
  assert (V 1 e1 = V 1 e2) as E by lia.
  unfold V in E. rewrite !Z.mul_1_l in E.
  apply Z.pow_inj_r in E; [|lia|lia|lia].
  assert (e1 = e2) by lia. subst e2.
  apply Z.le_antisymm; apply (V_mono _ _ e1); lia.
Qed.

Lemma scaled_lt (u v D : Z) : 0 < D -> u * D < v * D -> u < v.
Proof. intros HD H. apply (Z.mul_lt_mono_pos_r D); assumption. Qed.

Lemma scaled_le (u v D : Z) : 0 < D -> u <= v -> u * D <= v * D.
Proof. intros HD H. apply Z.mul_le_mono_nonneg_r; lia. Qed.

(** Rounding to nearest is monotone. *)
Lemma round_mono (X1 X2 D : Z) (f1 f2 : spec_float) :
  0 < D -> rounds_to X1 D f1 -> rounds_to X2 D f2 -> X1 <= X2 ->
  rank f1 <= rank f2.
Proof.
  intros HD (cv1 & lo1 & e1 & He1 & Hlo1 & Hc1 & Hcv1 & Hreg1 & Hr1)
            (cv2 & lo2 & e2 & He2 & Hlo2 & Hc2 & Hcv2 & Hreg2 & Hr2) Hle.
  destruct (rank_of_reading _ _ Hr1) as [-> _].
  destruct (rank_of_reading _ _ Hr2) as [-> _].
  assert (cv1 <= cv2); [|lia]. clear Hr1 Hr2.
  pose proof (fun k ke (Hk : 0 <= k <= 2 ^ 53) (Hke : -1074 <= ke) Hreg =>
                grid_gap_gen k ke lo1 e1 Hk Hke He1 (proj1 Hlo1) Hreg) as G1.
  pose proof (fun k ke (Hk : 0 <= k <= 2 ^ 53) (Hke : -1074 <= ke) Hreg =>
                grid_gap_gen k ke lo2 e2 Hk Hke He2 (proj1 Hlo2) Hreg) as G2.
  pose proof (fun Hreg => G1 lo2 e2 ltac:(lia) He2 Hreg) as G1a.
  pose proof (fun Hreg => G1 (lo2 + 1) e2 ltac:(lia) He2 Hreg) as G1b.
  pose proof (fun Hreg => G2 lo1 e1 ltac:(lia) He1 Hreg) as G2a.
  pose proof (fun Hreg => G2 (lo1 + 1) e1 ltac:(lia) He1 Hreg) as G2b.
  clear G1 G2.
  pose proof (cell_inj lo1 e1 lo2 e2 ltac:(unfold bias; lia)
                ltac:(unfold bias; lia)) as Hinj.
  remember (V lo1 e1) as a1 eqn:Ea1. remember (V (lo1 + 1) e1) as b1 eqn:Eb1.
  remember (V lo2 e2) as a2 eqn:Ea2. remember (V (lo2 + 1) e2) as b2 eqn:Eb2.
  clear Ea1 Eb1 Ea2 Eb2 He1 He2 Hlo1 Hlo2.
  assert ((a1 + b1) * D = a1 * D + b1 * D) as M1 by ring.
  assert ((a2 + b2) * D = a2 * D + b2 * D) as M2 by ring.
  rewrite M1 in Hcv1. rewrite M2 in Hcv2. clear M1 M2.
  assert (a1 < b1) as Hab1
      by (apply (scaled_lt _ _ D HD); clear - Hc1; lia).
  assert (a2 < b2) as Hab2
      by (apply (scaled_lt _ _ D HD); clear - Hc2; lia).
  assert (a1 < b2) as Hab12
      by (apply (scaled_lt _ _ D HD); clear - Hc1 Hc2 Hle; lia).
  assert (a1 * D = X1 ->
          ~ (a1 * D + b1 * D < 2 * X1
             \/ (2 * X1 = a1 * D + b1 * D /\ Z.even lo1 = false))) as Hex1
      by (clear - Hc1; intros E [T|[T _]]; lia).
  destruct Hcv1 as [[-> T1]|[-> T1]]; destruct Hcv2 as [[-> T2]|[-> T2]].
  - destruct (Z_le_gt_dec a1 a2) as [|Hgt]; [assumption|exfalso].
    apply Z.gt_lt in Hgt.
    destruct Hreg2 as [E|Hreg2].
    + pose proof (scaled_le (Z.succ a2) a1 D HD (proj2 (Z.le_succ_l _ _) Hgt)).
      clear - H Hc1 Hc2 E Hle HD. lia.
    + pose proof (scaled_le b2 a1 D HD (G2a Hreg2 Hgt)).
      clear - H Hc1 Hc2 Hle. lia.
  - apply Z.lt_le_incl. exact Hab12.
  - destruct (Z_le_gt_dec b1 a2) as [|Hgt]; [assumption|exfalso].
    destruct Hreg1 as [E|Hreg1]; [exact (Hex1 E T1)|].
    destruct (Z_lt_ge_dec a1 a2) as [Hlt|Hge].
    { pose proof (G1a Hreg1 Hlt). clear - H Hgt. lia. }
    apply Z.ge_le in Hge.
    pose proof (scaled_le a2 a1 D HD Hge) as Hs.
    destruct Hreg2 as [E|Hreg2].
    { apply (fun E' => Hex1 E' T1). clear - Hs E Hc1 Hle. lia. }
    destruct (Z.eq_dec a1 a2) as [Ea|Hne].
    + assert (a2 < b1) as Hab21 by (clear - Ea Hab1; lia).
      pose proof (G2b Hreg2 Hab21). pose proof (G1b Hreg1 Hab12).
      assert (b1 = b2) as Eb by (clear - H H0; lia).
      specialize (Hinj Ea Eb). subst lo2 a2 b2.
      clear - T1 T2 Hle.
      destruct T1 as [T1|[Q1 T1]]; destruct T2 as [T2|[Q2 T2]]; try lia.
      congruence.
    + assert (a2 < a1) as Hlt by (clear - Hge Hne; lia).
      pose proof (scaled_le b2 a1 D HD (G2a Hreg2 Hlt)).
      clear - H Hc1 Hc2 Hle. lia.
  - destruct (Z_le_gt_dec b1 b2) as [|Hgt]; [assumption|exfalso].
    destruct Hreg1 as [E|Hreg1]; [exact (Hex1 E T1)|].
    pose proof (G1b Hreg1 Hab12). clear - H Hgt. lia.
Qed.

(** A canonical number is its own rounding. *)
Lemma rounds_to_self (m : positive) (e : Z) :
  bounded prec emax m e = true ->
  rounds_to (V (Zpos m) e) 1 (S754_finite false m e).
Proof.
  intros Hb. pose proof (bounded_inv m e Hb) as (He & Hm & Hreg).
  exists (V (Zpos m) e), (Zpos m), e.
  pose proof (V_finite_lt m e Hb) as Hf. fold top in Hf.
  assert (V (Zpos m) e < V (Zpos m + 1) e) as Hlt.
  { rewrite V_add. unfold V at 3. rewrite Z.mul_1_l.
    assert (0 < 2 ^ (e + bias)) by (apply pow2_pos; unfold bias; lia). lia. }
  split; [lia|]. split; [lia|]. split; [lia|].
  split; [left; split; [reflexivity|left; lia]|].
  split; [left; lia|].
  right. left. exists m, e. repeat split. lia.
Qed.

(** ** Numbers of either sign *)

Lemma binary_round_aux_opp (sx : bool) (mx ex : Z) (l : location) :
  binary_round_aux prec emax (negb sx) mx ex l
  = SFopp (binary_round_aux prec emax sx mx ex l).
Proof.
  unfold binary_round_aux.
  destruct (shr_fexp prec emax mx ex l) as [mrs' e'].
  destruct (shr_fexp prec emax _ e' loc_Exact) as [mrs'' e''].
  destruct (shr_m mrs''); try reflexivity.
  destruct (e'' <=? emax - prec); reflexivity.
Qed.

Lemma rank_opp (f : spec_float) : rank (SFopp f) = - rank f.
Proof. destruct f as [[|]|[|]| |[|] m e]; cbn [SFopp rank negb]; lia. Qed.

Lemma SFopp_involutive (f : spec_float) : SFopp (SFopp f) = f.
Proof. destruct f as [[|]|[|]| |[|] m e]; reflexivity. Qed.

Lemma rounds_to_rank (X D : Z) (f : spec_float) :
  rounds_to X D f -> 0 <= rank f /\ f <> S754_nan.
Proof.
  intros (cv & lo & e' & He' & Hlo & _ & Hcv & _ & Hr).
  destruct (rank_of_reading _ _ Hr) as [-> Hn]. split; [|exact Hn].
  pose proof top_pos.
  pose proof (V_nonneg lo e' ltac:(lia)).
  pose proof (V_nonneg (lo + 1) e' ltac:(lia)).
  destruct Hcv as [[-> _]|[-> _]]; lia.
Qed.

Lemma srounds_not_nan (X D : Z) (f : spec_float) :
  srounds X D f -> f <> S754_nan.
Proof.
  intros [[_ [sg ->]]|[[_ H]|[_ H]]]; [discriminate| |].
  - apply (rounds_to_rank _ _ _ H).
  - intros ->. apply (rounds_to_rank _ _ _ H). reflexivity.
Qed.

Lemma srounds_sign (X D : Z) (f : spec_float) :
  srounds X D f -> (0 <= X -> 0 <= rank f) /\ (X <= 0 -> rank f <= 0).
Proof.
  intros [[-> [sg ->]]|[[HX H]|[HX H]]].
  - cbn [rank]. lia.
  - pose proof (rounds_to_rank _ _ _ H). lia.
  - pose proof (rounds_to_rank _ _ _ H) as [Hr _]. rewrite rank_opp in Hr. lia.
Qed.

(** Rounding to nearest is monotone on quotients of either sign. *)
Lemma srounds_mono (X1 X2 D : Z) (f1 f2 : spec_float) :
  0 < D -> srounds X1 D f1 -> srounds X2 D f2 -> X1 <= X2 ->
  rank f1 <= rank f2.
Proof.
  intros HD H1 H2 Hle.
  pose proof (srounds_sign _ _ _ H1) as [P1 N1].
  pose proof (srounds_sign _ _ _ H2) as [P2 N2].
  destruct H1 as [[E1 _]|[[HX1 R1]|[HX1 R1]]];
    destruct H2 as [[E2 _]|[[HX2 R2]|[HX2 R2]]]; try lia.
  - apply (round_mono X1 X2 D); assumption.
  - pose proof (round_mono (- X2) (- X1) D _ _ HD R2 R1 ltac:(lia)) as H.
    rewrite !rank_opp in H. lia.
Qed.

Lemma srounds_self (f : spec_float) :
  valid_binary f = true -> finite_sf f = true -> srounds (rank f) 1 f.
Proof.
  destruct f as [sg| | |sg m e]; try discriminate; intros Hv _.
  - left. split; [reflexivity|]. exists sg. reflexivity.
  - cbn [valid_binary] in Hv. pose proof (V_finite_lt m e Hv) as Hpos.
    destruct sg; cbn [rank].
    + right. right. split; [lia|]. rewrite Z.opp_involutive.
      apply rounds_to_self. exact Hv.
    + right. left. split; [lia|]. apply rounds_to_self. exact Hv.
Qed.

Lemma describes_exact (m : Z) :
  describes (shr_record_of_loc m loc_Exact) m 1.
Proof.
  unfold describes. cbn [shr_record_of_loc shr_m shr_r shr_s].
  split; [lia|]. split; split; try discriminate; lia.
Qed.

Lemma normalize_srounds (z ez : Z) :
  - bias <= ez <= 971 ->
  srounds (V z ez) 1 (binary_normalize prec emax z ez false).
Proof.
  intros Hez.
  assert (forall p : positive,
            rounds_to (V (Zpos p) ez) 1 (binary_round prec emax false p ez)
            /\ binary_round prec emax false p ez
               = SFopp (binary_round prec emax true p ez)) as Hr.
  { intros p. unfold binary_round.
    pose proof (shl_align_spec p ez (fexp prec emax (Zpos (digits2_pos p) + ez)))
      as Hal.
    rewrite fexp_eq in *.
    destruct (shl_align p ez (Z.max (Zpos (digits2_pos p) + ez - 53) (-1074)))
      as [mz ez'].
    simpl fst in Hal; simpl snd in Hal.
    destruct Hal as [Hv He]; [unfold bias in *; lia|].
    split.
    - rewrite <- Hv.
      apply round_nearest_spec; try lia.
      + unfold bias in *; lia.
      + apply describes_exact.
    - apply (binary_round_aux_opp true). }
  unfold binary_normalize. destruct z as [|p|p].
  - left. split; [reflexivity|]. exists false. reflexivity.
  - right. left. destruct (Hr p) as [H _]. split; [|exact H].
    unfold V. assert (0 < 2 ^ (ez + bias)) by (apply pow2_pos; lia). nia.
  - right. right. destruct (Hr p) as [H E].
    assert (- V (Zneg p) ez = V (Zpos p) ez) as EV by (unfold V; lia).
    rewrite EV, <- E. split; [|exact H].
    unfold V. assert (0 < 2 ^ (ez + bias)) by (apply pow2_pos; lia). nia.
Qed.

(** ** The four operations round to nearest *)

Lemma V_cond_Zopp (sg : bool) (m : positive) (e : Z) :
  V (cond_Zopp sg (Zpos m)) e = rank (S754_finite sg m e).
Proof. destruct sg; cbn [cond_Zopp rank]; unfold V; lia. Qed.

Lemma aligned_rank (sg : bool) (m : positive) (e ez : Z) :
  - bias <= ez <= e ->
  V (cond_Zopp sg (Zpos (fst (shl_align m e ez)))) ez
  = rank (S754_finite sg m e).
Proof.
  intros H. rewrite V_cond_Zopp. destruct sg; cbn [rank];
    rewrite (shl_align_fst m e ez H); reflexivity.
Qed.

Lemma SFadd_srounds (x y : spec_float) :
  valid_binary x = true -> valid_binary y = true ->
  finite_sf x = true -> finite_sf y = true ->
  srounds (rank x + rank y) 1 (SF64add x y).
Proof.
  intros Vx Vy Fx Fy.
  destruct x as [sx| | |sx mx ex]; try discriminate;
    destruct y as [sy| | |sy my ey]; try discriminate.
  - left. split; [reflexivity|]. destruct sx, sy; eexists; reflexivity.
  - change (SF64add (S754_zero sx) (S754_finite sy my ey))
      with (S754_finite sy my ey).
    cbn [rank]. rewrite Z.add_0_l. apply (srounds_self _ Vy Fy).
  - change (SF64add (S754_finite sx mx ex) (S754_zero sy))
      with (S754_finite sx mx ex).
    change (rank (S754_zero sy)) with 0. rewrite Z.add_0_r.
    apply (srounds_self _ Vx Fx).
  - cbn [valid_binary] in Vx, Vy.
    pose proof (bounded_inv _ _ Vx) as (Hr1 & _).
    pose proof (bounded_inv _ _ Vy) as (Hr2 & _).
    unfold SF64add, SFadd. cbv zeta.
    set (ez := Z.min ex ey).
    rewrite <- (aligned_rank sx mx ex ez) by (unfold bias; lia).
    rewrite <- (aligned_rank sy my ey ez) by (unfold bias; lia).
    rewrite <- V_add. apply normalize_srounds. unfold bias; lia.
Qed.

Lemma SFsub_srounds (x y : spec_float) :
  valid_binary x = true -> valid_binary y = true ->
  finite_sf x = true -> finite_sf y = true ->
  srounds (rank x - rank y) 1 (SF64sub x y).
Proof.
  intros Vx Vy Fx Fy.
  destruct x as [sx| | |sx mx ex]; try discriminate;
    destruct y as [sy| | |sy my ey]; try discriminate.
  - left. split; [reflexivity|]. destruct sx, sy; eexists; reflexivity.
  - change (SF64sub (S754_zero sx) (S754_finite sy my ey))
      with (S754_finite (negb sy) my ey).
    replace (rank (S754_zero sx) - rank (S754_finite sy my ey))
      with (rank (S754_finite (negb sy) my ey))
      by (destruct sy; cbn [rank negb]; lia).
    apply srounds_self; [exact Vy|reflexivity].
  - change (SF64sub (S754_finite sx mx ex) (S754_zero sy))
      with (S754_finite sx mx ex).
    change (rank (S754_zero sy)) with 0. rewrite Z.sub_0_r.
    apply (srounds_self _ Vx Fx).
  - cbn [valid_binary] in Vx, Vy.
    pose proof (bounded_inv _ _ Vx) as (Hr1 & _).
    pose proof (bounded_inv _ _ Vy) as (Hr2 & _).
    unfold SF64sub, SFsub. cbv zeta.
    set (ez := Z.min ex ey).
    rewrite <- (aligned_rank sx mx ex ez) by (unfold bias; lia).
    rewrite <- (aligned_rank sy my ey ez) by (unfold bias; lia).
    rewrite <- V_sub. apply normalize_srounds. unfold bias; lia.
Qed.

Lemma SFmul_srounds (x y : spec_float) :
  valid_binary x = true -> valid_binary y = true ->
  finite_sf x = true -> finite_sf y = true ->
  exists X,
    X * 2 ^ bias = rank x * rank y /\ srounds X 1 (SF64mul x y).
Proof.
  intros Vx Vy Fx Fy.
  destruct x as [sx| | |sx mx ex]; try discriminate;
    destruct y as [sy| | |sy my ey]; try discriminate;
    try (exists 0; split; [cbn [rank]; lia|];
         left; split; [reflexivity|]; eexists; reflexivity).
  cbn [valid_binary] in Vx, Vy.
  pose proof (bounded_inv _ _ Vx) as (Hr1 & Hm1 & Hg1).
  pose proof (bounded_inv _ _ Vy) as (Hr2 & Hm2 & Hg2).
  pose proof (V_scale (Zpos mx) (Zpos my) ex ey
                ltac:(unfold bias; lia) ltac:(unfold bias; lia)
                ltac:(unfold bias; lia)) as Hs.
  assert (0 < V (Zpos mx * Zpos my) (ex + ey)) as Hpos.
  { unfold V. assert (0 < 2 ^ (ex + ey + bias))
      by (apply pow2_pos; unfold bias; lia). nia. }
  assert (rounds_to (V (Zpos mx * Zpos my) (ex + ey)) 1
            (binary_round_aux prec emax false (Zpos (mx * my)) (ex + ey)
               loc_Exact)) as Hr.
  { change (Zpos (mx * my)) with (Zpos mx * Zpos my).
    apply round_nearest_spec;
      [lia|lia|unfold bias; lia|apply describes_exact|].
    destruct Hg1 as [E|B1]; [left; lia|].
    destruct Hg2 as [E|B2]; [left; lia|].
    right. right.
    assert (2 ^ 52 * 2 ^ 52 <= Zpos mx * Zpos my)
      by (apply Z.mul_le_mono_nonneg; lia).
    assert (0 < 2 ^ 52) by (apply pow2_pos; lia). nia. }
  unfold SF64mul, SFmul.
  destruct (xorb sx sy) eqn:Exor.
  - exists (- V (Zpos mx * Zpos my) (ex + ey)). split.
    + destruct sx, sy; try discriminate; cbn [rank]; lia.
    + right. right. split; [lia|]. rewrite Z.opp_involutive.
      rewrite <- (binary_round_aux_opp true). exact Hr.
  - exists (V (Zpos mx * Zpos my) (ex + ey)). split.
    + destruct sx, sy; try discriminate; cbn [rank]; lia.
    + right. left. split; [lia|exact Hr].
Qed.

Lemma new_location_describes (q r m2 N : Z) :
  0 < m2 -> N = m2 * q + r -> 0 <= r < m2 ->
  describes (shr_record_of_loc q (new_location m2 r)) N m2.
Proof.
  intros Hm2 -> Hr.
  pose proof (Zmod_even m2) as Hev. pose proof (Z.div_mod m2 2 ltac:(lia)) as Hdm.
  assert (m2 * q + r - q * m2 = r) as E by ring.
  unfold new_location, new_location_even, new_location_odd, describes.
  destruct (Z.even m2); destruct (Z.eqb_spec r 0) as [->|Hne];
    try destruct (Z.compare_spec (2 * r) m2);
    try destruct (Z.compare_spec (2 * r + 1) m2);
    cbn [shr_record_of_loc shr_m shr_r shr_s]; rewrite ?E, ?Z.add_0_r;
    rewrite ?Z.add_0_r in E; rewrite ?E;
    (split; [lia|]); (split; split; intros; try discriminate; try reflexivity; try lia).
Qed.

Lemma SFdiv_core_spec (m1 m2 : positive) (e1 e2 : Z) :
  bounded prec emax m1 e1 = true -> bounded prec emax m2 e2 = true ->
  exists q e' l N,
    SFdiv_core_binary prec emax (Zpos m1) e1 (Zpos m2) e2 = (q, e', l)
    /\ 0 <= q /\ - bias <= e'
    /\ describes (shr_record_of_loc q l) N (Zpos m2)
    /\ V N e' * 2 ^ (e2 + bias) = V (Zpos m1) e1 * 2 ^ bias
    /\ (e' <= -1074 \/ 2 ^ 52 <= q).
Proof.
  intros H1 H2.
  pose proof (bounded_inv _ _ H1) as (Hr1 & Hm1 & _).
  pose proof (bounded_inv _ _ H2) as (Hr2 & Hm2 & _).
  pose proof (digits2_bounds m1) as Hd1. pose proof (digits2_bounds m2) as Hd2.
  unfold SFdiv_core_binary. cbn [Zdigits2]. rewrite fexp_eq.
  set (d1 := Zpos (digits2_pos m1)) in *. set (d2 := Zpos (digits2_pos m2)) in *.
  assert (0 < d1 <= 53) as Hd1r.
  { split; [unfold d1; lia|].
    destruct (Z_le_gt_dec d1 53) as [|Hgt]; [assumption|].
    assert (2 ^ 53 <= 2 ^ (d1 - 1)) by (apply pow2_le; lia). lia. }
  assert (0 < d2) as Hd2r by (unfold d2; lia).
  set (e' := Z.min (Z.max (d1 + e1 - (d2 + e2) - 53) (-1074)) (e1 - e2)).
  cbv zeta.
  set (s := e1 - e2 - e').
  assert (0 <= s) as Hs by (unfold s, e'; lia).
  set (m' := match s with
             | 0 => Zpos m1
             | Zpos _ => Z.shiftl (Zpos m1) s
             | Zneg _ => 0
             end).
  assert (m' = Zpos m1 * 2 ^ s) as Em'.
  { unfold m'. destruct s as [|p|p] eqn:Es; try lia.
    rewrite Z.shiftl_mul_pow2 by lia. reflexivity. }
  clearbody m'.
  pose proof (Z_div_mod m' (Zpos m2) ltac:(lia)) as Hdiv.
  destruct (Z.div_eucl m' (Zpos m2)) as [q r].
  destruct Hdiv as [Eq Hrem].
  assert (0 < 2 ^ s) as Hps by (apply pow2_pos; lia).
  assert (0 <= q) as Hq by nia.
  exists q, e', (new_location (Zpos m2) r), m'.
  split; [reflexivity|]. split; [exact Hq|].
  assert (- bias <= e') as He' by (unfold e', bias; lia).
  split; [exact He'|].
  split; [apply new_location_describes; [lia|exact Eq|exact Hrem]|].
  split.
  - rewrite Em'. unfold V.
    assert (2 ^ s * 2 ^ (e' + bias) * 2 ^ (e2 + bias)
            = 2 ^ (e1 + bias) * 2 ^ bias) as E.
    { rewrite <- !pow2_split by (unfold bias in *; lia). f_equal. unfold s. lia. }
    rewrite <- !Z.mul_assoc. f_equal. rewrite !Z.mul_assoc. exact E.
  - destruct (Z_le_gt_dec e' (-1074)) as [|Hgt]; [left; assumption|right].
    assert (e' = d1 + e1 - (d2 + e2) - 53) as Ee by (unfold e' in *; lia).
    assert (s = 53 - d1 + d2) as Es by (unfold s; lia).
    assert (2 ^ 52 * Zpos m2 <= m') as Hlow.
    { rewrite Em', Es.
      assert (2 ^ (d1 - 1) * 2 ^ (53 - d1 + d2) = 2 ^ 52 * 2 ^ d2) as E.
      { rewrite <- !pow2_split by lia. f_equal. lia. }
      assert (0 < 2 ^ 52) by (apply pow2_pos; lia).
      assert (0 < 2 ^ (53 - d1 + d2)) by (apply pow2_pos; lia).
      assert (2 ^ (d1 - 1) * 2 ^ (53 - d1 + d2)
              <= Zpos m1 * 2 ^ (53 - d1 + d2))
        by (apply Z.mul_le_mono_nonneg_r; lia).
      nia. }
    assert (0 < 2 ^ 52) by (apply pow2_pos; lia).
    nia.
Qed.

Lemma SFdiv_srounds (x : spec_float) (mk : positive) (ek : Z) :
  valid_binary x = true -> finite_sf x = true ->
  bounded prec emax mk ek = true ->
  exists X,
    X * 2 ^ (ek + bias) = rank x * 2 ^ bias
    /\ srounds X (Zpos mk) (SF64div x (fin mk ek)).
Proof.
  intros Vx Fx Hk.
  destruct x as [sx| | |sx mx ex]; try discriminate.
  - exists 0. split; [cbn [rank]; lia|].
    left. split; [reflexivity|]. eexists; reflexivity.
  - cbn [valid_binary] in Vx.
    destruct (SFdiv_core_spec mx mk ex ek Vx Hk)
      as (q & e' & l & N & Ec & Hq & He' & Hd & HV & Hreg).
    pose proof (V_finite_lt _ _ Vx) as Hpos.
    assert (0 < 2 ^ bias) as Hpb by (apply pow2_pos; unfold bias; lia).
    pose proof (bounded_inv _ _ Hk) as (Hrk & _).
    assert (0 < 2 ^ (ek + bias)) as Hpk by (apply pow2_pos; unfold bias; lia).
    assert (0 < V N e') as HN by nia.
    assert (rounds_to (V N e') (Zpos mk)
              (binary_round_aux prec emax false q e' l)) as Hr.
    { apply round_nearest_spec; [exact Hq|lia|exact He'|exact Hd|].
      right. exact Hreg. }
    unfold SF64div, fin, SFdiv. rewrite Ec. rewrite xorb_false_r.
    destruct sx.
    + exists (- V N e'). split; [cbn [rank]; lia|].
      right. right. split; [lia|]. rewrite Z.opp_involutive.
      rewrite <- (binary_round_aux_opp true). exact Hr.
    + exists (V N e'). split; [cbn [rank]; lia|].
      right. left. split; [lia|exact Hr].
Qed.

(** ** Ranks of primitive numbers *)

Lemma rank_bounds (f : spec_float) :
  valid_binary f = true -> - top <= rank f <= top.
Proof.
  pose proof top_pos.
  destruct f as [sg|[|]| |[|] m e]; cbn [rank valid_binary]; fold top;
    intros Hv; try lia;
    pose proof (V_finite_lt m e Hv) as Hf; fold top in Hf; lia.
Qed.

Lemma rank_finite (f : spec_float) :
  f <> S754_nan -> - top < rank f < top -> finite_sf f = true.
Proof.
  destruct f as [sg|[|]| |sg m e]; cbn [rank finite_sf]; fold top;
    intros Hn Hr; try reflexivity; try lia; congruence.
Qed.

Lemma finite_rank (f : spec_float) :
  valid_binary f = true -> finite_sf f = true ->
  - top < rank f < top /\ f <> S754_nan.
Proof.
  pose proof top_pos.
  destruct f as [sg|[|]| |[|] m e]; cbn [rank finite_sf valid_binary];
    intros Hv Hf; try discriminate; (split; [|discriminate]); try lia;
    pose proof (V_finite_lt m e Hv) as Hb; fold top in Hb; lia.
Qed.

Lemma rank_zero (f : spec_float) :
  valid_binary f = true -> f <> S754_nan -> rank f = 0 ->
  exists sg, f = S754_zero sg.
Proof.
  pose proof top_pos.
  destruct f as [sg|[|]| |[|] m e]; cbn [rank valid_binary]; fold top;
    intros Hv Hn Hr; try lia; try congruence;
    try (exists sg; reflexivity);
    pose proof (V_finite_lt m e Hv); lia.
Qed.

Lemma rank_inj (f g : spec_float) :
  valid_binary f = true -> valid_binary g = true ->
  f <> S754_nan -> g <> S754_nan ->
  rank f = rank g -> rank g <> 0 -> f = g.
Proof.
  pose proof top_pos.
  intros Vf Vg Nf Ng E Hg.
  destruct f as [sf|[|]| |[|] mf ef]; try congruence;
    destruct g as [sg|[|]| |[|] mg eg]; try congruence;
    cbn [rank valid_binary] in *; fold top in *; try lia;
    try (pose proof (V_finite_lt mf ef Vf) as Hf; fold top in Hf);
    try (pose proof (V_finite_lt mg eg Vg) as Hg'; fold top in Hg');
    try lia;
    destruct (V_inj mf mg ef eg Vf Vg ltac:(lia)) as [-> ->]; reflexivity.
Qed.

Lemma finite_not_nan (x : float) : finite x = true -> is_nan x = false.
Proof.
  unfold finite. intros H. apply is_nan_false. intros E. rewrite E in H.
  discriminate.
Qed.

Lemma frank_bounds (x : float) : - top <= frank x <= top.
Proof. apply rank_bounds. apply Prim2SF_valid. Qed.

Lemma frank_finite (x : float) :
  is_nan x = false -> - top < frank x < top -> finite x = true.
Proof. intros Hn Hr. apply rank_finite; [apply is_nan_false; exact Hn|exact Hr]. Qed.

Lemma finite_frank (x : float) : finite x = true -> - top < frank x < top.
Proof. intros H. apply finite_rank; [apply Prim2SF_valid|exact H]. Qed.

Lemma frank_inj (x y : float) :
  is_nan x = false -> is_nan y = false ->
  frank x = frank y -> frank y <> 0 -> x = y.
Proof.
  intros Nx Ny E Hy. apply Prim2SF_inj.
  apply rank_inj; try apply Prim2SF_valid; try (apply is_nan_false; assumption);
    assumption.
Qed.

Lemma frank_zero : frank 0 = 0.
Proof. reflexivity. Qed.

Lemma frank_one : frank 1 = 2 ^ bias.
Proof. unfold frank. rewrite SF_one. cbn [rank fin]. apply V_one. Qed.

Lemma frank_fin (K : float) (mk : positive) (ek : Z) :
  Prim2SF K = fin mk ek ->
  frank K = V (Zpos mk) ek /\ 0 < frank K < top /\ finite K = true
  /\ bounded prec emax mk ek = true.
Proof.
  intros E. pose proof (prim_bounded K false mk ek E) as Hb.
  pose proof (V_finite_lt mk ek Hb) as Hf. fold top in Hf.
  unfold frank, finite. rewrite E. cbn [rank fin finite_sf]. auto.
Qed.

(** ** The primitive operations round to nearest *)

Lemma add_srounds (x y : float) :
  finite x = true -> finite y = true ->
  srounds (frank x + frank y) 1 (Prim2SF (x + y)).
Proof.
  intros Fx Fy. rewrite add_spec.
  apply SFadd_srounds; try apply Prim2SF_valid; assumption.
Qed.

Lemma sub_srounds (x y : float) :
  finite x = true -> finite y = true ->
  srounds (frank x - frank y) 1 (Prim2SF (x - y)).
Proof.
  intros Fx Fy. rewrite sub_spec.
  apply SFsub_srounds; try apply Prim2SF_valid; assumption.
Qed.

Lemma mul_srounds (x y : float) :
  finite x = true -> finite y = true ->
  exists X,
    X * 2 ^ bias = frank x * frank y /\ srounds X 1 (Prim2SF (x * y)).
Proof.
  intros Fx Fy. rewrite mul_spec.
  apply SFmul_srounds; try apply Prim2SF_valid; assumption.
Qed.

Lemma div_srounds (x K : float) (mk : positive) (ek : Z) :
  Prim2SF K = fin mk ek -> finite x = true ->
  exists X,
    X * 2 ^ (ek + bias) = frank x * 2 ^ bias
    /\ srounds X (Zpos mk) (Prim2SF (x / K)).
Proof.
  intros EK Fx. rewrite div_spec, EK.
  apply SFdiv_srounds; [apply Prim2SF_valid|exact Fx|].
  apply (prim_bounded K false mk ek EK).
Qed.

Lemma srounds_frank (X D : Z) (r : float) :
  srounds X D (Prim2SF r) -> is_nan r = false.
Proof. intros H. apply is_nan_false. apply (srounds_not_nan _ _ _ H). Qed.

(** A result between two finite numbers is finite. *)
Lemma between_finite (l r h : float) :
  is_nan r = false -> finite l = true -> finite h = true ->
  frank l <= frank r <= frank h -> finite r = true.
Proof.
  intros Hn Fl Fh Hr. pose proof (finite_frank l Fl). pose proof (finite_frank h Fh).
  apply frank_finite; [exact Hn|lia].
Qed.

(** ** Monotone operations *)

Lemma add_mono (a u1 u2 : float) :
  finite a = true -> finite u1 = true -> finite u2 = true ->
  frank u1 <= frank u2 ->
  frank (a + u1) <= frank (a + u2)
  /\ is_nan (a + u1) = false /\ is_nan (a + u2) = false.
Proof.
  intros Fa F1 F2 Hle.
  pose proof (add_srounds a u1 Fa F1) as H1.
  pose proof (add_srounds a u2 Fa F2) as H2.
  split; [|split; eapply srounds_frank; eassumption].
  apply (srounds_mono _ _ 1 _ _ ltac:(lia) H1 H2). lia.
Qed.

Lemma sub_anti (a c1 c2 : float) :
  finite a = true -> finite c1 = true -> finite c2 = true ->
  frank c1 <= frank c2 ->
  frank (a - c2) <= frank (a - c1)
  /\ is_nan (a - c1) = false /\ is_nan (a - c2) = false.
Proof.
  intros Fa F1 F2 Hle.
  pose proof (sub_srounds a c1 Fa F1) as H1.
  pose proof (sub_srounds a c2 Fa F2) as H2.
  split; [|split; eapply srounds_frank; eassumption].
  apply (srounds_mono _ _ 1 _ _ ltac:(lia) H2 H1). lia.
Qed.

Lemma mul_mono (t1 t2 K : float) (mk : positive) (ek : Z) :
  Prim2SF K = fin mk ek ->
  finite t1 = true -> finite t2 = true -> frank t1 <= frank t2 ->
  frank (t1 * K) <= frank (t2 * K)
  /\ is_nan (t1 * K) = false /\ is_nan (t2 * K) = false.
Proof.
  intros EK F1 F2 Hle.
  destruct (frank_fin K mk ek EK) as (_ & HK & FK & _).
  destruct (mul_srounds t1 K F1 FK) as (X1 & E1 & H1).
  destruct (mul_srounds t2 K F2 FK) as (X2 & E2 & H2).
  split; [|split; eapply srounds_frank; eassumption].
  apply (srounds_mono _ _ 1 _ _ ltac:(lia) H1 H2).
  assert (0 < 2 ^ bias) by (apply pow2_pos; unfold bias; lia).
  assert (frank t1 * frank K <= frank t2 * frank K)
    by (apply Z.mul_le_mono_nonneg_r; lia).
  nia.
Qed.

Lemma div_mono_finite (d1 d2 K : float) (mk : positive) (ek : Z) :
  Prim2SF K = fin mk ek ->
  finite d1 = true -> finite d2 = true -> frank d1 <= frank d2 ->
  frank (d1 / K) <= frank (d2 / K).
Proof.
  intros EK F1 F2 Hle.
  destruct (frank_fin K mk ek EK) as (_ & _ & _ & Hb).
  pose proof (bounded_inv _ _ Hb) as (Hr & _).
  destruct (div_srounds d1 K mk ek EK F1) as (X1 & E1 & H1).
  destruct (div_srounds d2 K mk ek EK F2) as (X2 & E2 & H2).
  apply (srounds_mono _ _ (Zpos mk) _ _ ltac:(lia) H1 H2).
  assert (0 < 2 ^ bias) by (apply pow2_pos; unfold bias; lia).
  assert (0 < 2 ^ (ek + bias)) by (apply pow2_pos; unfold bias; lia).
  assert (frank d1 * 2 ^ bias <= frank d2 * 2 ^ bias)
    by (apply Z.mul_le_mono_nonneg_r; lia).
  nia.
Qed.

Lemma infinite_cases (x : float) :
  is_nan x = false -> finite x = false ->
  (x = infinity /\ frank x = top) \/ (x = neg_infinity /\ frank x = - top).
Proof.
  intros Hn Hf. apply is_nan_false in Hn. unfold finite in Hf.
  destruct (Prim2SF x) as [sg|[|]| |sg m e] eqn:E; try discriminate;
    try congruence.
  - right. split; [apply Prim2SF_inj; rewrite E; reflexivity|].
    unfold frank. rewrite E. reflexivity.
  - left. split; [apply Prim2SF_inj; rewrite E; reflexivity|].
    unfold frank. rewrite E. reflexivity.
Qed.

Lemma div_infinity (K : float) (mk : positive) (ek : Z) :
  Prim2SF K = fin mk ek ->
  frank (infinity / K) = top /\ frank (neg_infinity / K) = - top.
Proof.
  intros EK. unfold frank. rewrite !div_spec, EK. split; reflexivity.
Qed.

Lemma div_mono (d1 d2 K : float) (mk : positive) (ek : Z) :
  Prim2SF K = fin mk ek ->
  is_nan d1 = false -> is_nan d2 = false -> frank d1 <= frank d2 ->
  frank (d1 / K) <= frank (d2 / K).
Proof.
  intros EK N1 N2 Hle.
  destruct (div_infinity K mk ek EK) as [Ip In].
  pose proof (frank_bounds (d1 / K)). pose proof (frank_bounds (d2 / K)).
  pose proof top_pos.
  destruct (finite d1) eqn:F1; destruct (finite d2) eqn:F2.
  - apply (div_mono_finite d1 d2 K mk ek); assumption.
  - pose proof (finite_frank d1 F1).
    destruct (infinite_cases d2 N2 F2) as [[-> E]|[-> E]]; [|lia].
    rewrite Ip. lia.
  - pose proof (finite_frank d2 F2).
    destruct (infinite_cases d1 N1 F1) as [[-> E]|[-> E]]; [lia|].
    rewrite In. lia.
  - destruct (infinite_cases d1 N1 F1) as [[-> E1]|[-> E1]];
      destruct (infinite_cases d2 N2 F2) as [[-> E2]|[-> E2]]; lia.
Qed.

(** ** The weights of a marker follow the distance *)

Lemma clamp_unit (q : float) :
  is_nan q = false ->
  finite (clamp q 0 1) = true
  /\ frank (clamp q 0 1) = Z.max 0 (Z.min (frank q) (2 ^ bias)).
Proof.
  intros Hq.
  assert (0 < 2 ^ bias) as Hb by (apply pow2_pos; unfold bias; lia).
  assert (2 ^ bias < top) as Ht.
  { unfold top. apply Z.pow_lt_mono_r; unfold bias; lia. }
  destruct (clamp_eval q 0 1 Hq eq_refl eq_refl) as (r & -> & Hr & Hc).
  rewrite frank_zero, frank_one in Hc.
  assert (frank r = Z.max 0 (Z.min (frank q) (2 ^ bias))) as E.
  { destruct Hc as [[-> H]|[[-> H]|[-> H]]];
      rewrite ?frank_one, ?frank_zero; lia. }
  split; [|exact E]. apply frank_finite; [exact Hr|lia].
Qed.

Lemma maxD_fin (m : Mode) : exists mk ek, Prim2SF (maxD m) = fin mk ek.
Proof. destruct m; eexists; eexists; reflexivity. Qed.

(** The fade is a number of the unit interval. *)
Lemma fade_range (m : Mode) (dist : float) :
  is_nan dist = false ->
  finite (fade m dist) = true /\ 0 <= frank (fade m dist) <= 2 ^ bias.
Proof.
  intros Hd. destruct (maxD_fin m) as (mk & ek & EK).
  pose proof (div_not_nan dist (maxD m) mk ek EK Hd) as Hq.
  destruct (clamp_unit _ Hq) as [Fc Ec].
  unfold fade. set (c := clamp (dist / maxD m) 0 1) in *.
  assert (0 < 2 ^ bias) as Hb by (apply pow2_pos; unfold bias; lia).
  destruct (sub_anti 1 c 1 eq_refl Fc eq_refl ltac:(rewrite frank_one; lia))
    as (Hlo & Hn & _).
  destruct (sub_anti 1 0 c eq_refl eq_refl Fc ltac:(rewrite frank_zero; lia))
    as (Hhi & _ & _).
  change (frank (1 - 1)) with 0 in Hlo.
  change (1 - 0)%float with 1%float in Hhi. rewrite frank_one in Hhi.
  split; [|lia].
  apply (between_finite 0 _ 1 Hn eq_refl eq_refl).
  rewrite frank_zero, frank_one. lia.
Qed.

(** The fade never grows with the distance. *)
Lemma fade_anti (m : Mode) (d1 d2 : float) :
  is_nan d1 = false -> is_nan d2 = false -> frank d1 <= frank d2 ->
  frank (fade m d2) <= frank (fade m d1).
Proof.
  intros N1 N2 Hle. destruct (maxD_fin m) as (mk & ek & EK).
  pose proof (div_mono d1 d2 (maxD m) mk ek EK N1 N2 Hle) as Hq.
  destruct (clamp_unit _ (div_not_nan d1 (maxD m) mk ek EK N1)) as [F1 E1].
  destruct (clamp_unit _ (div_not_nan d2 (maxD m) mk ek EK N2)) as [F2 E2].
  unfold fade. apply (sub_anti 1 _ _ eq_refl F1 F2). lia.
Qed.

(** A weight [A + t * K] never shrinks when the fade [t] grows. *)
Lemma weight_mono (A K t1 t2 : float) (ma mk : positive) (ea ek : Z) :
  Prim2SF A = fin ma ea -> Prim2SF K = fin mk ek ->
  finite t1 = true -> finite t2 = true ->
  0 <= frank t1 -> frank t1 <= frank t2 -> frank t2 <= 2 ^ bias ->
  (A + t1 * K <=? A + t2 * K)%float = true.
Proof.
  intros EA EK F1 F2 H0 Hle H1.
  destruct (frank_fin A ma ea EA) as (_ & _ & FA & _).
  destruct (frank_fin K mk ek EK) as (_ & HK & FK & _).
  assert (forall t, finite t = true -> 0 <= frank t <= 2 ^ bias ->
                    finite (t * K) = true) as Hfin.
  { intros t Ft Ht.
    destruct (mul_mono 0 t K mk ek EK eq_refl Ft ltac:(rewrite frank_zero; lia))
      as (Hlo & _ & Hn).
    destruct (mul_mono t 1 K mk ek EK Ft eq_refl ltac:(rewrite frank_one; lia))
      as (Hhi & _ & _).
    assert (frank (0 * K) = 0) as E0.
    { unfold frank. rewrite mul_spec, EK. reflexivity. }
    assert (frank (1 * K) = frank K) as E1.
    { destruct (mul_srounds 1 K eq_refl FK) as (X & EX & HX).
      rewrite frank_one in EX.
      assert (0 < 2 ^ bias) by (apply pow2_pos; unfold bias; lia).
      assert (X = frank K) as -> by nia.
      pose proof (srounds_self (Prim2SF K) (Prim2SF_valid K) FK) as HsK.
      fold (frank K) in HsK.
      pose proof (srounds_mono _ _ 1 _ _ ltac:(lia) HX HsK ltac:(lia)).
      pose proof (srounds_mono _ _ 1 _ _ ltac:(lia) HsK HX ltac:(lia)).
      unfold frank in *. lia. }
    apply frank_finite; [exact Hn|]. pose proof top_pos. lia. }
  pose proof (Hfin t1 F1 ltac:(lia)) as Fu1.
  pose proof (Hfin t2 F2 ltac:(lia)) as Fu2.
  destruct (mul_mono t1 t2 K mk ek EK F1 F2 Hle) as (Hu & _ & _).
  destruct (add_mono A _ _ FA Fu1 Fu2 Hu) as (Hs & Na & Nb).
  rewrite (leb_rank _ _ Na Nb). apply Z.leb_le. exact Hs.
Qed.

(** X: of two spots drawn in the same state, the one at the smaller
    computed distance is drawn at least as opaque and at least as large
    as the other: opacity and radius never grow with the distance, in
    any mode and whatever the four approximated operations return. *)
Theorem closer_is_stronger
        (Math_sin Math_cos Math_asin : float -> float)
        (Math_pow : float -> float -> float) (st : State) (sp1 sp2 : Spot) :
  let style1 := markerStyle Math_sin Math_cos Math_asin Math_pow st sp1 in
  let style2 := markerStyle Math_sin Math_cos Math_asin Math_pow st sp2 in
  (d style1 <=? d style2)%float = true ->
  (opacity style2 <=? opacity style1)%float = true
  /\ (radius style2 <=? radius style1)%float = true.
Proof.
  intros style1 style2 Hle.
  destruct (leb_true_numbers _ _ Hle) as [N1 N2].
  rewrite (leb_rank _ _ N1 N2) in Hle. apply Z.leb_le in Hle.
  pose proof (fade_anti (mode st) _ _ N1 N2 Hle) as Ht.
  destruct (fade_range (mode st) _ N1) as [F1 R1].
  destruct (fade_range (mode st) _ N2) as [F2 R2].
  split.
  - apply (weight_mono 0.10 0.80 _ _ _ _ _ _ SF_0_1 SF_0_8 F2 F1); lia.
  - apply (weight_mono 5 10 _ _ _ _ _ _ SF_5 SF_10 F2 F1); lia.
Qed.

Lemma closer_is_stronger_witness :
  let style1 :=
    markerStyle flat_sin flat_cos flat_asin flat_pow nearby
      (spot_at seoul "spot_0" "INTJ") in
  let style2 :=
    markerStyle flat_sin flat_cos flat_asin flat_pow nearby nearby_spot in
  (opacity style2 <=? opacity style1)%float = true
  /\ (radius style2 <=? radius style1)%float = true.
Proof.
  apply (closer_is_stronger flat_sin flat_cos flat_asin flat_pow nearby
           (spot_at seoul "spot_0" "INTJ") nearby_spot).
  vm_compute. reflexivity.
Defined.

(** The fade at the two ends. *)
Lemma fade_near (m : Mode) (dist : float) :
  (dist <=? 0)%float = true -> fade m dist = 1%float.
Proof.
  intros Hle. destruct (leb_true_numbers _ _ Hle) as [Nd _].
  rewrite (leb_rank dist 0 Nd eq_refl), frank_zero in Hle. apply Z.leb_le in Hle.
  destruct (maxD_fin m) as (mk & ek & EK).
  pose proof (div_mono dist 0 (maxD m) mk ek EK Nd eq_refl
                ltac:(rewrite frank_zero; exact Hle)) as Hq.
  assert (frank (0 / maxD m) = 0) as E0.
  { unfold frank. rewrite div_spec, EK. reflexivity. }
  rewrite E0 in Hq.
  destruct (clamp_unit _ (div_not_nan dist (maxD m) mk ek EK Nd)) as [Fc Ec].
  assert (0 < 2 ^ bias) as Hb by (apply pow2_pos; unfold bias; lia).
  unfold fade. set (c := clamp (dist / maxD m) 0 1) in *.
  destruct (rank_zero (Prim2SF c) (Prim2SF_valid c)
              (proj1 (is_nan_false c) (finite_not_nan c Fc)))
    as [sg Ec0]; [fold (frank c); lia|].
  apply Prim2SF_inj. rewrite sub_spec, Ec0. reflexivity.
Qed.

Lemma fade_far (m : Mode) (dist : float) :
  (maxD m <=? dist)%float = true -> fade m dist = 0%float.
Proof.
  intros Hle. destruct (leb_true_numbers _ _ Hle) as [NK Nd].
  rewrite (leb_rank _ _ NK Nd) in Hle. apply Z.leb_le in Hle.
  destruct (maxD_fin m) as (mk & ek & EK).
  pose proof (div_mono (maxD m) dist (maxD m) mk ek EK NK Nd Hle) as Hq.
  assert (maxD m / maxD m = 1)%float as E1 by (destruct m; reflexivity).
  rewrite E1, frank_one in Hq.
  destruct (clamp_unit _ (div_not_nan dist (maxD m) mk ek EK Nd)) as [Fc Ec].
  assert (0 < 2 ^ bias) as Hb by (apply pow2_pos; unfold bias; lia).
  unfold fade. set (c := clamp (dist / maxD m) 0 1) in *.
  assert (c = 1%float) as ->; [|reflexivity].
  apply frank_inj; [apply finite_not_nan; exact Fc|reflexivity| |].
  - rewrite frank_one. lia.
  - rewrite frank_one. lia.
Qed.

(** X: the two ends of the scale.  A spot whose computed distance is
    zero (or below) is drawn with exactly the full weights, opacity 0.9
    and radius 15; a spot at [maxD] (2000 m in wide mode, 600 m
    otherwise) or anywhere beyond, [Infinity] included, is drawn with
    exactly the least weights, opacity 0.1 and radius 5. *)
Theorem markerStyle_saturates
        (Math_sin Math_cos Math_asin : float -> float)
        (Math_pow : float -> float -> float) (st : State) (sp : Spot) :
  let style := markerStyle Math_sin Math_cos Math_asin Math_pow st sp in
  ((d style <=? 0)%float = true ->
   opacity style = 0.90%float /\ radius style = 15%float)
  /\ ((maxD (mode st) <=? d style)%float = true ->
      opacity style = 0.10%float /\ radius style = 5%float).
Proof.
  intros style. split; intros H.
  - unfold style, markerStyle in *. cbn [opacity radius d] in *.
    rewrite (fade_near _ _ H). split; reflexivity.
  - unfold style, markerStyle in *. cbn [opacity radius d] in *.
    rewrite (fade_far _ _ H). split; reflexivity.
Qed.

Lemma markerStyle_saturates_witness :
  let here :=
    markerStyle flat_sin flat_cos flat_asin flat_pow nearby
      (spot_at seoul "spot_0" "INTJ") in
  let far := markerStyle flat_sin flat_cos flat_asin flat_pow nearby far_spot in
  (opacity here = 0.90%float /\ radius here = 15%float)
  /\ (opacity far = 0.10%float /\ radius far = 5%float).
Proof.
  split.
  - apply (proj1 (markerStyle_saturates flat_sin flat_cos flat_asin flat_pow
                    nearby (spot_at seoul "spot_0" "INTJ"))).
    vm_compute. reflexivity.
  - apply (proj2 (markerStyle_saturates flat_sin flat_cos flat_asin flat_pow
                    nearby far_spot)).
    vm_compute. reflexivity.
Defined.

(** ** Generated positions *)

Lemma unit_draw (r : float) :
  (0 <=? r)%float = true -> (r <? 1)%float = true ->
  finite r = true /\ 0 <= frank r <= 2 ^ bias.
Proof.
  intros H0 H1. destruct (leb_true_numbers _ _ H0) as [_ Nr].
  rewrite (leb_rank 0 r eq_refl Nr), frank_zero in H0. apply Z.leb_le in H0.
  rewrite (ltb_rank r 1 Nr eq_refl), frank_one in H1. apply Z.ltb_lt in H1.
  split; [|lia]. apply frank_finite; [exact Nr|].
  assert (2 ^ bias < top)
    by (unfold top; apply Z.pow_lt_mono_r; unfold bias; lia).
  pose proof top_pos. lia.
Qed.

(** The offset [rand(-spread, spread)] stays within the spread. *)
Lemma rand_spread (Math_random : nat -> float) (k : nat) :
  (0 <=? Math_random k)%float = true -> (Math_random k <? 1)%float = true ->
  let spread := 0.007%float in
  let offset := fst (rand Math_random (- spread) spread k) in
  finite offset = true
  /\ - frank spread <= frank offset <= frank spread.
Proof.
  intros H0 H1 spread offset.
  destruct (unit_draw _ H0 H1) as [Fr Hr].
  unfold offset, rand. cbn [fst].
  set (r := Math_random k) in *.
  set (W := (spread - - spread)%float).
  assert (exists mk ek, Prim2SF W = fin mk ek) as (mk & ek & EW)
      by (eexists; eexists; reflexivity).
  destruct (mul_mono 0 r W mk ek EW eq_refl Fr
              ltac:(rewrite frank_zero; lia)) as (Hlo & _ & Np).
  destruct (mul_mono r 1 W mk ek EW Fr eq_refl
              ltac:(rewrite frank_one; lia)) as (Hhi & _ & _).
  assert (finite (r * W) = true) as Fp
      by (apply (between_finite (0 * W) _ (1 * W) Np eq_refl eq_refl); lia).
  destruct (add_mono (- spread) (0 * W) (r * W) eq_refl eq_refl Fp Hlo)
    as (Hl & _ & No).
  destruct (add_mono (- spread) (r * W) (1 * W) eq_refl Fp eq_refl Hhi)
    as (Hh & _ & _).
  assert (frank (- spread + 0 * W) = - frank spread) as El
      by (vm_compute; reflexivity).
  assert (frank (- spread + 1 * W) = frank spread) as Eh
      by (vm_compute; reflexivity).
  rewrite El in Hl. rewrite Eh in Hh.
  split; [|lia].
  apply (between_finite (- spread) _ spread No eq_refl eq_refl).
  assert (frank (- spread) = - frank spread) as -> by (vm_compute; reflexivity).
  lia.
Qed.

(** A coordinate moved by an offset within the spread stays within the
    spread of the coordinate. *)
Lemma spread_box (x offset : float) :
  let spread := 0.007%float in
  finite x = true -> finite offset = true ->
  - frank spread <= frank offset <= frank spread ->
  (x - spread <=? x + offset)%float = true
  /\ (x + offset <=? x + spread)%float = true.
Proof.
  intros spread Fx Fo Ho.
  pose proof (sub_srounds x spread Fx eq_refl) as Hs.
  pose proof (add_srounds x offset Fx Fo) as Ha.
  destruct (add_mono x offset spread Fx Fo eq_refl ltac:(lia))
    as (Hup & Na & Nb).
  split.
  - rewrite (leb_rank _ _ (srounds_frank _ _ _ Hs) Na). apply Z.leb_le.
    apply (srounds_mono _ _ 1 _ _ ltac:(lia) Hs Ha). lia.
  - rewrite (leb_rank _ _ Na Nb). apply Z.leb_le. exact Hup.
Qed.

Section GenerationBox.

Variable Math_random : nat -> float.
Variable toString16 : float -> jsstring.

Hypothesis random_unit :
  forall j, (0 <=? Math_random j)%float = true
            /\ (Math_random j <? 1)%float = true.

Lemma generateSpot_box (lat lng : float) (i k : nat) :
  finite lat = true -> finite lng = true ->
  let r := fst (generateSpot Math_random toString16 lat lng i k) in
  ((lat - 0.007 <=? raw_lat r)%float = true
   /\ (raw_lat r <=? lat + 0.007)%float = true)
  /\ ((lng - 0.007 <=? raw_lng r)%float = true
      /\ (raw_lng r <=? lng + 0.007)%float = true).
Proof.
  intros Flat Flng r.
  destruct (random_unit (S k)) as [A0 A1].
  destruct (random_unit (S (S k))) as [B0 B1].
  destruct (rand_spread Math_random (S k) A0 A1) as [Fa Ha].
  destruct (rand_spread Math_random (S (S k)) B0 B1) as [Fb Hb].
  split.
  - apply (spread_box lat _ Flat Fa Ha).
  - apply (spread_box lng _ Flng Fb Hb).
Qed.

Lemma generateFrom_box (lat lng : float) (n : nat) :
  finite lat = true -> finite lng = true ->
  forall i k r,
    In r (fst (generateFrom Math_random toString16 lat lng i n k)) ->
    ((lat - 0.007 <=? raw_lat r)%float = true
     /\ (raw_lat r <=? lat + 0.007)%float = true)
    /\ ((lng - 0.007 <=? raw_lng r)%float = true
        /\ (raw_lng r <=? lng + 0.007)%float = true).
Proof.
  intros Flat Flng. induction n as [|n IH]; intros i k r Hin.
  - destruct Hin.
  - rewrite generateFrom_cons in Hin. cbn [fst] in Hin.
    destruct Hin as [<-|Hin].
    + apply generateSpot_box; assumption.
    + apply (IH _ _ _ Hin).
Qed.

End GenerationBox.

(** X: when [Math.random] returns numbers in [0,1) and the centre is
    a pair of finite numbers, every spot [generateSpots] builds lies in
    the box of the spread around the centre: its latitude is between
    [lat - 0.007] and [lat + 0.007], its longitude between
    [lng - 0.007] and [lng + 0.007] (as computed in binary64), however
    the roundings of [rand] fall. *)
Theorem generated_within_spread
        (Math_random : nat -> float) (toString16 : float -> jsstring)
        (lat lng : float) (count : float) (k : nat) :
  (forall j, (0 <=? Math_random j)%float = true
             /\ (Math_random j <? 1)%float = true) ->
  finite lat = true -> finite lng = true ->
  forall r,
    In r (built (generateSpots Math_random toString16 lat lng count k)) ->
    ((lat - 0.007 <=? raw_lat r)%float = true
     /\ (raw_lat r <=? lat + 0.007)%float = true)
    /\ ((lng - 0.007 <=? raw_lng r)%float = true
        /\ (raw_lng r <=? lng + 0.007)%float = true).
Proof.
  intros Hrand Flat Flng r Hin. unfold generateSpots in Hin. cbv zeta in Hin.
  destruct (ToLength count <? 2 ^ 32); cbn [built] in Hin; [|destruct Hin].
  apply (generateFrom_box Math_random toString16 Hrand lat lng _ Flat Flng
           _ _ _ Hin).
Qed.

Lemma generated_within_spread_witness :
  Forall
    (fun r =>
       ((37.5665 - 0.007 <=? raw_lat r)%float = true
        /\ (raw_lat r <=? 37.5665 + 0.007)%float = true)
       /\ ((126.978 - 0.007 <=? raw_lng r)%float = true
           /\ (raw_lng r <=? 126.978 + 0.007)%float = true))
    (built (generateSpots two_point_random plain_hex 37.5665 126.978 3 0)).
Proof.
  apply Forall_forall.
  apply (generated_within_spread two_point_random plain_hex 37.5665 126.978 3 0).
  - intros j. unfold two_point_random. destruct (Nat.even j); split; reflexivity.
  - reflexivity.
  - reflexivity.
Defined.

(** ** The distance *)

Lemma sub_self (x : float) : finite x = true -> (x - x)%float = 0%float.
Proof.
  unfold finite. intros Fx. apply Prim2SF_inj. rewrite sub_spec.
  destruct (Prim2SF x) as [[|]| | |sx mx ex]; try discriminate;
    try reflexivity.
  unfold SF64sub, SFsub. cbv zeta. rewrite Z.sub_diag. reflexivity.
Qed.

(** A finite number times [+0], added to [+0], is [+0]. *)
Lemma zero_term (c : float) : finite c = true -> (0 + c * 0)%float = 0%float.
Proof.
  unfold finite. intros Fc. apply Prim2SF_inj. rewrite add_spec, mul_spec.
  destruct (Prim2SF c) as [[|]| | |[|] mx ex]; try discriminate; reflexivity.
Qed.

(** The product of two numbers of [[-1, 1]] is finite. *)
Lemma unit_product (c1 c2 : float) :
  (-1 <=? c1)%float = true -> (c1 <=? 1)%float = true ->
  (-1 <=? c2)%float = true -> (c2 <=? 1)%float = true ->
  finite (c1 * c2) = true.
Proof.
  intros L1 U1 L2 U2.
  assert (0 < 2 ^ bias) as Hb by (apply pow2_pos; unfold bias; lia).
  assert (2 ^ bias < top) as Ht
      by (unfold top; apply Z.pow_lt_mono_r; unfold bias; lia).
  assert (frank (-1) = - 2 ^ bias) as Em.
  { change (frank (-1)) with (- frank 1). rewrite frank_one. reflexivity. }
  assert (forall c, (-1 <=? c)%float = true -> (c <=? 1)%float = true ->
                    finite c = true /\ - 2 ^ bias <= frank c <= 2 ^ bias) as Hu.
  { intros c L U. destruct (leb_true_numbers _ _ L) as [_ Nc].
    rewrite (leb_rank (-1) c eq_refl Nc), Em in L. apply Z.leb_le in L.
    rewrite (leb_rank c 1 Nc eq_refl), frank_one in U. apply Z.leb_le in U.
    split; [|lia]. apply frank_finite; [exact Nc|lia]. }
  destruct (Hu c1 L1 U1) as [F1 R1]. destruct (Hu c2 L2 U2) as [F2 R2].
  destruct (mul_srounds c1 c2 F1 F2) as (X & EX & HX).
  pose proof (srounds_self (Prim2SF 1) (Prim2SF_valid 1) eq_refl) as H1.
  pose proof (srounds_self (Prim2SF (-1)) (Prim2SF_valid (-1)) eq_refl) as Hm.
  fold (frank 1) in H1. fold (frank (-1)) in Hm. rewrite frank_one in H1.
  rewrite Em in Hm.
  assert (- 2 ^ bias <= X <= 2 ^ bias) as HXr by nia.
  pose proof (srounds_mono _ _ 1 _ _ ltac:(lia) HX H1 ltac:(lia)) as Hhi.
  pose proof (srounds_mono _ _ 1 _ _ ltac:(lia) Hm HX ltac:(lia)) as Hlo.
  fold (frank (c1 * c2)) in Hhi, Hlo. fold (frank 1) in Hhi.
  fold (frank (-1)) in Hlo. rewrite frank_one in Hhi. rewrite Em in Hlo.
  apply frank_finite; [apply (srounds_frank _ _ _ HX)|lia].
Qed.

(** A latitude of the globe is finite, and so is its measure in
    radians. *)
Lemma toRad_finite (a : float) :
  (-90 <=? a)%float = true -> (a <=? 90)%float = true ->
  finite a = true /\ finite (a * Math_PI / 180) = true.
Proof.
  intros L U. destruct (leb_true_numbers _ _ L) as [_ Na].
  rewrite (leb_rank (-90) a eq_refl Na) in L. apply Z.leb_le in L.
  rewrite (leb_rank a 90 Na eq_refl) in U. apply Z.leb_le in U.
  assert (finite a = true) as Fa
      by (apply (between_finite (-90) a 90 Na eq_refl eq_refl); lia).
  split; [exact Fa|].
  assert (exists mk ek, Prim2SF Math_PI = fin mk ek) as (mp & ep & EP)
      by (eexists; eexists; reflexivity).
  assert (exists mk ek, Prim2SF 180 = fin mk ek) as (mk & ek & EK)
      by (eexists; eexists; reflexivity).
  destruct (mul_mono (-90) a Math_PI mp ep EP eq_refl Fa L) as (Hlo & _ & Np).
  destruct (mul_mono a 90 Math_PI mp ep EP Fa eq_refl U) as (Hhi & _ & _).
  assert (finite (a * Math_PI) = true) as Fp
      by (apply (between_finite (-90 * Math_PI) _ (90 * Math_PI) Np
                   eq_refl eq_refl); lia).
  pose proof (div_mono_finite (-90 * Math_PI) (a * Math_PI) 180 mk ek EK
                eq_refl Fp Hlo) as Dlo.
  pose proof (div_mono_finite (a * Math_PI) (90 * Math_PI) 180 mk ek EK
                Fp eq_refl Hhi) as Dhi.
  apply (between_finite (-90 * Math_PI / 180) _ (90 * Math_PI / 180)
           (div_not_nan _ 180 mk ek EK Np) eq_refl eq_refl).
  lia.
Qed.

Section DistanceFacts.

Variables Math_sin Math_cos Math_asin : float -> float.
Variable Math_pow : float -> float -> float.

Lemma distance_to_itself (aLat aLng : float) :
  Math_sin 0%float = 0%float -> Math_pow 0%float 2%float = 0%float ->
  Math_asin 0%float = 0%float ->
  (forall y, finite y = true ->
             (-1 <=? Math_cos y)%float = true
             /\ (Math_cos y <=? 1)%float = true) ->
  (-90 <=? aLat)%float = true -> (aLat <=? 90)%float = true ->
  finite aLng = true ->
  distanceMeters Math_sin Math_cos Math_asin Math_pow aLat aLng aLat aLng
  = 0%float.
Proof.
  intros Hsin Hpow Hasin Hcos Llat Ulat Flng.
  destruct (toRad_finite aLat Llat Ulat) as [Flat Frad].
  unfold distanceMeters. cbv zeta.
  rewrite (sub_self aLat Flat), (sub_self aLng Flng).
  change (0 * Math_PI / 180 / 2)%float with 0%float.
  rewrite Hsin, Hpow.
  set (lat1 := (aLat * Math_PI / 180)%float) in *.
  destruct (Hcos lat1 Frad) as [L U].
  rewrite (zero_term _ (unit_product _ _ L U L U)).
  change (sqrt 0) with 0%float. rewrite Hasin. reflexivity.
Qed.

End DistanceFacts.

(** The platform with a table meets what the properties of the
    distance ask of a platform. *)
Lemma table_cos_unit (y : float) :
  finite y = true ->
  (-1 <=? table_cos y)%float = true /\ (table_cos y <=? 1)%float = true.
Proof.
  intros Hy. unfold table_cos. rewrite Hy. cbv zeta.
  destruct (abs y =? 0x1.0422988b01c09p+0)%float; [split; reflexivity|].
  destruct (abs y =? 0x1.042298400ba77p+0)%float; split; reflexivity.
Qed.



(** *** Symmetry *)

Lemma SFmul_opp_l (x y : spec_float) :
  SF64mul (SFopp x) y = SFopp (SF64mul x y).
Proof.
  destruct x as [[|]|[|]| |[|] mx ex]; destruct y as [[|]|[|]| |[|] my ey];
    try reflexivity; unfold SF64mul, SFmul, SFopp; cbn [xorb negb];
    first [apply (binary_round_aux_opp true)
          |apply (binary_round_aux_opp false)].
Qed.

Lemma SFdiv_opp_l (x y : spec_float) :
  SF64div (SFopp x) y = SFopp (SF64div x y).
Proof.
  destruct x as [[|]|[|]| |[|] mx ex]; destruct y as [[|]|[|]| |[|] my ey];
    try reflexivity; unfold SF64div, SFdiv, SFopp; cbn [xorb negb];
    destruct (SFdiv_core_binary prec emax (Zpos mx) ex (Zpos my) ey)
      as [[mz ez] lz];
    first [apply (binary_round_aux_opp true)
          |apply (binary_round_aux_opp false)].
Qed.

Lemma SFmul_comm (x y : spec_float) : SF64mul x y = SF64mul y x.
Proof.
  destruct x as [[|]|[|]| |[|] mx ex]; destruct y as [[|]|[|]| |[|] my ey];
    try reflexivity; unfold SF64mul, SFmul; cbn [xorb];
    rewrite (Pos.mul_comm mx my), (Z.add_comm ex ey); reflexivity.
Qed.

Lemma binary_normalize_opp (z ez : Z) :
  (binary_normalize prec emax (- z) ez false
   = SFopp (binary_normalize prec emax z ez false))
  \/ (z = 0 /\ binary_normalize prec emax z ez false = S754_zero false).
Proof.
  destruct z as [|p|p]; [right; split; reflexivity|left|left];
    cbn [Z.opp binary_normalize]; unfold binary_round;
    destruct (shl_align p ez _) as [mz ez'].
  - apply (binary_round_aux_opp false).
  - apply (binary_round_aux_opp true).
Qed.

Lemma SFsub_swap (x y : spec_float) :
  SF64sub y x = SFopp (SF64sub x y)
  \/ (SF64sub y x = S754_zero false /\ SF64sub x y = S754_zero false).
Proof.
  destruct x as [[|]|[|]| |sx mx ex]; destruct y as [[|]|[|]| |sy my ey];
    try (left; reflexivity); try (right; split; reflexivity);
    try (left; unfold SF64sub, SFsub, SFopp; rewrite negb_involutive;
         reflexivity).
  unfold SF64sub, SFsub. cbv zeta. rewrite (Z.min_comm ey ex).
  set (ez := Z.min ex ey).
  set (a := cond_Zopp sx (Zpos (fst (shl_align mx ex ez)))).
  set (b := cond_Zopp sy (Zpos (fst (shl_align my ey ez)))).
  replace (b - a) with (- (a - b)) by lia.
  destruct (binary_normalize_opp (a - b) ez) as [E|[E0 E]].
  - left. exact E.
  - right. rewrite E0 in *. split; [reflexivity|exact E].
Qed.

Lemma mul_opp_l (x y : float) : (- x * y)%float = (- (x * y))%float.
Proof.
  apply Prim2SF_inj. rewrite opp_spec, !mul_spec, opp_spec.
  apply SFmul_opp_l.
Qed.

Lemma div_opp_l (x y : float) : (- x / y)%float = (- (x / y))%float.
Proof.
  apply Prim2SF_inj. rewrite opp_spec, !div_spec, opp_spec.
  apply SFdiv_opp_l.
Qed.

Lemma mul_comm_prim (x y : float) : (x * y)%float = (y * x)%float.
Proof. apply Prim2SF_inj. rewrite !mul_spec. apply SFmul_comm. Qed.

Lemma sub_swap (x y : float) :
  (y - x)%float = (- (x - y))%float
  \/ ((y - x)%float = 0%float /\ (x - y)%float = 0%float).
Proof.
  destruct (SFsub_swap (Prim2SF x) (Prim2SF y)) as [E|[E1 E2]].
  - left. apply Prim2SF_inj. rewrite opp_spec, !sub_spec. exact E.
  - right. split; apply Prim2SF_inj; rewrite sub_spec; assumption.
Qed.

Section DistanceSymmetry.

Variables Math_sin Math_cos Math_asin : float -> float.
Variable Math_pow : float -> float -> float.

Hypothesis square_even :
  forall y, Math_pow (Math_sin (- y)) 2 = Math_pow (Math_sin y) 2.

(** One squared-sine term of the formula, on the two differences. *)
Lemma haversine_term (a b : float) :
  Math_pow (Math_sin ((b - a) * Math_PI / 180 / 2)) 2
  = Math_pow (Math_sin ((a - b) * Math_PI / 180 / 2)) 2.
Proof.
  destruct (sub_swap a b) as [E|[E1 E2]].
  - rewrite E, mul_opp_l, !div_opp_l. apply square_even.
  - rewrite E1, E2. reflexivity.
Qed.

Lemma distance_swap (aLat aLng bLat bLng : float) :
  distanceMeters Math_sin Math_cos Math_asin Math_pow aLat aLng bLat bLng
  = distanceMeters Math_sin Math_cos Math_asin Math_pow bLat bLng aLat aLng.
Proof.
  unfold distanceMeters. cbv zeta.
  rewrite (haversine_term aLat bLat), (haversine_term aLng bLng).
  rewrite (mul_comm_prim (Math_cos (aLat * Math_PI / 180))
             (Math_cos (bLat * Math_PI / 180))).
  reflexivity.
Qed.

End DistanceSymmetry.

(** X: the distance is symmetric.  On a platform whose squared sine
    is even ([Math.sin(-y) ** 2] equals [Math.sin(y) ** 2], as it is
    wherever [Math.sin] is odd), [distanceMeters(a, b)] and
    [distanceMeters(b, a)] are the same binary64 number for all
    arguments, [NaN] and infinities included: exchanging the two
    points only flips the signs of the two differences. *)
Theorem distanceMeters_symmetric
        (Math_sin Math_cos Math_asin : float -> float)
        (Math_pow : float -> float -> float)
        (aLat aLng bLat bLng : float) :
  (forall y : float,
     Math_pow (Math_sin (- y)%float) 2%float
     = Math_pow (Math_sin y) 2%float) ->
  distanceMeters Math_sin Math_cos Math_asin Math_pow aLat aLng bLat bLng
  = distanceMeters Math_sin Math_cos Math_asin Math_pow bLat bLng aLat aLng.
Proof. intros H. apply distance_swap. exact H. Qed.

Lemma distanceMeters_symmetric_witness :
  distanceMeters flat_sin flat_cos flat_asin flat_pow
    37.5665 126.978 37.5675 126.979
  = distanceMeters flat_sin flat_cos flat_asin flat_pow
      37.5675 126.979 37.5665 126.978.
Proof.
  apply (distanceMeters_symmetric flat_sin flat_cos flat_asin flat_pow
           37.5665 126.978 37.5675 126.979).
  intros y. unfold flat_pow, flat_sin. apply Prim2SF_inj.
  rewrite !mul_spec, opp_spec.
  destruct (Prim2SF y) as [[|]|[|]| |[|] m e]; reflexivity.
Defined.


(** ** The distance, as the specification states it *)

Lemma finite_opp (y : float) : finite (- y) = finite y.
Proof.
  unfold finite. rewrite opp_spec.
  destruct (Prim2SF y) as [[|]|[|]| |[|] m e]; reflexivity.
Qed.

Lemma eqb_opp_zero (y : float) : (- y =? 0)%float = (y =? 0)%float.
Proof.
  rewrite !eqb_spec, opp_spec.
  destruct (Prim2SF y) as [[|]|[|]| |[|] m e]; reflexivity.
Qed.

Lemma abs_opp (y : float) : abs (- y) = abs y.
Proof.
  apply Prim2SF_inj. rewrite !abs_spec, opp_spec.
  destruct (Prim2SF y) as [[|]|[|]| |[|] m e]; reflexivity.
Qed.

Lemma square_opp (u : float) : (- u * - u)%float = (u * u)%float.
Proof.
  apply Prim2SF_inj. rewrite !mul_spec, opp_spec.
  destruct (Prim2SF u) as [[|]|[|]| |[|] m e]; reflexivity.
Qed.

Lemma table_square_even (y : float) :
  table_pow (table_sin (- y)) 2 = table_pow (table_sin y) 2.
Proof.
  unfold table_pow. change (2 =? 2)%float with true. cbv iota.
  unfold table_sin. rewrite finite_opp, eqb_opp_zero, abs_opp.
  destruct (finite y); [|reflexivity].
  destruct (y =? 0)%float; [apply square_opp|]. cbv zeta.
  destruct (- y <? 0)%float; destruct (y <? 0)%float;
    rewrite ?square_opp; reflexivity.
Qed.

Lemma table_asin_not_negative (y : float) :
  not_negative y = true -> not_negative (table_asin y) = true.
Proof.
  intros H. unfold table_asin.
  destruct ((y <? -1) || (1 <? y))%float; [reflexivity|exact H].
Qed.

(** Not negative, on the reference semantics. *)
Lemma not_negative_spec (x : float) :
  not_negative x = true
  <-> match Prim2SF x with
      | S754_nan | S754_zero _ | S754_infinity false
      | S754_finite false _ _ => True
      | _ => False
      end.
Proof.
  unfold not_negative. rewrite orb_true_iff, is_nan_spec, leb_spec.
  destruct (Prim2SF x) as [[|]|[|]| |[|] m e]; cbn; intuition congruence.
Qed.

Lemma binary_round_aux_sign (m e : Z) (l : location) :
  match binary_round_aux prec emax false m e l with
  | S754_nan | S754_zero _ | S754_infinity false
  | S754_finite false _ _ => True
  | _ => False
  end.
Proof.
  unfold binary_round_aux.
  destruct (shr_fexp prec emax m e l) as [mrs' e'].
  destruct (shr_fexp prec emax _ e' loc_Exact) as [mrs'' e''].
  destruct (shr_m mrs''); try exact I.
  destruct (e'' <=? emax - prec); exact I.
Qed.

Lemma sqrt_not_negative (x : float) : not_negative (sqrt x) = true.
Proof.
  apply not_negative_spec. rewrite sqrt_spec.
  destruct (Prim2SF x) as [[|]|[|]| |[|] m e]; try exact I.
  unfold SF64sqrt, SFsqrt.
  destruct (SFsqrt_core_binary prec emax (Zpos m) e) as [[mz ez] lz].
  apply binary_round_aux_sign.
Qed.

(** A positive factor keeps what is not negative so. *)
Lemma scaled_not_negative (K v : float) (mk : positive) (ek : Z) :
  Prim2SF K = fin mk ek -> not_negative v = true ->
  not_negative (K * v) = true.
Proof.
  intros EK H. apply not_negative_spec in H. apply not_negative_spec.
  rewrite mul_spec, EK. unfold fin.
  destruct (Prim2SF v) as [[|]|[|]| |[|] m e]; try contradiction;
    try exact I.
  unfold SF64mul, SFmul. cbn [xorb]. apply binary_round_aux_sign.
Qed.

Section DistanceLaws.

Variables Math_sin Math_cos Math_asin : float -> float.
Variable Math_pow : float -> float -> float.

Lemma distance_not_negative (aLat aLng bLat bLng : float) :
  (forall y, not_negative y = true -> not_negative (Math_asin y) = true) ->
  not_negative
    (distanceMeters Math_sin Math_cos Math_asin Math_pow aLat aLng bLat bLng)
  = true.
Proof.
  intros Hasin. unfold distanceMeters. cbv zeta.
  assert (exists mk ek, Prim2SF (2 * 6371000) = fin mk ek) as (mk & ek & EK)
      by (eexists; eexists; reflexivity).
  apply (scaled_not_negative _ _ mk ek EK).
  apply Hasin. apply sqrt_not_negative.
Qed.

End DistanceLaws.

(** C6, as stated, fails: the result is not always a non-negative
    number.  For the viewer and the spot of [antipodal], two valid
    points almost opposite on the globe, sine and cosine rounded to
    nearest give the haversine term [1 + 2^-51]; its square root is
    above 1, [Math.asin] of it is [NaN], and so is the distance. *)
Lemma antipodal_distance_nan :
  let dist :=
    distanceMeters table_sin table_cos table_asin table_pow
      58.221272 (-148.019986) (-58.221271) 31.980014 in
  is_nan dist = true /\ (0 <=? dist)%float = false.
Proof. vm_compute. split; reflexivity. Qed.

(** C6 (amended): [distanceMeters] is the haversine formula with the
    radius 6371000.  It is symmetric on every platform whose squared
    sine is even.  The distance of a point to itself is exactly [+0]
    for a latitude between -90 and 90 and a finite longitude, on every
    platform where [Math.sin(0)], [0 ** 2] and [Math.asin(0)] are [0]
    and the cosine of a finite number lies in [[-1, 1]].  The result is
    never negative, but it need not be a number: it is [NaN] or at
    least 0 for all arguments, on every platform whose [Math.asin]
    returns nothing negative for an argument that is not negative. *)
Theorem distanceMeters_laws
        (Math_sin Math_cos Math_asin : float -> float)
        (Math_pow : float -> float -> float) :
  let distance := distanceMeters Math_sin Math_cos Math_asin Math_pow in
  (forall aLat aLng bLat bLng : float,
     distance aLat aLng bLat bLng
     = (2 * 6371000
        * Math_asin
            (sqrt
               (Math_pow (Math_sin ((bLat - aLat) * Math_PI / 180 / 2)) 2
                + Math_cos (aLat * Math_PI / 180)
                  * Math_cos (bLat * Math_PI / 180)
                  * Math_pow (Math_sin ((bLng - aLng) * Math_PI / 180 / 2))
                      2)))%float)
  /\ ((forall y : float,
         Math_pow (Math_sin (- y)%float) 2%float
         = Math_pow (Math_sin y) 2%float) ->
      forall aLat aLng bLat bLng : float,
        distance aLat aLng bLat bLng = distance bLat bLng aLat aLng)
  /\ (Math_sin 0%float = 0%float -> Math_pow 0%float 2%float = 0%float ->
      Math_asin 0%float = 0%float ->
      (forall y, finite y = true ->
                 (-1 <=? Math_cos y)%float = true
                 /\ (Math_cos y <=? 1)%float = true) ->
      forall aLat aLng : float,
        (-90 <=? aLat)%float = true -> (aLat <=? 90)%float = true ->
        finite aLng = true ->
        distance aLat aLng aLat aLng = 0%float)
  /\ ((forall y, not_negative y = true ->
                 not_negative (Math_asin y) = true) ->
      forall aLat aLng bLat bLng : float,
        is_nan (distance aLat aLng bLat bLng) = true
        \/ (0 <=? distance aLat aLng bLat bLng)%float = true).
Proof.
  intros distance. split; [|split; [|split]].
  - intros aLat aLng bLat bLng. reflexivity.
  - intros Heven aLat aLng bLat bLng. apply distance_swap. exact Heven.
  - intros Hsin Hpow Hasin Hcos aLat aLng Llat Ulat Flng.
    apply distance_to_itself; assumption.
  - intros Hasin aLat aLng bLat bLng.
    pose proof (distance_not_negative Math_sin Math_cos Math_asin Math_pow
                  aLat aLng bLat bLng Hasin) as H.
    unfold not_negative in H. apply orb_true_iff in H. exact H.
Qed.

Lemma distanceMeters_laws_witness :
  distanceMeters table_sin table_cos table_asin table_pow
    37.5665 126.978 37.5675 126.979
  = distanceMeters table_sin table_cos table_asin table_pow
      37.5675 126.979 37.5665 126.978
  /\ distanceMeters table_sin table_cos table_asin table_pow
       37.5665 126.978 37.5665 126.978
     = 0%float
  /\ (is_nan
        (distanceMeters table_sin table_cos table_asin table_pow
           58.221272 (-148.019986) (-58.221271) 31.980014)
      = true
      \/ (0 <=? distanceMeters table_sin table_cos table_asin table_pow
                  58.221272 (-148.019986) (-58.221271) 31.980014)%float
         = true).
Proof.
  destruct (distanceMeters_laws table_sin table_cos table_asin table_pow)
    as (_ & Hsym & Hself & Hpos).
  split; [|split].
  - apply Hsym. exact table_square_even.
  - apply Hself; try reflexivity. exact table_cos_unit.
  - apply Hpos. exact table_asin_not_negative.
Defined.
